(** * fastai_audio: the data-loading layer of [audio/data.py]

    A shallow embedding of the caching pipeline of [audio/data.py]
    (spectrogram cache of [AudioList.open], wav caches of the
    pre-processing operations) over an explicit file-system state, and the
    properties of that pipeline. *)

From Stdlib Require Import ZArith Ascii String List Lia.
From stdpp Require Import base tactics option list strings pretty gmap fin_maps
  sorting.

Local Open Scope Z_scope.

(** ** [hashlib.md5]: RFC 1321 over 32-bit words held in [Z] *)

Module MD5.

Definition w32 (x : Z) : Z := x mod 2 ^ 32.

Definition rotl32 (x c : Z) : Z :=
  w32 (Z.lor (Z.shiftl x c) (Z.shiftr x (32 - c))).

Definition not32 (x : Z) : Z := Z.lxor x 0xffffffff.

Definition K : list Z :=
  [ 0xd76aa478; 0xe8c7b756; 0x242070db; 0xc1bdceee;
    0xf57c0faf; 0x4787c62a; 0xa8304613; 0xfd469501;
    0x698098d8; 0x8b44f7af; 0xffff5bb1; 0x895cd7be;
    0x6b901122; 0xfd987193; 0xa679438e; 0x49b40821;
    0xf61e2562; 0xc040b340; 0x265e5a51; 0xe9b6c7aa;
    0xd62f105d; 0x02441453; 0xd8a1e681; 0xe7d3fbc8;
    0x21e1cde6; 0xc33707d6; 0xf4d50d87; 0x455a14ed;
    0xa9e3e905; 0xfcefa3f8; 0x676f02d9; 0x8d2a4c8a;
    0xfffa3942; 0x8771f681; 0x6d9d6122; 0xfde5380c;
    0xa4beea44; 0x4bdecfa9; 0xf6bb4b60; 0xbebfbc70;
    0x289b7ec6; 0xeaa127fa; 0xd4ef3085; 0x04881d05;
    0xd9d4d039; 0xe6db99e5; 0x1fa27cf8; 0xc4ac5665;
    0xf4292244; 0x432aff97; 0xab9423a7; 0xfc93a039;
    0x655b59c3; 0x8f0ccc92; 0xffeff47d; 0x85845dd1;
    0x6fa87e4f; 0xfe2ce6e0; 0xa3014314; 0x4e0811a1;
    0xf7537e82; 0xbd3af235; 0x2ad7d2bb; 0xeb86d391 ].

Definition S : list Z :=
  [ 7; 12; 17; 22; 7; 12; 17; 22; 7; 12; 17; 22; 7; 12; 17; 22;
    5; 9; 14; 20; 5; 9; 14; 20; 5; 9; 14; 20; 5; 9; 14; 20;
    4; 11; 16; 23; 4; 11; 16; 23; 4; 11; 16; 23; 4; 11; 16; 23;
    6; 10; 15; 21; 6; 10; 15; 21; 6; 10; 15; 21; 6; 10; 15; 21 ].

Definition bytes_of_string (s : string) : list Z :=
  map (fun c => Z.of_N (N_of_ascii c)) (list_ascii_of_string s).

(** Little-endian bytes of [x], [n] of them. *)
Fixpoint le_bytes (n : nat) (x : Z) : list Z :=
  match n with
  | O => []
  | Datatypes.S n' => x mod 256 :: le_bytes n' (x / 256)
  end.

Fixpoint le_word (bs : list Z) : Z :=
  match bs with
  | [] => 0
  | b :: bs' => b + 256 * le_word bs'
  end.

Definition pad (msg : list Z) : list Z :=
  let len := Z.of_nat (length msg) in
  let zeros := Z.to_nat ((55 - len) mod 64) in
  msg ++ [0x80] ++ repeat 0 zeros ++ le_bytes 8 ((8 * len) mod 2 ^ 64).

Fixpoint chunks {A} (fuel : nat) (n : nat) (l : list A) : list (list A) :=
  match fuel with
  | O => []
  | Datatypes.S fuel' =>
      match l with
      | [] => []
      | _ => take n l :: chunks fuel' n (drop n l)
      end
  end.

Definition words_of_block (blk : list Z) : list Z :=
  map le_word (chunks 16 4 blk).

Definition nthZ (l : list Z) (i : Z) : Z := nth (Z.to_nat i) l 0.

Definition step (M : list Z) (st : Z * Z * Z * Z) (i : Z) : Z * Z * Z * Z :=
  let '(a, b, c, d) := st in
  let '(f, g) :=
    if i <? 16 then (Z.lor (Z.land b c) (Z.land (not32 b) d), i)
    else if i <? 32 then
      (Z.lor (Z.land d b) (Z.land (not32 d) c), (5 * i + 1) mod 16)
    else if i <? 48 then (Z.lxor (Z.lxor b c) d, (3 * i + 5) mod 16)
    else (Z.lxor c (Z.lor b (not32 d)), (7 * i) mod 16) in
  let f' := w32 (f + a + nthZ K i + nthZ M g) in
  (d, w32 (b + rotl32 f' (nthZ S i)), b, c).

Definition process_block (st : Z * Z * Z * Z) (blk : list Z) : Z * Z * Z * Z :=
  let M := words_of_block blk in
  let '(a0, b0, c0, d0) := st in
  let '(a, b, c, d) := fold_left (step M) (map Z.of_nat (seq 0 64)) st in
  (w32 (a0 + a), w32 (b0 + b), w32 (c0 + c), w32 (d0 + d)).

Definition digest (msg : list Z) : list Z :=
  let p := pad msg in
  let '(a, b, c, d) :=
    fold_left process_block (chunks (length p) 64 p)
      (0x67452301, 0xefcdab89, 0x98badcfe, 0x10325476) in
  le_bytes 4 a ++ le_bytes 4 b ++ le_bytes 4 c ++ le_bytes 4 d.

Definition hex_digit (n : Z) : ascii :=
  ascii_of_N (Z.to_N (if n <? 10 then 48 + n else 87 + n)).

Fixpoint hex_of_bytes (bs : list Z) : string :=
  match bs with
  | [] => EmptyString
  | b :: bs' =>
      String (hex_digit (b / 16)) (String (hex_digit (b mod 16)) (hex_of_bytes bs'))
  end.

Definition hexdigest (s : string) : string :=
  hex_of_bytes (digest (bytes_of_string s)).

End MD5.

(** [md5(s)]: [hashlib.md5(s.encode("utf-8")).hexdigest()].  Strings are
    sequences of bytes here, so a string is its own UTF-8 encoding. *)
Definition md5 (s : string) : string := MD5.hexdigest s.

(** ** Python values and their [str] *)

Inductive PyVal :=
  | PyBool (b : bool)
  | PyInt (z : Z)
  | PyNone.

Definition py_str_bool (b : bool) : string := if b then "True" else "False".

(** [str] of an [int] is its decimal numeral, which is what stdpp's
    [pretty] on [Z] prints. *)
Definition py_str_int (z : Z) : string := pretty z.

Definition py_repr (v : PyVal) : string :=
  match v with
  | PyBool b => py_str_bool b
  | PyInt z => py_str_int z
  | PyNone => "None"
  end.

Definition py_opt_int (o : option Z) : PyVal :=
  match o with
  | Some z => PyInt z
  | None => PyNone
  end.

(** Truthiness of an optional number: [None] and [0] are false. *)
Definition truthy (o : option Z) : bool :=
  match o with
  | Some z => negb (z =? 0)
  | None => false
  end.

(** [str] of a [dict] with string keys, in insertion order. *)
Definition py_dict_item (kv : string * PyVal) : string :=
  "'" +:+ kv.1 +:+ "': " +:+ py_repr kv.2.

Definition py_str_dict (d : list (string * PyVal)) : string :=
  "{" +:+ String.concat ", " (map py_dict_item d) +:+ "}".

(** ** Configuration dataclasses *)

Module SpectrogramConfig.
Record t := mk {
  n_fft : Z;
  ws : option Z;
  hop : Z;
  f_min : Z;
  f_max : Z;
  pad : Z;
  n_mels : Z
}.

Definition default : t :=
  {| n_fft := 2560; ws := None; hop := 512; f_min := 0; f_max := 8000;
     pad := 0; n_mels := 128 |}.

Definition asdict (c : t) : list (string * PyVal) :=
  [ ("n_fft", PyInt (n_fft c)); ("ws", py_opt_int (ws c));
    ("hop", PyInt (hop c)); ("f_min", PyInt (f_min c));
    ("f_max", PyInt (f_max c)); ("pad", PyInt (pad c));
    ("n_mels", PyInt (n_mels c)) ].
End SpectrogramConfig.

(** ** Paths ([pathlib.Path], POSIX flavour) *)

Record Path := mkPath { absolute : bool; parts : list string }.

Global Instance Path_eq_dec : EqDecision Path.
Proof. solve_decision. Defined.

Global Instance Path_countable : Countable Path :=
  inj_countable' (λ p, (absolute p, parts p)) (λ ap, mkPath ap.1 ap.2)
    (λ p, match p with mkPath _ _ => eq_refl end).

(** [str(p)] *)
Definition path_str (p : Path) : string :=
  if absolute p then "/" +:+ String.concat "/" (parts p)
  else match parts p with
       | [] => "."
       | _ => String.concat "/" (parts p)
       end.

Fixpoint split_on (sep : ascii) (s : string) : list string :=
  match s with
  | EmptyString => [EmptyString]
  | String c s' =>
      if decide (c = sep) then EmptyString :: split_on sep s'
      else match split_on sep s' with
           | [] => [String c EmptyString]
           | x :: xs => String c x :: xs
           end
  end.

Definition starts_with_slash (s : string) : bool :=
  match s with
  | String c _ => bool_decide (c = "/"%char)
  | EmptyString => false
  end.

(** [Path(s)] for a string: separators split the parts; empty parts and
    ["."] parts are dropped (a leading double slash is not kept apart). *)
Definition Path_of_string (s : string) : Path :=
  {| absolute := starts_with_slash s;
     parts := filter (λ x, x ≠ EmptyString ∧ x ≠ ".") (split_on "/" s) |}.

(** [p / q] for two paths: an absolute right operand replaces the left. *)
Definition path_join (p q : Path) : Path :=
  if absolute q then q
  else {| absolute := absolute p; parts := parts p ++ parts q |}.

(** [p / name] where [name] is a file name the program builds itself
    (hexadecimal digests, decimal indices and fixed suffixes: no
    separator in it). *)
Definition path_child (p : Path) (name : string) : Path :=
  {| absolute := absolute p; parts := parts p ++ [name] |}.

(** An item given either as a [Path] object or as a [str]. *)
Inductive PathLike :=
  | PPath (p : Path)
  | PStr (s : string).

(** [Path(item)] *)
Definition as_Path (x : PathLike) : Path :=
  match x with
  | PPath p => p
  | PStr s => Path_of_string s
  end.

(** [str(item)] *)
Definition pathlike_str (x : PathLike) : string :=
  match x with
  | PPath p => path_str p
  | PStr s => s
  end.

(** [q] lies in the directory tree rooted at [d] ([d] itself included). *)
Definition path_inside (d q : Path) : Prop :=
  absolute d = absolute q ∧ parts d `prefix_of` parts q.

Global Instance path_inside_dec d q : Decision (path_inside d q).
Proof. unfold path_inside. apply _. Defined.

Module AudioTransformConfig.
(** The thirteen annotated attributes are the dataclass fields;
    [cache_dir], [force_cache], [to_db_scale], [processed] and [sg_cfg]
    carry no annotation: they are plain class attributes, readable and
    assignable on a configuration but not fields of the dataclass. *)
Record t := mk {
  remove_silence : bool;
  use_spectro : bool;
  cache : bool;
  cache_dir : option Path;
  force_cache : bool;
  to_db_scale : bool;
  silence_padding : Z;
  top_db : Z;
  processed : bool;
  segment_size : option Z;
  silence_threshold : Z;
  max_to_pad : option Z;
  resample_to : option Z;
  standardize : bool;
  sg_cfg : SpectrogramConfig.t;
  mfcc : bool;
  n_mfcc : Z;
  delta : bool
}.

Definition default : t :=
  {| remove_silence := false; use_spectro := true; cache := true;
     cache_dir := Some (Path_of_string ".cache"); force_cache := false;
     to_db_scale := true; silence_padding := 200; top_db := 80;
     processed := false; segment_size := None; silence_threshold := 20;
     max_to_pad := None; resample_to := None; standardize := false;
     sg_cfg := SpectrogramConfig.default; mfcc := false; n_mfcc := 20;
     delta := false |}.

(** [dataclasses.asdict]: the fields, in declaration order. *)
Definition asdict (c : t) : list (string * PyVal) :=
  [ ("remove_silence", PyBool (remove_silence c));
    ("use_spectro", PyBool (use_spectro c));
    ("cache", PyBool (cache c));
    ("silence_padding", PyInt (silence_padding c));
    ("top_db", PyInt (top_db c));
    ("segment_size", py_opt_int (segment_size c));
    ("silence_threshold", PyInt (silence_threshold c));
    ("max_to_pad", py_opt_int (max_to_pad c));
    ("resample_to", py_opt_int (resample_to c));
    ("standardize", PyBool (standardize c));
    ("mfcc", PyBool (mfcc c));
    ("n_mfcc", PyInt (n_mfcc c));
    ("delta", PyBool (delta c)) ].

Definition set_cache_dir (d : option Path) (c : t) : t :=
  mk (remove_silence c) (use_spectro c) (cache c) d (force_cache c)
     (to_db_scale c) (silence_padding c) (top_db c) (processed c)
     (segment_size c) (silence_threshold c) (max_to_pad c) (resample_to c)
     (standardize c) (sg_cfg c) (mfcc c) (n_mfcc c) (delta c).
End AudioTransformConfig.

Module SGC := SpectrogramConfig.
Module ATC := AudioTransformConfig.

(** ** Signals *)

(** A signal tensor of at most two dimensions: what [torchaudio.load]
    returns has two (channels, samples); [squeeze] and slicing give the
    others. *)
Inductive Sig (A : Type) :=
  | S0 (x : A)
  | S1 (l : list A)
  | S2 (m : list (list A)).
Arguments S0 {A} x.
Arguments S1 {A} l.
Arguments S2 {A} m.

(** ** Exceptions and results *)

Inductive exn :=
  | FileNotFoundError (msg : string)
  | Exception (msg : string)
  | TypeError
  | ValueError
  | ZeroDivisionError
  | IndexError
  | OSError
  | RuntimeError.

Inductive Res (A : Type) :=
  | Ok (a : A)
  | Raise (e : exn).
Arguments Ok {A} a.
Arguments Raise {A} e.

(** ** What the module takes from outside

    The audio and tensor libraries, the sibling modules [audio.py] and
    [transform.py], the order in which the operating system lists a
    directory, and the floating-point conversion of milliseconds to a
    number of samples.  A library call that fails is [None]. *)
Class Externals := {
  Sample : Type;
  Tensor : Type;
  Label : Type;
  (** [str(label)] *)
  str_label : Label → string;
  AUDIO_EXTENSIONS : list string;
  (** [os.scandir] lists the entries of a directory in an order of its
      own. *)
  scandir_order : list string → list string;
  scandir_order_perm : ∀ l, scandir_order l ≡ₚ l;
  (** [int(ms / 1000 * sr)] *)
  ms_to_samples : Z → Z → Z;
  tfm_resample : Sig Sample → Z → option Z → option (Sig Sample);
  tfm_chop_silence : Sig Sample → Z → Z → Z → option (list (Sig Sample));
  PadTrim : Z → Sig Sample → option (Sig Sample);
  MFCC : Z → Z → SGC.t → Sig Sample → option Tensor;
  MelSpectrogram : SGC.t → Sig Sample → option Tensor;
  SpectrogramToDB : Z → Tensor → option Tensor;
  tensor_squeeze : Tensor → Tensor;
  tensor_permute : Tensor → option Tensor;
  standardize : Tensor → option Tensor;
  torchdelta : Tensor → Z → option Tensor;
  tensor_stack3 : Tensor → Tensor → Tensor → option Tensor;
  tensor_expand3 : Tensor → option Tensor
}.

(** ** The file system and the state monad over it *)

Section World.
Context `{Externals}.

(** What a file holds.  An audio file is recorded as the channels and
    the rate that were handed to [torchaudio.save]; how the samples are
    encoded on disk is not modelled. *)
Inductive FileData :=
  | FAudio (m : list (list Sample)) (sr : Z)
  | FTensor (t : Tensor).

Inductive Node :=
  | Dir
  | File (d : FileData).

Inductive Event :=
  | EvLoadAudio (p : Path)
  | EvLoadTensor (p : Path)
  | EvMakedirs (p : Path)
  | EvSaveAudio (p : Path)
  | EvSaveTensor (p : Path).

Record World := mkWorld { fs : gmap Path Node; log : list Event }.

Definition M (A : Type) : Type := World → Res A * World.

Definition ret {A} (a : A) : M A := λ w, (Ok a, w).

Definition raise {A} (e : exn) : M A := λ w, (Raise e, w).

Definition bind {A B} (m : M A) (k : A → M B) : M B :=
  λ w, match m w with
       | (Ok a, w') => k a w'
       | (Raise e, w') => (Raise e, w')
       end.

(** A library call: failure is a [RuntimeError]. *)
Definition lib {A} (o : option A) : M A :=
  match o with
  | Some a => ret a
  | None => raise RuntimeError
  end.

Global Instance M_ret : MRet M := λ A a, ret a.
Global Instance M_bind : MBind M := λ A B k m, bind m k.

(** The world with one more event in its log. *)
Definition record (e : Event) (w : World) : World :=
  mkWorld (fs w) (e :: log w).

End World.

Section FileSystem.
Context `{Externals}.

(** The node at a path; the root and the current directory (no parts)
    are always directories. *)
Definition node_at (m : gmap Path Node) (p : Path) : option Node :=
  match parts p with
  | [] => Some Dir
  | _ => m !! p
  end.

(** [p.exists()], [os.path.exists(p)] *)
Definition path_exists (w : World) (p : Path) : bool :=
  bool_decide (is_Some (node_at (fs w) p)).

Definition exists_ (p : Path) : M bool := λ w, (Ok (path_exists w p), w).

(** [p.parent] *)
Definition path_parent (p : Path) : Path :=
  {| absolute := absolute p; parts := removelast (parts p) |}.

(** [torchaudio.load(p)] *)
Definition torchaudio_load (p : Path) : M (Sig Sample * Z) :=
  λ w, let w' := record (EvLoadAudio p) w in
       match node_at (fs w) p with
       | Some (File (FAudio m sr)) => (Ok (S2 m, sr), w')
       | Some (File _) => (Raise RuntimeError, w')
       | _ => (Raise OSError, w')
       end.

(** [torch.load(p)] *)
Definition torch_load (p : Path) : M Tensor :=
  λ w, let w' := record (EvLoadTensor p) w in
       match node_at (fs w) p with
       | Some (File (FTensor t)) => (Ok t, w')
       | Some (File _) => (Raise RuntimeError, w')
       | _ => (Raise OSError, w')
       end.

(** [os.makedirs(p, exist_ok=True)]: every missing directory on the way
    down to [p] is created; a file in the way is an error. *)
Fixpoint makedirs_go (a : bool) (above todo : list string)
    (m : gmap Path Node) : bool * gmap Path Node :=
  match todo with
  | [] => (true, m)
  | x :: todo' =>
      let d := mkPath a (above ++ [x]) in
      match m !! d with
      | None => makedirs_go a (above ++ [x]) todo' (<[d := Dir]> m)
      | Some Dir => makedirs_go a (above ++ [x]) todo' m
      | Some (File _) => (false, m)
      end
  end.

Definition makedirs (p : Path) : M unit :=
  λ w, let r := makedirs_go (absolute p) [] (parts p) (fs w) in
       (if r.1 then Ok tt else Raise OSError,
        mkWorld r.2 (EvMakedirs p :: log w)).

(** Writing a file: the parent must be a directory and the target must
    not be one. *)
Definition write_file (p : Path) (d : FileData) : M unit :=
  λ w, match node_at (fs w) (path_parent p), node_at (fs w) p with
       | Some Dir, Some Dir => (Raise OSError, w)
       | Some Dir, _ => (Ok tt, mkWorld (<[p := File d]> (fs w)) (log w))
       | _, _ => (Raise OSError, w)
       end.

(** [torchaudio.save(str(fn), s, sr)] *)
Definition torchaudio_save (fn : Path) (s : Sig Sample) (sr : option Z)
    : M unit :=
  λ w, let w' := record (EvSaveAudio fn) w in
       match sr, s with
       | None, _ => (Raise TypeError, w')
       | Some _, S0 _ => (Raise RuntimeError, w')
       | Some r, S1 l => write_file fn (FAudio [l] r) w'
       | Some r, S2 m => write_file fn (FAudio m r) w'
       end.

(** [torch.save(t, p)] *)
Definition torch_save (t : Tensor) (p : Path) : M unit :=
  λ w, write_file p (FTensor t) (record (EvSaveTensor p) w).

(** The names of the files directly in directory [d], sorted; the
    order of a listing is [scandir_order]'s. *)
Definition is_file_in (d : Path) (kn : Path * Node) : bool :=
  match kn.2, parts kn.1 with
  | File _, _ :: _ => bool_decide (path_parent kn.1 = d)
  | _, _ => false
  end.

Definition file_name_in (d : Path) (kn : Path * Node) : option string :=
  if is_file_in d kn then last (parts kn.1) else None.

Definition file_names (m : gmap Path Node) (d : Path) : list string :=
  merge_sort String.le (omap (file_name_in d) (map_to_list m)).

Definition hidden (name : string) : bool :=
  match name with
  | String c _ => bool_decide (c = "."%char)
  | EmptyString => false
  end.

(** [get_files(d)] of the framework, with its defaults: the files
    directly in [d] whose name does not start with a dot, in the order
    in which [os.scandir] lists them. *)
Definition get_files (d : Path) : M (list Path) :=
  λ w, match node_at (fs w) d with
       | Some Dir =>
           (Ok (map (path_child d)
                  (filter (λ n, hidden n = false)
                     (scandir_order (file_names (fs w) d)))), w)
       | _ => (Raise OSError, w)
       end.

End FileSystem.

(** ** Python list and string primitives *)

(** [l[a:b]] with Python's treatment of negative and out-of-range
    bounds. *)
Definition py_index_norm (len i : Z) : Z :=
  if i <? 0 then Z.max 0 (i + len) else Z.min i len.

Definition py_slice {A} (l : list A) (a b : Z) : list A :=
  let len := Z.of_nat (length l) in
  let a' := py_index_norm len a in
  let b' := py_index_norm len b in
  take (Z.to_nat (b' - a')) (drop (Z.to_nat a') l).

(** [l[i]] *)
Definition py_getitem {A} (l : list A) (i : Z) : option A :=
  let len := Z.of_nat (length l) in
  if (0 <=? i) && (i <? len) then l !! Z.to_nat i
  else if (- len <=? i) && (i <? 0) then l !! Z.to_nat (i + len)
  else None.

Definition ascii_lower (c : ascii) : ascii :=
  let n := N_of_ascii c in
  if ((65 <=? n) && (n <=? 90))%N then ascii_of_N (n + 32) else c.

(** [s.lower()], on the ASCII letters. *)
Fixpoint lower (s : string) : string :=
  match s with
  | EmptyString => EmptyString
  | String c s' => String (ascii_lower c) (lower s')
  end.

(** [s.endswith(suffix)] *)
Definition endswith (s suffix : string) : bool :=
  bool_decide (list_ascii_of_string suffix `suffix_of` list_ascii_of_string s).

(** [s.endswith(suffixes)] for a tuple of suffixes *)
Definition endswith_any (s : string) (suffixes : list string) : bool :=
  existsb (endswith s) suffixes.

(** ** Tensors of samples *)

Section Signals.
Context {A : Type}.

(** [len(s)]; a zero-dimensional tensor has none. *)
Definition sig_len (s : Sig A) : option Z :=
  match s with
  | S0 _ => None
  | S1 l => Some (Z.of_nat (length l))
  | S2 m => Some (Z.of_nat (length m))
  end.

Definition single (row : list A) : option A :=
  match row with
  | [x] => Some x
  | _ => None
  end.

(** [s.squeeze()]: the dimensions of size one are dropped. *)
Definition sig_squeeze (s : Sig A) : Sig A :=
  match s with
  | S0 x => S0 x
  | S1 [x] => S0 x
  | S1 l => S1 l
  | S2 [[x]] => S0 x
  | S2 [row] => S1 row
  | S2 [] => S2 []
  | S2 m =>
      match mapM single m with
      | Some col => S1 col
      | None => S2 m
      end
  end.

(** [s[a:b]], along the first dimension. *)
Definition sig_slice (s : Sig A) (a b : Z) : option (Sig A) :=
  match s with
  | S0 _ => None
  | S1 l => Some (S1 (py_slice l a b))
  | S2 m => Some (S2 (py_slice m a b))
  end.

Definition sig_elements (s : Sig A) : list A :=
  match s with
  | S0 x => [x]
  | S1 l => l
  | S2 m => concat m
  end.

(** [s.reshape(1, -1)]; a tensor without elements has no such shape. *)
Definition sig_reshape_row (s : Sig A) : option (Sig A) :=
  match sig_elements s with
  | [] => None
  | l => Some (S2 [l])
  end.

End Signals.

(** ** Items and lists *)

Module AudioItem.
(** The arguments of the constructor [AudioItem(sig=, sr=, path=,
    spectro=, max_to_pad=)] of [audio.py]; an argument that is not
    given is [None]. *)
Record t {E : Externals} := mk {
  sig : option (Sig Sample);
  sr : option Z;
  path : PathLike;
  spectro : option Tensor;
  max_to_pad : option Z
}.
End AudioItem.

(** What an item list can hold. *)
Inductive Item {E : Externals} :=
  | IAudio (a : AudioItem.t)
  | IPathLike (p : PathLike)
  | IOther.

Module AudioList.
Record t {E : Externals} := mk {
  items : list Item;
  path : Path;
  config : ATC.t
}.
End AudioList.

Module AudioLabelList.
(** [x] is the list of inputs, [y_items] the items of the list of
    labels [y]. *)
Record t {E : Externals} := mk {
  x : AudioList.t;
  y_items : list Label
}.
End AudioLabelList.

(** An entry of [hash_params], and its [str]. *)
Inductive HashParam {E : Externals} :=
  | HPath (p : PathLike)
  | HInt (z : Z)
  | HOptInt (z : option Z)
  | HLabel (l : Label).

Definition str_param {E : Externals} (h : HashParam) : string :=
  match h with
  | HPath p => pathlike_str p
  | HInt z => py_str_int z
  | HOptInt z => py_repr (py_opt_int z)
  | HLabel l => str_label l
  end.

(** ** The wav caches of the pre-processing operations *)

Section Cache.
Context `{Externals}.

(** [config.cache_dir / f"{cache_type}_{hash_str}"] *)
Definition mark_path (cache_dir : Path) (cache_type : string)
    (hash_params : list HashParam) : Path :=
  let hash_str := md5 (String.concat "" (map str_param hash_params)) in
  path_child cache_dir (cache_type +:+ "_" +:+ hash_str).

Definition get_cache (config : ATC.t) (cache_type : string)
    (hash_params : list HashParam) : M (option (list Path)) :=
  match ATC.cache_dir config with
  | None => mret None
  | Some cache_dir =>
      let mark := mark_path cache_dir cache_type hash_params in
      e ← exists_ mark;
      if e : bool then files ← get_files mark; mret (Some files)
      else mret None
  end.

(** The loop of [make_cache]: [i] is the index [enumerate] has reached. *)
Fixpoint save_sigs (mark : Path) (sr : option Z) (i : nat)
    (sigs : list (Sig Sample)) : M (list Path) :=
  match sigs with
  | [] => mret []
  | s :: sigs' =>
      match sig_len s with
      | None => raise TypeError
      | Some n =>
          if n <? 1 then save_sigs mark sr (S i) sigs'
          else
            let fn := path_child mark (pretty i +:+ ".wav") in
            torchaudio_save fn s sr;;
            files ← save_sigs mark sr (S i) sigs';
            mret (fn :: files)
      end
  end.

Definition make_cache (sigs : list (Sig Sample)) (sr : option Z)
    (config : ATC.t) (cache_type : string) (hash_params : list HashParam)
    : M (list Path) :=
  match ATC.cache_dir config with
  | None => raise TypeError
  | Some cache_dir =>
      let mark := mark_path cache_dir cache_type hash_params in
      if 0 <? Z.of_nat (length sigs) then
        makedirs mark;; save_sigs mark sr 0 sigs
      else mret []
  end.

(** [not files] *)
Definition not_files (files : option (list Path)) : bool :=
  match files with
  | None | Some [] => true
  | Some (_ :: _) => false
  end.

Definition files_or_empty (files : option (list Path)) : list Path :=
  default [] files.

(** [item_path, label = item] followed by
    [if not os.path.exists(item_path): item_path = path/item_path];
    anything but a path or a string is refused by [os.path.exists]. *)
Definition item_path_of (item : Item) (path : Path) : M PathLike :=
  match item with
  | IPathLike item_path =>
      e ← exists_ (as_Path item_path);
      mret (if e : bool then item_path
            else PPath (path_join path (as_Path item_path)))
  | _ => raise TypeError
  end.

(** [list(zip(files, [label]*len(files)))] *)
Definition zip_label (files : list Path) (label : Label)
    : list (Path * Label) :=
  zip files (replicate (length files) label).

Definition resample_item (item : Item * Label) (config : ATC.t)
    (path : Path) : M (list (Path * Label)) :=
  let '(item0, label) := item in
  item_path ← item_path_of item0 path;
  let sr_new := ATC.resample_to config in
  files ← get_cache config "rs" [HPath item_path; HOptInt sr_new];
  files ← (if not_files files then
             '(sig, sr) ← torchaudio_load (as_Path item_path);
             sig ← lib (tfm_resample sig sr sr_new);
             make_cache [sig] sr_new config "rs"
               [HPath item_path; HOptInt sr_new]
           else mret (files_or_empty files));
  mret (zip_label files label).

Definition remove_silence (item : Item * Label) (config : ATC.t)
    (path : Path) : M (list (Path * Label)) :=
  let '(item0, label) := item in
  item_path ← item_path_of item0 path;
  let st := ATC.silence_threshold config in
  let sp := ATC.silence_padding config in
  files ← get_cache config "sh" [HPath item_path; HInt st; HInt sp];
  files ← (if not_files files then
             '(sig, sr) ← torchaudio_load (as_Path item_path);
             sigs ← lib (tfm_chop_silence sig sr st sp);
             make_cache sigs (Some sr) config "sh"
               [HPath item_path; HInt st; HInt sp]
           else mret (files_or_empty files));
  mret (zip_label files label).

(** The slices [sig[i*segsize : min((i+1)*segsize, len(sig))]] for [i]
    in [range(int(len(sig)/segsize) + 1)].  The quotient of the two
    lengths is taken in floating point and truncated by [int]; on
    lengths below 2^53 that is the truncated integer quotient. *)
Definition segments (sig : Sig Sample) (segsize : Z)
    : M (list (Sig Sample)) :=
  match sig_len sig with
  | None => raise TypeError
  | Some len =>
      if segsize =? 0 then raise ZeroDivisionError
      else
        mret (omap (λ i, sig_slice sig (i * segsize)
                            (Z.min ((i + 1) * segsize) len))
                (seqZ 0 (Z.quot len segsize + 1)))
  end.

Definition segment_items (item : Item * Label) (config : ATC.t)
    (path : Path) : M (list (Path * Label)) :=
  let '(item0, label) := item in
  item_path ← item_path_of item0 path;
  '(sig, sr) ← torchaudio_load (as_Path item_path);
  match ATC.segment_size config with
  | None => raise TypeError
  | Some segment_size =>
      let segsize := ms_to_samples segment_size sr in
      files ← get_cache config "s"
                [HPath item_path; HInt segsize; HLabel label];
      files ← (if not_files files then
                 let sig := sig_squeeze sig in
                 sigs ← segments sig segsize;
                 make_cache sigs (Some sr) config "s"
                   [HPath item_path; HInt segsize; HLabel label]
               else mret (files_or_empty files));
      mret (zip_label files label)
  end.

End Cache.

(** ** [AudioLabelList] *)

Section LabelList.
Context `{Externals}.

(** [concat(x, y)]: [np.concatenate((x, y))] if [len(y) > 0], else [x]. *)
Definition concat_rows {A} (x y : list A) : list A :=
  if 0 <? Z.of_nat (length y) then x ++ y else x.

(** [items = [f(i, x.config, x.path) for i in items]] followed by
    [items = reduce(concat, items, np.empty((0, 2)))]. *)
Definition run_stage
    (f : Item * Label → ATC.t → Path → M (list (Path * Label)))
    (config : ATC.t) (path : Path) (items : list (Item * Label))
    : M (list (Item * Label)) :=
  rows ← mapM (λ i, f i config path) items;
  mret (prod_map (λ f, IPathLike (PPath f)) id
          <$> fold_left concat_rows rows []).

(** The unzipping of [items] into [nx, ny]: nothing to unpack when
    there is no item. *)
Definition unzip_items (items : list (Item * Label))
    : M (list Item * list Label) :=
  match items with
  | [] => raise ValueError
  | _ => mret (items.*1, items.*2)
  end.

Definition _pre_process (self : AudioLabelList.t) : M AudioLabelList.t :=
  let x := AudioLabelList.x self in
  let y_items := AudioLabelList.y_items self in
  let cfg := AudioList.config x in
  if (0 <? Z.of_nat (length (AudioList.items x)))
     && (ATC.remove_silence cfg || truthy (ATC.segment_size cfg)
         || truthy (ATC.resample_to cfg))
  then
    let items := zip (AudioList.items x) y_items in
    items ← (if truthy (ATC.resample_to cfg)
             then run_stage resample_item cfg (AudioList.path x) items
             else mret items);
    items ← (if ATC.remove_silence cfg
             then run_stage remove_silence cfg (AudioList.path x) items
             else mret items);
    items ← (if truthy (ATC.segment_size cfg)
             then run_stage segment_items cfg (AudioList.path x) items
             else mret items);
    '(nx, ny) ← unzip_items items;
    mret (AudioLabelList.mk _
            (AudioList.mk _ nx (AudioList.path x) cfg) ny)
  else mret self.


End LabelList.

(** ** [AudioList] *)

Section AudioList.
Context `{Externals}.

(** [__init__]: the configuration object it is given gets its
    [cache_dir] prefixed with [path]. *)
Definition AudioList_init (items : list Item) (path : Path)
    (config : ATC.t) : Res AudioList.t :=
  match ATC.cache_dir config with
  | None => Raise TypeError
  | Some cache_dir =>
      Ok (AudioList.mk _ items path
            (ATC.set_cache_dir (Some (path_join path cache_dir)) config))
  end.

(** [str(asdict(cfg)) + str(asdict(cfg.sg_cfg)) + str(p)] *)
Definition open_key_string (cfg : ATC.t) (p : Path) : string :=
  py_str_dict (ATC.asdict cfg)
  +:+ py_str_dict (SGC.asdict (ATC.sg_cfg cfg))
  +:+ path_str p.

(** [md5(str(asdict(cfg)) + str(asdict(cfg.sg_cfg)) + str(p))] *)
Definition open_key (cfg : ATC.t) (p : Path) : string :=
  md5 (open_key_string cfg p).

(** [image_path] of [open]: [(self.path / cfg.cache_dir) / f"{s}.pt"]. *)
Definition open_image_path (self : AudioList.t) (p : Path) : option Path :=
  let cfg := AudioList.config self in
  cd ← ATC.cache_dir cfg;
  let cache_dir := path_join (AudioList.path self) cd in
  Some (path_child cache_dir (open_key cfg p +:+ ".pt")).

(** The first lines of [open]: the path the item resolves to. *)
Definition open_resolve (self : AudioList.t) (item : PathLike) : M Path :=
  let p := as_Path item in
  e ← exists_ p;
  if e : bool then mret p
  else
    let p := path_join (AudioList.path self) (as_Path item) in
    e ← exists_ p;
    if e : bool then mret p
    else raise (FileNotFoundError
                  ("Neither '" +:+ pathlike_str item +:+ "' nor '"
                   +:+ path_str p +:+ "' could be found")).

(** The spectrogram of a freshly loaded signal. *)
Definition open_spectro (cfg : ATC.t) (signal : Sig Sample)
    (samplerate : Z) : M Tensor :=
  row ← lib (sig_reshape_row signal);
  mel ← (if ATC.mfcc cfg
         then lib (MFCC samplerate (ATC.n_mfcc cfg) (ATC.sg_cfg cfg) row)
         else
           mel ← lib (MelSpectrogram (ATC.sg_cfg cfg) row);
           if ATC.to_db_scale cfg
           then lib (SpectrogramToDB (ATC.top_db cfg) mel)
           else mret mel);
  mel ← lib (tensor_permute (tensor_squeeze mel));
  mel ← (if ATC.standardize cfg then lib (standardize mel) else mret mel);
  if ATC.delta cfg then
    d1 ← lib (torchdelta mel 1);
    d2 ← lib (torchdelta mel 2);
    lib (tensor_stack3 mel d1 d2)
  else lib (tensor_expand3 mel).

(** The early return of [open]: the spectrogram found in the cache. *)
Definition open_cached (cfg : ATC.t) (item : PathLike) (image_path : Path)
    : M (option AudioItem.t) :=
  if ATC.cache cfg && negb (ATC.force_cache cfg) then
    e ← exists_ image_path;
    if e : bool then
      mel ← torch_load image_path;
      let mel := tensor_squeeze mel in
      mel ← (if ATC.standardize cfg then lib (standardize mel)
             else mret mel);
      mret (Some (AudioItem.mk _ None None item (Some mel)
                    (ATC.max_to_pad cfg)))
    else mret None
  else mret None.

(** [open] from [torchaudio.load] on: the signal is loaded, the
    spectrogram computed and, with [cache], stored. *)
Definition open_compute (cfg : ATC.t) (item : PathLike) (p : Path)
    (image_path : option Path) : M AudioItem.t :=
  '(signal, samplerate) ← torchaudio_load p;
  signal ← (match ATC.max_to_pad cfg with
            | Some ms =>
                if negb (ms =? 0)
                then lib (PadTrim (ms_to_samples ms samplerate) signal)
                else mret signal
            | None => mret signal
            end);
  mel ← match image_path with
        | Some ip =>
            mel ← open_spectro cfg signal samplerate;
            (if ATC.cache cfg
             then makedirs (path_parent ip);; torch_save mel ip
             else mret tt);;
            mret (Some mel)
        | None => mret None
        end;
  mret (AudioItem.mk _ (Some (sig_squeeze signal)) (Some samplerate)
          item mel None).

(** [open] once the path is resolved and its extension accepted. *)
Definition open_load (self : AudioList.t) (item : PathLike) (p : Path)
    : M AudioItem.t :=
  let cfg := AudioList.config self in
  image_path ← (if ATC.use_spectro cfg
                then match open_image_path self p with
                     | Some ip => mret (Some ip)
                     | None => raise TypeError
                     end
                else mret None);
  cached ← match image_path with
           | Some ip => open_cached cfg item ip
           | None => mret None
           end;
  match cached with
  | Some it => mret it
  | None => open_compute cfg item p image_path
  end.

Definition open (self : AudioList.t) (item : PathLike) : M AudioItem.t :=
  p ← open_resolve self item;
  if negb (endswith_any (lower (path_str p)) AUDIO_EXTENSIONS)
  then raise (Exception "Invalid audio file")
  else open_load self item p.

Definition get (self : AudioList.t) (i : Z) : M AudioItem.t :=
  match py_getitem (AudioList.items self) i with
  | None => raise IndexError
  | Some item =>
      match item with
      | IAudio a => mret a
      | IPathLike p =>
          open self (PPath (path_join (AudioList.path self) (as_Path p)))
      | IOther => raise (Exception "Can't handle that type")
      end
  end.

End AudioList.

(** * Definitions used in the statements *)

(** The name of the [i]-th wav file of a cache directory. *)
Definition wav_path (mark : Path) (i : nat) : Path :=
  path_child mark (pretty i +:+ ".wav").

Definition is_digit (c : ascii) : Prop := is_Some (Ascii.is_nat c).

(** A string of decimal digits. *)
Definition digits (s : string) : Prop :=
  Forall is_digit (list_ascii_of_string s).






(** The slices of [segment_items] on a one-dimensional signal. *)
Definition segment_slices {A} (l : list A) (segsize : Z) : list (list A) :=
  let len := Z.of_nat (length l) in
  (λ i, py_slice l (i * segsize) (Z.min ((i + 1) * segsize) len))
  <$> seqZ 0 (len `div` segsize + 1).

(** The three pre-processing operations. *)
Inductive PreOp := OpResample | OpSilence | OpSegment.

Definition pre_op `{Externals} (o : PreOp)
    : Item * Label → ATC.t → Path → M (list (Path * Label)) :=
  match o with
  | OpResample => resample_item
  | OpSilence => remove_silence
  | OpSegment => segment_items
  end.

Section Auxiliary.
Context `{Externals}.

(** [os.path.isdir(p)] *)
Definition is_dir (m : gmap Path Node) (p : Path) : bool :=
  match node_at m p with
  | Some Dir => true
  | _ => false
  end.

(** Every entry lies in a directory. *)
Definition fs_wf (m : gmap Path Node) : Prop :=
  map_Forall (λ k _, is_dir m (path_parent k) = true) m.

Global Instance fs_wf_dec m : Decision (fs_wf m).
Proof. unfold fs_wf. apply _. Defined.

(** What [get_files] lists: the visible files of the directory, each
    once. *)
Definition visible_file (m : gmap Path Node) (d q : Path) : Prop :=
  ∃ n c, q = path_child d n ∧ hidden n = false ∧ m !! q = Some (File c).

(** What [torchaudio.save] stores for a tensor. *)
Definition sig_data (s : Sig Sample) : list (list Sample) :=
  match s with
  | S0 x => [[x]]
  | S1 l => [l]
  | S2 m => m
  end.

(** The signals that [make_cache] writes, with their indices. *)
Fixpoint kept (i : nat) (sigs : list (Sig Sample))
    : list (nat * Sig Sample) :=
  match sigs with
  | [] => []
  | s :: sigs' =>
      match sig_len s with
      | Some n => if n <? 1 then kept (S i) sigs'
                  else (i, s) :: kept (S i) sigs'
      | None => kept (S i) sigs'
      end
  end.

(** The files that [make_cache] returns. *)
Definition kept_files (mark : Path) (i : nat) (sigs : list (Sig Sample))
    : list Path :=
  (λ js, wav_path mark js.1) <$> kept i sigs.

(** The path [open] settles on: the item's own path if it exists, else
    [self.path/item] if that exists. *)
Definition resolved (self : AudioList.t) (item : PathLike) (w : World)
    : option Path :=
  if path_exists w (as_Path item) then Some (as_Path item)
  else if path_exists w (path_join (AudioList.path self) (as_Path item))
       then Some (path_join (AudioList.path self) (as_Path item))
       else None.


(** The shape shared by the three operations: look the files up, and
    compute and store them when there are none. *)
Definition cached_files (config : ATC.t) (ct : string)
    (hp : list HashParam) (compute : M (list (Sig Sample) * option Z))
    : M (list Path) :=
  files ← get_cache config ct hp;
  if not_files files then
    '(sigs, sr) ← compute;
    make_cache sigs sr config ct hp
  else mret (files_or_empty files).

(** What each operation computes on a miss. *)
Definition compute_resample (config : ATC.t) (item_path : PathLike)
    : M (list (Sig Sample) * option Z) :=
  '(sig, sr) ← torchaudio_load (as_Path item_path);
  sig ← lib (tfm_resample sig sr (ATC.resample_to config));
  mret ([sig], ATC.resample_to config).

Definition compute_silence (config : ATC.t) (item_path : PathLike)
    : M (list (Sig Sample) * option Z) :=
  '(sig, sr) ← torchaudio_load (as_Path item_path);
  sigs ← lib (tfm_chop_silence sig sr (ATC.silence_threshold config)
                (ATC.silence_padding config));
  mret (sigs, Some sr).

Definition compute_segments (sig : Sig Sample) (sr segsize : Z)
    : M (list (Sig Sample) * option Z) :=
  sigs ← segments (sig_squeeze sig) segsize;
  mret (sigs, Some sr).

(** The operations that look the cache up before they load. *)
Definition lookup_then_load (ct : string)
    (hp : PathLike → list HashParam)
    (compute : PathLike → M (list (Sig Sample) * option Z))
    (item : Item) (label : Label) (config : ATC.t) (path : Path)
    : M (list (Path * Label)) :=
  item_path ← item_path_of item path;
  files ← cached_files config ct (hp item_path) (compute item_path);
  mret (zip_label files label).

(** One stage of the pipeline, in the words of the specification: the
    operation is applied to every item in turn and the lists of
    generated files, paired with their labels, are flattened. *)
Definition flat_stage (enabled : bool)
    (f : Item * Label → ATC.t → Path → M (list (Path * Label)))
    (config : ATC.t) (path : Path) (items : list (Item * Label))
    : M (list (Item * Label)) :=
  if enabled then
    rows ← mapM (λ i, f i config path) items;
    mret ((λ fl, (IPathLike (PPath fl.1), fl.2)) <$> concat rows)
  else mret items.


(** A computation whose new events satisfy [Pev] and that leaves every
    file outside [Pfile] as it was. *)
Definition touches {A} (Pev : Event → Prop) (Pfile : Path → Prop)
    (m : M A) : Prop :=
  ∀ w r w', m w = (r, w') →
    (∀ ev, ev ∈ log w' → ev ∈ log w ∨ Pev ev)
    ∧ (∀ q, ¬ Pfile q →
            ∀ c, fs w' !! q = Some (File c) ↔ fs w !! q = Some (File c)).

(** The events and the one file of [open]. *)
Definition open_event (p ip : Path) (ev : Event) : Prop :=
  ev ∈ [EvLoadAudio p; EvLoadTensor ip; EvMakedirs (path_parent ip);
        EvSaveTensor ip].

(** A computation that leaves the world as it is. *)
Definition same_world {A} (m : M A) : Prop := ∀ w, (m w).2 = w.

(** ** When the pipeline yields files *)

(** A list with an element. *)
Definition nonempty {A} (l : list A) : bool :=
  match l with
  | [] => false
  | _ => true
  end.

(** Channels and samples of a file that holds sound: at least one
    channel, and samples in every channel. *)
Definition audible {A} (m : list (list A)) : bool :=
  nonempty m && forallb nonempty m.

(** The segment size, if there is one, comes to at least one sample at
    the rate [sr]. *)
Definition rate_fits (cfg : ATC.t) (sr : Z) : bool :=
  match ATC.segment_size cfg with
  | Some ms => if ms =? 0 then true else 0 <? ms_to_samples ms sr
  | None => true
  end.

Definition node_fits (cfg : ATC.t) (nd : Node) : bool :=
  match nd with
  | File (FAudio m sr) => audible m && rate_fits cfg sr
  | _ => true
  end.

(** Every audio file holds sound, at a rate that fits the segment
    size. *)
Definition files_fit (cfg : ATC.t) (m : gmap Path Node) : Prop :=
  map_Forall (λ _ nd, node_fits cfg nd = true) m.

Global Instance files_fit_dec cfg m : Decision (files_fit cfg m).
Proof. unfold files_fit. apply _. Defined.







End Auxiliary.

(** ** A concrete instance: integer samples, tensors as lists *)

Module Demo.

Definition externals (order : list string → list string)
    (order_perm : ∀ l, order l ≡ₚ l) : Externals := {|
  Sample := Z;
  Tensor := list Z;
  Label := string;
  str_label := λ l, l;
  AUDIO_EXTENSIONS := [".wav"; ".mp3"; ".flac"];
  scandir_order := order;
  scandir_order_perm := order_perm;
  ms_to_samples := λ ms sr, Z.quot (ms * sr) 1000;
  tfm_resample := λ s _ _, Some s;
  tfm_chop_silence := λ s _ _ _, Some [s];
  PadTrim := λ _ s, Some s;
  MFCC := λ _ _ _ s, Some (sig_elements s);
  MelSpectrogram := λ _ s, Some (sig_elements s);
  SpectrogramToDB := λ _ t, Some t;
  tensor_squeeze := λ t, t;
  tensor_permute := λ t, Some t;
  standardize := λ t, Some t;
  torchdelta := λ t _, Some t;
  tensor_stack3 := λ a b c, Some (a ++ b ++ c);
  tensor_expand3 := λ a, Some (a ++ a ++ a)
|}.

(** A listing in sorted order, and one in the reverse of it. *)
Definition sorted : Externals := externals (λ l, l) (λ l, reflexivity l).
Definition reversed : Externals := externals reverse reverse_Permutation.

Definition data : Path := Path_of_string "data".

(** A directory [data] with one mono file of five samples. *)
Definition fs0 {E : Externals} (samples : list Sample)
    : gmap Path Node :=
  <[Path_of_string "data/a.wav" := File (FAudio [samples] 1000)]>
    (<[data := Dir]> ∅).

Definition w0 : @World sorted := mkWorld (fs0 (E := sorted) [1; 2; 3; 4; 5]) [].

(** [AudioTransformConfig(segment_size=2)], after [__init__] under
    [data]. *)
Definition cfg_seg : ATC.t :=
  ATC.mk false true true (Some (Path_of_string "data/.cache")) false true
    200 80 false (Some 2) 20 None None false SGC.default false 20 false.

(** [AudioTransformConfig()], after [__init__] under [data]. *)
Definition cfg0 : ATC.t :=
  ATC.set_cache_dir (Some (Path_of_string "data/.cache")) ATC.default.

Definition w0r : @World reversed :=
  mkWorld (fs0 (E := reversed) [1; 2; 3; 4; 5]) [].



Definition lab : @Label sorted := "lab"%string.

Definition labr : @Label reversed := "lab"%string.

Definition seg_params : list (@HashParam sorted) :=
  [HPath (PStr "data/a.wav"); HInt 2; HLabel lab].

End Demo.

Definition demo_segment_pairs : list (Path * string) :=
  Eval vm_compute in
    match (pre_op (H := Demo.sorted) OpSegment
             (IPathLike (PStr "a.wav"), "lab"%string)
             Demo.cfg_seg Demo.data Demo.w0).1 with
    | Ok r => r
    | Raise _ => []
    end.

Definition demo_segment_files : list Path :=
  Eval vm_compute in
    match (make_cache (H := Demo.sorted)
             (S1 <$> segment_slices [1; 2; 3; 4; 5; 6] 2) (Some 1000)
             Demo.cfg_seg "s" Demo.seg_params Demo.w0).1 with
    | Ok files => files
    | Raise _ => []
    end.

(** The cache file of [data/a.wav] under [Demo.cfg0] and the list
    rooted at [data]. *)
Definition demo_image_path : Path :=
  Eval vm_compute in
    default Demo.data
      (open_image_path (H := Demo.sorted)
         (AudioList.mk _ [] Demo.data Demo.cfg0)
         (Path_of_string "data/a.wav")).

Definition demo_cached_world : @World Demo.sorted :=
  mkWorld (<[demo_image_path := File (@FTensor Demo.sorted [7; 8; 9])]>
             (fs Demo.w0)) [].

Definition demo_opened_item : @AudioItem.t Demo.sorted :=
  Eval vm_compute in
    match (open (H := Demo.sorted)
             (AudioList.mk Demo.sorted [] Demo.data Demo.cfg0)
             (PStr "a.wav") Demo.w0).1 with
    | Ok it => it
    | Raise _ => AudioItem.mk Demo.sorted None None (PStr "") None None
    end.

(** ** Definitions for the further properties *)

(** A lower-case hexadecimal digit. *)
Definition is_hex (c : ascii) : Prop :=
  c ∈ list_ascii_of_string "0123456789abcdef".

(** A string without path separator. *)
Definition no_slash (s : string) : Prop :=
  Forall (λ c, c ≠ "/"%char) (list_ascii_of_string s).

Section FurtherAuxiliary.
Context `{Externals}.

(** A computation that removes no entry of the file system. *)
Definition keeps_entries {A} (m : M A) : Prop :=
  ∀ w r w', m w = (r, w') → ∀ q, is_Some (fs w !! q) → is_Some (fs w' !! q).

(** A computation that leaves the file system as it is and logs only
    the loading of audio files. *)
Definition only_loads {A} (m : M A) : Prop :=
  ∀ w, fs (m w).2 = fs w
       ∧ ∀ ev, ev ∈ log (m w).2 → ev ∈ log w ∨ ∃ p, ev = EvLoadAudio p.

(** A computation whose results satisfy [P]. *)
Definition returns {A} (P : A → Prop) (m : M A) : Prop :=
  ∀ w r w', m w = (Ok r, w') → P r.

(** The path an operation works on. *)
Definition item_path_in (w : World) (path : Path) (ip0 : PathLike)
    : PathLike :=
  if path_exists w (as_Path ip0) then ip0
  else PPath (path_join path (as_Path ip0)).

(** An item that is a file of the cache directory. *)
Definition cache_item (cd : Path) (it : Item) : Prop :=
  ∃ f, it = IPathLike (PPath f) ∧ path_inside cd f.

End FurtherAuxiliary.

(** ** Further concrete cases *)

Module Cases.

Definition cache : Path := Path_of_string "data/.cache".

(** [AudioTransformConfig(resample_to=8000)], after [__init__] under
    [data]. *)
Definition cfg_rs : ATC.t :=
  ATC.mk false true true (Some cache) false true 200 80 false None 20 None
    (Some 8000) false SGC.default false 20 false.

(** [AudioTransformConfig(remove_silence=True)], after [__init__] under
    [data]. *)
Definition cfg_sh : ATC.t :=
  ATC.mk true true true (Some cache) false true 200 80 false None 20 None
    None false SGC.default false 20 false.

(** [AudioTransformConfig(segment_size=3)], after [__init__] under
    [data]. *)
Definition cfg_seg3 : ATC.t :=
  ATC.mk false true true (Some cache) false true 200 80 false (Some 3) 20
    None None false SGC.default false 20 false.

(** [AudioTransformConfig(cache=False)], after [__init__] under [data]. *)
Definition cfg_nocache : ATC.t :=
  ATC.mk false true false (Some cache) false true 200 80 false None 20 None
    None false SGC.default false 20 false.

(** [AudioTransformConfig()] with [to_db_scale] off, after [__init__]
    under [data]. *)
Definition cfg_linear : ATC.t :=
  ATC.mk false true true (Some cache) false false 200 80 false None 20 None
    None false SGC.default false 20 false.

(** [AudioTransformConfig()], after [__init__] under [/data]. *)
Definition cfg_abs : ATC.t :=
  ATC.set_cache_dir (Some (Path_of_string "/data/.cache")) ATC.default.

(** The file of [Demo.w0] at a sample rate of 100. *)
Definition w_slow : @World Demo.sorted :=
  mkWorld (<[Path_of_string "data/a.wav"
               := File (@FAudio Demo.sorted [[1; 2; 3]] 100)]>
             (<[Demo.data := Dir]> ∅)) [].

(** A file of two channels. *)
Definition stereo : list (list Z) := [[1; 2; 3; 4; 5]; [6; 7; 8; 9; 10]].

Definition w_stereo : @World Demo.sorted :=
  mkWorld (<[Path_of_string "data/a.wav"
               := File (@FAudio Demo.sorted stereo 1000)]>
             (<[Demo.data := Dir]> ∅)) [].

(** Signals with an empty one in the middle. *)
Definition gap_sigs : list (Sig Z) := [S1 [1; 2]; S1 []; S1 [3]].

Definition item_a : PathLike := PStr "a.wav".

Definition file_a : PathLike := PPath (Path_of_string "data/a.wav").

(** Two parameter lists with the same text. *)
Definition params_1_11 : list (@HashParam Demo.sorted) :=
  [HPath file_a; HInt 1; HInt 11].

Definition params_11_1 : list (@HashParam Demo.sorted) :=
  [HPath file_a; HInt 11; HInt 1].

End Cases.

Definition demo_gap_files : list Path :=
  Eval vm_compute in
    match (make_cache (H := Demo.sorted) Cases.gap_sigs (Some 1000)
             Demo.cfg_seg "s" Demo.seg_params Demo.w0).1 with
    | Ok files => files
    | Raise _ => []
    end.

Definition demo_resample_pairs : list (Path * string) :=
  Eval vm_compute in
    match (resample_item (H := Demo.sorted)
             (IPathLike Cases.item_a, Demo.lab) Cases.cfg_rs Demo.data
             Demo.w0).1 with
    | Ok r => r
    | Raise _ => []
    end.

Definition demo_silence_pairs : list (Path * string) :=
  Eval vm_compute in
    match (remove_silence (H := Demo.sorted)
             (IPathLike Cases.item_a, Demo.lab) Cases.cfg_sh Demo.data
             Demo.w0).1 with
    | Ok r => r
    | Raise _ => []
    end.

Definition demo_stereo_pairs : list (Path * string) :=
  Eval vm_compute in
    match (segment_items (H := Demo.sorted)
             (IPathLike Cases.item_a, Demo.lab) Cases.cfg_seg3 Demo.data
             Cases.w_stereo).1 with
    | Ok r => r
    | Raise _ => []
    end.

Definition demo_key_files : list Path :=
  Eval vm_compute in
    match (make_cache (H := Demo.sorted) [S1 [1; 2]] (Some 1000)
             Demo.cfg_seg "sh" Cases.params_1_11 Demo.w0).1 with
    | Ok files => files
    | Raise _ => []
    end.

(** * Properties *)

(** ** The model on known values *)

Example md5_empty : md5 "" = "d41d8cd98f00b204e9800998ecf8427e"%string.
Proof. vm_compute. reflexivity. Qed.

Example md5_abc : md5 "abc" = "900150983cd24fb0d6963f7d28e17f72"%string.
Proof. vm_compute. reflexivity. Qed.

Example md5_message_digest :
  md5 "message digest" = "f96b697d7cb7938d525a2f31aaf161d0"%string.
Proof. vm_compute. reflexivity. Qed.

Example md5_two_blocks :
  md5 "xxxxxxxxxxxxxxxxxxxxxxxxxxxxxxxxxxxxxxxxxxxxxxxxxxxxxxxxxxxxxxxx"
  = "c1bb4f81d892b2d57947682aeb252456"%string.
Proof. vm_compute. reflexivity. Qed.

Example str_asdict_default :
  py_str_dict (ATC.asdict ATC.default)
  = "{'remove_silence': False, 'use_spectro': True, 'cache': True, 'silence_padding': 200, 'top_db': 80, 'segment_size': None, 'silence_threshold': 20, 'max_to_pad': None, 'resample_to': None, 'standardize': False, 'mfcc': False, 'n_mfcc': 20, 'delta': False}".
Proof. vm_compute. reflexivity. Qed.

Example path_examples :
  path_str (path_join (Path_of_string "data") (Path_of_string ".cache")) = "data/.cache"
  ∧ path_str (path_join (Path_of_string ".") (Path_of_string ".cache")) = ".cache"
  ∧ path_str (path_join (Path_of_string "/d") (Path_of_string "/d/.cache")) = "/d/.cache"
  ∧ path_str (Path_of_string "a//b/./c/") = "a/b/c"
  ∧ path_str (Path_of_string ".") = ".".
Proof. vm_compute. done. Qed.

(** ** Strings and paths *)

Lemma list_ascii_of_string_app (s t : string) :
  list_ascii_of_string (s +:+ t)
  = list_ascii_of_string s ++ list_ascii_of_string t.
Proof. induction s as [|c s IH]; simpl; [done|]. by rewrite IH. Qed.

Lemma list_ascii_of_string_inj (s t : string) :
  list_ascii_of_string s = list_ascii_of_string t → s = t.
Proof.
  intros E. rewrite <- (string_of_list_ascii_of_string s),
    <- (string_of_list_ascii_of_string t). by rewrite E.
Qed.

Lemma string_app_inj_r (s1 s2 t : string) : s1 +:+ t = s2 +:+ t → s1 = s2.
Proof.
  intros E. apply list_ascii_of_string_inj.
  apply (f_equal list_ascii_of_string) in E.
  rewrite !list_ascii_of_string_app in E. by apply app_inv_tail in E.
Qed.

Lemma string_app_assoc (s1 s2 s3 : string) :
  (s1 +:+ s2) +:+ s3 = s1 +:+ s2 +:+ s3.
Proof.
  apply list_ascii_of_string_inj.
  by rewrite !list_ascii_of_string_app, <- (assoc_L (++)).
Qed.

Lemma string_app_nil_r (s : string) : s +:+ "" = s.
Proof.
  apply list_ascii_of_string_inj.
  by rewrite list_ascii_of_string_app, app_nil_r.
Qed.

Lemma path_child_inj (d : Path) (n n' : string) :
  path_child d n = path_child d n' → n = n'.
Proof.
  unfold path_child. intros E. injection E as E.
  apply app_inv_head in E. by injection E.
Qed.

Lemma path_parent_child (d : Path) (n : string) :
  path_parent (path_child d n) = d.
Proof.
  destruct d as [a l]. unfold path_parent, path_child. simpl.
  by rewrite removelast_last.
Qed.

Lemma parts_child_ne (d : Path) (n : string) : parts (path_child d n) ≠ [].
Proof. simpl. by destruct (parts d). Qed.

Lemma child_of_parent (k : Path) (n : string) :
  last (parts k) = Some n → path_child (path_parent k) n = k.
Proof.
  destruct k as [a l]. unfold path_child, path_parent. simpl.
  destruct l as [|x l _] using rev_ind; [done|].
  rewrite last_snoc, removelast_last. by intros [= ->].
Qed.

Lemma last_parts_child (d : Path) (n : string) :
  last (parts (path_child d n)) = Some n.
Proof. simpl. by rewrite last_snoc. Qed.

Lemma wav_path_inj (mark : Path) (i j : nat) :
  wav_path mark i = wav_path mark j → i = j.
Proof.
  intros E%path_child_inj. apply string_app_inj_r in E.
  by apply (inj pretty) in E.
Qed.

(** ** The file system *)

Lemma NoDup_omap_inj {A B} (f : A → option B) (l : list A) :
  NoDup l →
  (∀ x y z, x ∈ l → y ∈ l → f x = Some z → f y = Some z → x = y) →
  NoDup (omap f l).
Proof.
  induction 1 as [|x l Hx Hl IH]; intros Hinj; simpl; [constructor|].
  destruct (f x) as [z|] eqn:Hfx.
  - constructor.
    + rewrite list_elem_of_omap. intros (y & Hy & Hfy).
      assert (x = y) as -> by (eapply Hinj; eauto; set_solver).
      done.
    + apply IH. intros ??? ????. eapply Hinj; eauto; set_solver.
  - apply IH. intros ??? ????. eapply Hinj; eauto; set_solver.
Qed.

Section FileSystemFacts.
Context `{Externals}.

Lemma node_at_child (m : gmap Path Node) (d : Path) (n : string) :
  node_at m (path_child d n) = m !! path_child d n.
Proof.
  unfold node_at. pose proof (parts_child_ne d n).
  by destruct (parts (path_child d n)).
Qed.

Lemma node_at_lookup (m : gmap Path Node) (p : Path) (c : FileData) :
  node_at m p = Some (File c) → m !! p = Some (File c).
Proof. unfold node_at. by destruct (parts p). Qed.

Lemma file_name_of_entry (d : Path) (k : Path) (nd : Node) (n : string) :
  file_name_in d (k, nd) = Some n ↔ k = path_child d n ∧ ∃ c, nd = File c.
Proof.
  unfold file_name_in, is_file_in. simpl. split.
  - destruct nd as [|c]; [done|].
    destruct (parts k) eqn:Hk; [done|]. case_bool_decide; [|done].
    rewrite <- Hk. intros Hl. subst d.
    split; [by rewrite child_of_parent|eauto].
  - intros [-> [c ->]]. pose proof (parts_child_ne d n).
    destruct (parts (path_child d n)) eqn:Hk; [done|].
    rewrite bool_decide_true by apply path_parent_child.
    rewrite <- Hk. apply last_parts_child.
Qed.

Lemma elem_of_file_names (m : gmap Path Node) (d : Path) (n : string) :
  n ∈ file_names m d ↔ ∃ c, m !! path_child d n = Some (File c).
Proof.
  unfold file_names. rewrite merge_sort_Permutation, list_elem_of_omap.
  split.
  - intros ([k nd] & Hin & Hf). apply elem_of_map_to_list in Hin.
    apply file_name_of_entry in Hf as [-> [c ->]]. eauto.
  - intros [c Hc]. exists (path_child d n, File c).
    split; [by apply elem_of_map_to_list|].
    apply file_name_of_entry. eauto.
Qed.

Lemma NoDup_file_names (m : gmap Path Node) (d : Path) :
  NoDup (file_names m d).
Proof.
  unfold file_names. rewrite merge_sort_Permutation.
  apply NoDup_omap_inj; [apply NoDup_map_to_list|].
  intros [k nd] [k' nd'] n Hin Hin' Hf Hf'.
  apply elem_of_map_to_list in Hin, Hin'.
  apply file_name_of_entry in Hf as [-> _], Hf' as [-> _].
  simplify_eq. done.
Qed.

Lemma file_names_ext (m m' : gmap Path Node) (d : Path) :
  (∀ n, (∃ c, m !! path_child d n = Some (File c))
        ↔ (∃ c, m' !! path_child d n = Some (File c))) →
  file_names m d = file_names m' d.
Proof.
  intros Hext. apply (Sorted_unique String.le).
  - apply (Sorted_merge_sort _).
  - apply (Sorted_merge_sort _).
  - apply NoDup_Permutation; [apply NoDup_file_names..|].
    intros n. by rewrite !elem_of_file_names.
Qed.

Lemma get_files_ok (d : Path) (w : World) :
  node_at (fs w) d = Some Dir →
  ∃ l, get_files d w = (Ok l, w) ∧ NoDup l
       ∧ ∀ q, q ∈ l ↔ visible_file (fs w) d q.
Proof.
  intros Hd. unfold get_files. rewrite Hd. eexists. split; [done|]. split.
  - apply NoDup_fmap_2.
    + intros n n'. apply path_child_inj.
    + apply NoDup_filter. rewrite scandir_order_perm.
      apply NoDup_file_names.
  - intros q. rewrite list_elem_of_fmap. unfold visible_file. split.
    + intros (n & -> & Hn). apply list_elem_of_filter in Hn as [Hv Hn].
      rewrite scandir_order_perm in Hn.
      apply elem_of_file_names in Hn as [c Hc]. eauto.
    + intros (n & c & -> & Hv & Hc). exists n. split; [done|].
      apply list_elem_of_filter. split; [done|].
      rewrite scandir_order_perm. apply elem_of_file_names. eauto.
Qed.

Lemma get_files_fs (d : Path) (w1 w2 : World) :
  node_at (fs w1) d = Some Dir → node_at (fs w2) d = Some Dir →
  (∀ n, (∃ c, fs w1 !! path_child d n = Some (File c))
        ↔ (∃ c, fs w2 !! path_child d n = Some (File c))) →
  (get_files d w1).1 = (get_files d w2).1.
Proof.
  intros H1 H2 Hext. unfold get_files. rewrite H1, H2. simpl.
  by rewrite (file_names_ext _ _ _ Hext).
Qed.

End FileSystemFacts.

(** ** Directories and writes *)

Ltac munfold :=
  unfold mbind, mret, M_bind, M_ret, bind, ret, raise, lib in *.

Section Writes.
Context `{Externals}.

Lemma snoc_app {A} (above : list A) (x : A) (todo : list A) :
  (above ++ [x]) ++ todo = above ++ x :: todo.
Proof. by rewrite <- (assoc_L (++)). Qed.

Lemma makedirs_go_mono a above todo (m m' : gmap Path Node) b :
  makedirs_go a above todo m = (b, m') →
  ∀ q nd, m !! q = Some nd → m' !! q = Some nd.
Proof.
  revert above m. induction todo as [|x todo IH]; intros above m Hgo q nd Hq;
    simpl in Hgo.
  - by simplify_eq.
  - destruct (m !! _) as [[|c]|] eqn:Hd.
    + eauto.
    + by simplify_eq.
    + eapply IH; [done|]. rewrite lookup_insert_ne; [done|]. congruence.
Qed.

(** An entry that [makedirs] adds is a directory on the way down. *)
Lemma makedirs_go_new a above todo (m m' : gmap Path Node) b :
  makedirs_go a above todo m = (b, m') →
  ∀ q, m' !! q = m !! q
       ∨ (m !! q = None ∧ m' !! q = Some Dir ∧ absolute q = a
          ∧ parts q `prefix_of` above ++ todo).
Proof.
  revert above m. induction todo as [|x todo IH]; intros above m Hgo q;
    simpl in Hgo.
  - simplify_eq. by left.
  - destruct (m !! _) as [[|c]|] eqn:Hd.
    + destruct (IH _ _ Hgo q) as [?|(?&?&?&Hp)]; [by left|right].
      by rewrite snoc_app in Hp.
    + simplify_eq. by left.
    + destruct (decide (q = mkPath a (above ++ [x]))) as [->|Hne].
      * right. split; [done|]. split.
        { eapply makedirs_go_mono; [done|]. by rewrite lookup_insert_eq. }
        split; [done|]. simpl. rewrite <- (snoc_app above x todo).
        by exists todo.
      * destruct (IH _ _ Hgo q) as [Heq|(Hn&?&?&Hp)].
        { left. by rewrite Heq, lookup_insert_ne. }
        right. rewrite lookup_insert_ne in Hn by done.
        by rewrite snoc_app in Hp.
Qed.

Lemma makedirs_go_dirs a above todo (m m' : gmap Path Node) :
  makedirs_go a above todo m = (true, m') →
  ∀ k, (0 < k ≤ length todo)%nat →
       m' !! mkPath a (above ++ take k todo) = Some Dir.
Proof.
  revert above m. induction todo as [|x todo IH]; intros above m Hgo k Hk;
    simpl in *; [lia|].
  assert (m' !! mkPath a (above ++ [x]) = Some Dir) as Hx.
  { destruct (m !! _) as [[|c]|] eqn:Hd; [| done |].
    - by eapply makedirs_go_mono.
    - eapply makedirs_go_mono; [done|]. by rewrite lookup_insert_eq. }
  destruct k as [|k]; [lia|]. simpl.
  destruct k as [|k]; [by rewrite take_0|].
  rewrite <- (snoc_app above x (take (S k) todo)).
  destruct (m !! _) as [[|c]|] eqn:Hd; [| done |];
    (eapply IH; [done|lia]).
Qed.

Lemma makedirs_go_present a above todo (m : gmap Path Node) :
  (∀ k, (0 < k ≤ length todo)%nat →
        m !! mkPath a (above ++ take k todo) = Some Dir) →
  makedirs_go a above todo m = (true, m).
Proof.
  revert above. induction todo as [|x todo IH]; intros above Hd; simpl;
    [done|].
  pose proof (Hd 1%nat ltac:(simpl; lia)) as H1. simpl in H1.
  rewrite take_0 in H1. rewrite H1. apply IH. intros k Hk.
  rewrite snoc_app. apply (Hd (S k)). simpl. lia.
Qed.

Lemma makedirs_ok (p : Path) (w w' : World) :
  makedirs p w = (Ok tt, w') →
  log w' = EvMakedirs p :: log w
  ∧ (parts p ≠ [] → fs w' !! p = Some Dir)
  ∧ (∀ q nd, fs w !! q = Some nd → fs w' !! q = Some nd)
  ∧ (∀ q c, fs w' !! q = Some (File c) → fs w !! q = Some (File c))
  ∧ (∀ k, (0 < k ≤ length (parts p))%nat →
          fs w' !! mkPath (absolute p) (take k (parts p)) = Some Dir).
Proof.
  unfold makedirs.
  destruct (makedirs_go _ _ _ _) as [b m'] eqn:Hgo. simpl.
  destruct b; [|done]. intros [= <-]. simpl.
  pose proof (makedirs_go_dirs _ _ _ _ _ Hgo) as Hdirs. simpl in Hdirs.
  split; [done|]. split; [|split; [|split]].
  - intros Hne. destruct p as [a l]. simpl in *.
    pose proof (Hdirs (length l)) as Hl. rewrite firstn_all in Hl.
    apply Hl. destruct l; [done|simpl; lia].
  - eapply makedirs_go_mono; eauto.
  - intros q c Hq.
    destruct (makedirs_go_new _ _ _ _ _ _ Hgo q) as [<-|(?&?&?)];
      [done|congruence].
  - done.
Qed.

Lemma write_file_ok (p : Path) (d : FileData) (w w' : World) :
  write_file p d w = (Ok tt, w') →
  w' = mkWorld (<[p := File d]> (fs w)) (log w)
  ∧ node_at (fs w) (path_parent p) = Some Dir
  ∧ node_at (fs w) p ≠ Some Dir.
Proof.
  unfold write_file. intros Hw.
  destruct (node_at (fs w) (path_parent p)) as [[|?]|]; [|done..].
  destruct (node_at (fs w) p) as [[|?]|]; by simplify_eq.
Qed.

Lemma torchaudio_save_ok fn s sr (w w' : World) :
  torchaudio_save fn s sr w = (Ok tt, w') →
  ∃ r, sr = Some r
       ∧ fs w' = <[fn := File (FAudio (sig_data s) r)]> (fs w)
       ∧ log w' = EvSaveAudio fn :: log w
       ∧ node_at (fs w) (path_parent fn) = Some Dir
       ∧ node_at (fs w) fn ≠ Some Dir.
Proof.
  unfold torchaudio_save. intros Hs.
  destruct sr as [r|]; [|done]. exists r. split; [done|].
  destruct s as [x|l|m]; [done| |];
    apply write_file_ok in Hs as (-> & ? & ?); done.
Qed.

Lemma elem_of_kept i sigs j s :
  (j, s) ∈ kept i sigs →
  (i ≤ j)%nat ∧ sigs !! (j - i)%nat = Some s
  ∧ ∃ n, sig_len s = Some n ∧ 1 ≤ n.
Proof.
  revert i. induction sigs as [|s0 sigs IH]; intros i; simpl; [set_solver|].
  assert ((j, s) ∈ kept (S i) sigs →
          (i ≤ j)%nat ∧ (s0 :: sigs) !! (j - i)%nat = Some s
          ∧ ∃ n, sig_len s = Some n ∧ 1 ≤ n) as Hrec.
  { intros (? & Hl & ?)%IH. split; [lia|]. split; [|done].
    by replace (j - i)%nat with (S (j - S i)) by lia. }
  destruct (sig_len s0) as [n|] eqn:Hn; [|done].
  destruct (n <? 1) eqn:Hlt; [done|].
  intros [[= -> ->]|?]%elem_of_cons; [|auto].
  split; [lia|]. rewrite Nat.sub_diag. split; [done|].
  exists n. split; [done|lia].
Qed.

Lemma elem_of_kept_files mark i sigs q :
  q ∈ kept_files mark i sigs → ∃ j s, q = wav_path mark j ∧ (j, s) ∈ kept i sigs.
Proof.
  unfold kept_files. rewrite list_elem_of_fmap. intros ([j s] & -> & ?). eauto.
Qed.

Lemma wav_path_not_kept mark i sigs :
  wav_path mark i ∉ kept_files mark (S i) sigs.
Proof.
  intros (j & s & Heq%wav_path_inj & Hin%elem_of_kept)%elem_of_kept_files.
  lia.
Qed.

Lemma save_sigs_ok mark sr i sigs (w w' : World) files :
  save_sigs mark sr i sigs w = (Ok files, w') →
  files = kept_files mark i sigs
  ∧ (∀ q, q ∉ files → fs w' !! q = fs w !! q)
  ∧ (∀ j s, (j, s) ∈ kept i sigs →
       ∃ r, sr = Some r
            ∧ fs w' !! wav_path mark j = Some (File (FAudio (sig_data s) r)))
  ∧ (∀ q, q ∈ files → node_at (fs w) q ≠ Some Dir)
  ∧ (∀ e, e ∈ log w' → e ∈ log w ∨ ∃ q, e = EvSaveAudio q ∧ q ∈ files).
Proof.
  revert i w files. induction sigs as [|s sigs IH]; intros i w files Hs;
    simpl in Hs.
  - munfold. simplify_eq. unfold kept_files. simpl.
    repeat split; try done; set_solver.
  - unfold kept_files. simpl. destruct (sig_len s) as [n|] eqn:Hn; [|done].
    destruct (n <? 1) eqn:Hlt; [by apply IH|].
    munfold.
    destruct (torchaudio_save _ s sr w) as [[[]|e] w1] eqn:Hsave; [|done].
    destruct (save_sigs mark sr (S i) sigs w1) as [[fl|e] w2] eqn:Hrest;
      [|done].
    simplify_eq.
    apply torchaudio_save_ok in Hsave as (r & -> & Hfs & Hlog & Hpar & Hnd).
    apply IH in Hrest as (-> & Hframe & Hkept & Hdirs & Hlogs).
    fold (wav_path mark i) in *.
    pose proof (wav_path_not_kept mark i sigs) as Hfresh.
    split; [done|]. split; [|split; [|split]].
    + intros q Hq. apply not_elem_of_cons in Hq as [Hq1 Hq2].
      rewrite (Hframe q Hq2), Hfs. by rewrite lookup_insert_ne.
    + intros j s' [[= -> ->]|Hin]%elem_of_cons.
      * exists r. split; [done|].
        rewrite (Hframe _ Hfresh), Hfs. by rewrite lookup_insert_eq.
      * by apply Hkept.
    + intros q [->|Hq]%elem_of_cons; [done|].
      specialize (Hdirs q Hq). intros Hd. apply Hdirs.
      destruct (elem_of_kept_files _ _ _ _ Hq) as (j & s' & -> & Hj).
      unfold wav_path in *. rewrite node_at_child in *.
      rewrite Hfs. rewrite lookup_insert_ne; [done|].
      intros Heq. apply Hfresh. fold (wav_path mark i) in Heq.
      unfold wav_path at 1 in Heq. rewrite Heq.
      unfold kept_files. apply list_elem_of_fmap. by exists (j, s').
    + intros e He. destruct (Hlogs e He) as [Hin|(q & -> & Hq)].
      * rewrite Hlog in Hin. apply elem_of_cons in Hin as [->|Hin];
          [|by left].
        right. eexists. split; [done|]. by left.
      * right. exists q. split; [done|]. by right.
Qed.

End Writes.

(** ** Label preservation *)

Section Labels.
Context `{Externals}.

Lemma zip_label_fmap (files : list Path) (label : Label) :
  zip_label files label = (λ f, (f, label)) <$> files.
Proof.
  unfold zip_label. induction files as [|f files IH]; simpl; [done|].
  by rewrite IH.
Qed.

Lemma zip_label_labels (files : list Path) (label : Label) :
  Forall (λ fl, fl.2 = label) (zip_label files label).
Proof. rewrite zip_label_fmap. by apply Forall_fmap, Forall_true. Qed.

(** C9: every pair returned by [resample_item], [remove_silence] and
    [segment_items] carries the label of the item it was given. *)
Theorem C9_label_preserved (o : PreOp) (item : Item) (label : Label)
    (config : ATC.t) (path : Path) (w : World) (r : list (Path * Label)) :
  (pre_op o (item, label) config path w).1 = Ok r →
  Forall (λ fl, fl.2 = label) r.
Proof.
  destruct o; simpl; unfold resample_item, remove_silence, segment_items;
    munfold; intros Hr;
    repeat match type of Hr with
           | context [match ?x with _ => _ end] => destruct x eqn:?
           end;
    simplify_eq/=; apply zip_label_labels.
Qed.

End Labels.

Lemma C9_witness :
  length demo_segment_pairs = 3%nat ∧ Forall (λ fl, fl.2 = "lab"%string) demo_segment_pairs.
Proof.
  split; [reflexivity|].
  apply (C9_label_preserved (H := Demo.sorted) OpSegment
           (IPathLike (PStr "a.wav")) "lab"%string Demo.cfg_seg Demo.data
           Demo.w0 demo_segment_pairs).
  vm_compute. reflexivity.
Defined.

(** ** Dispatch of [AudioList.get] *)

Section Get.
Context `{Externals}.

(** C7: [get] returns an [AudioItem] unchanged, opens [self.path/item]
    for a path or a string, and refuses any other item with "Can't
    handle that type". *)
Theorem C7_get_dispatch (self : AudioList.t) (i : Z) (item : Item)
    (w : World) :
  py_getitem (AudioList.items self) i = Some item →
  get self i w
  = match item with
    | IAudio a => (Ok a, w)
    | IPathLike p =>
        open self (PPath (path_join (AudioList.path self) (as_Path p))) w
    | IOther => (Raise (Exception "Can't handle that type"), w)
    end.
Proof. intros Hi. unfold get. rewrite Hi. by destruct item. Qed.

End Get.

Lemma C7_witness :
  get (H := Demo.sorted)
    (AudioList.mk _ [IOther; IPathLike (PStr "a.wav")] Demo.data Demo.cfg0)
    (-2) Demo.w0
  = (Raise (Exception "Can't handle that type"), Demo.w0).
Proof.
  apply (C7_get_dispatch (H := Demo.sorted)
           (AudioList.mk _ [IOther; IPathLike (PStr "a.wav")] Demo.data
              Demo.cfg0) (-2) IOther Demo.w0).
  reflexivity.
Defined.

(** ** Segmentation *)

Section Slices.
Context {A : Type}.
Implicit Types l : list A.

Lemma py_slice_in_range l (a b : Z) :
  0 ≤ a → a ≤ b → b ≤ Z.of_nat (length l) →
  py_slice l a b = take (Z.to_nat b - Z.to_nat a) (drop (Z.to_nat a) l).
Proof.
  intros Ha Hab Hb. unfold py_slice, py_index_norm.
  destruct (a <? 0) eqn:Ea; [lia|]. destruct (b <? 0) eqn:Eb; [lia|].
  rewrite !Z.min_l by lia. f_equal. lia.
Qed.

(** Chunks of [n] elements followed by what is left. *)
Lemma chunks_concat l (n k : nat) :
  (k * n ≤ length l)%nat →
  concat ((λ i, take n (drop (i * n) l)) <$> seq 0 k) ++ drop (k * n) l = l.
Proof.
  induction k as [|k IH]; intros Hk; [done|].
  rewrite seq_S, fmap_app, concat_app. simpl.
  rewrite app_nil_r, <- (assoc_L (++)).
  replace (drop (n + k * n) l) with (drop n (drop (k * n) l))
    by (rewrite drop_drop; f_equal; lia).
  rewrite take_drop. apply IH. lia.
Qed.

Lemma segment_slices_eq l (segsize : Z) :
  0 < segsize →
  let n := Z.to_nat segsize in
  let k := (length l / n)%nat in
  segment_slices l segsize
  = ((λ i, take n (drop (i * n) l)) <$> seq 0 k) ++ [drop (k * n) l].
Proof.
  intros Hs n k. unfold segment_slices.
  assert (n ≠ 0)%nat as Hn by lia.
  assert (Z.of_nat (length l) `div` segsize = Z.of_nat k) as Hk.
  { unfold k. rewrite Nat2Z.inj_div. f_equal. lia. }
  assert (k * n ≤ length l)%nat as Hle.
  { unfold k. rewrite Nat.mul_comm. by apply Nat.Div0.mul_div_le. }
  assert (length l < (k + 1) * n)%nat as Hlt.
  { unfold k. pose proof (Nat.div_mod_eq (length l) n).
    pose proof (Nat.mod_upper_bound (length l) n Hn). lia. }
  rewrite Hk. unfold seqZ.
  replace (Z.to_nat (Z.of_nat k + 1)) with (S k) by lia.
  rewrite seq_S, !fmap_app, <- !list_fmap_compose. simpl. f_equal.
  - apply list_fmap_ext. intros j i Hi. simpl.
    apply lookup_seq in Hi as [-> Hi]. simpl.
    rewrite Z.min_l by nia. rewrite py_slice_in_range by nia.
    f_equal; [|f_equal]; nia.
  - f_equal. rewrite Z.min_r by nia. rewrite py_slice_in_range by nia.
    replace (Z.to_nat ((Z.of_nat k + 0) * segsize)) with (k * n)%nat by nia.
    apply take_ge. rewrite length_drop. lia.
Qed.

Lemma segment_slices_concat l (segsize : Z) :
  0 < segsize → concat (segment_slices l segsize) = l.
Proof.
  intros Hs. rewrite segment_slices_eq by done. rewrite concat_app. simpl.
  rewrite app_nil_r. apply chunks_concat.
  rewrite Nat.mul_comm. apply Nat.Div0.mul_div_le.
Qed.

End Slices.

Section MakeCache.
Context `{Externals}.

Lemma make_cache_ok sigs sr config ct hp (w w' : World) files :
  make_cache sigs sr config ct hp w = (Ok files, w') →
  ∃ cd, ATC.cache_dir config = Some cd
    ∧ files = kept_files (mark_path cd ct hp) 0 sigs
    ∧ (sigs = [] → w' = w)
    ∧ (sigs ≠ [] →
         ∃ w1, makedirs (mark_path cd ct hp) w = (Ok tt, w1)
               ∧ save_sigs (mark_path cd ct hp) sr 0 sigs w1 = (Ok files, w')).
Proof.
  unfold make_cache. destruct (ATC.cache_dir config) as [cd|]; [|done].
  intros Hm. exists cd. split; [done|].
  destruct sigs as [|s sigs].
  - simpl in Hm. munfold. simplify_eq. done.
  - replace (0 <? Z.of_nat (length (s :: sigs))) with true in Hm
      by (symmetry; apply Z.ltb_lt; simpl; lia).
    munfold.
    destruct (makedirs _ w) as [[[]|e] w1] eqn:Hmk; [|done].
    split; [by apply save_sigs_ok in Hm as [? _]|].
    split; [done|]. intros _. by exists w1.
Qed.

(** Existing entries survive [make_cache]; what it adds are the
    directories down to the cache directory and the wav files in it. *)
Lemma make_cache_frame sigs sr config ct hp (w w' : World) files :
  make_cache sigs sr config ct hp w = (Ok files, w') →
  (∀ q, q ∉ files → ∀ nd, fs w !! q = Some nd → fs w' !! q = Some nd)
  ∧ (∀ q c, q ∉ files → fs w' !! q = Some (File c) →
            fs w !! q = Some (File c))
  ∧ (∀ q, q ∈ files → fs w !! q ≠ Some Dir).
Proof.
  intros Hm. destruct (make_cache_ok _ _ _ _ _ _ _ _ Hm)
    as (cd & Hcd & Hfiles & Hnil & Hcons).
  destruct (decide (sigs = [])) as [->|Hne].
  { rewrite (Hnil eq_refl). subst files. unfold kept_files. simpl.
    repeat split; try done. set_solver. }
  destruct (Hcons Hne) as (w1 & Hmk & Hsave).
  apply makedirs_ok in Hmk as (_ & _ & Hmono & Hfile & _).
  apply save_sigs_ok in Hsave as (_ & Hframe & _ & Hdir & _).
  split; [|split].
  - intros q Hq nd Hnd. rewrite (Hframe q Hq). by apply Hmono.
  - intros q c Hq Hc. rewrite (Hframe q Hq) in Hc. by apply Hfile.
  - intros q Hq Hd. apply (Hdir q Hq).
    destruct (elem_of_kept_files _ _ _ _ (eq_ind _ (λ f, q ∈ f) Hq _ Hfiles))
      as (j & s & -> & _).
    unfold wav_path. rewrite node_at_child. by apply Hmono.
Qed.

End MakeCache.

Section Segmentation.
Context `{Externals}.

Lemma segments_S1 (sig : list Sample) (segsize : Z) (w : World) :
  0 < segsize →
  segments (S1 sig) segsize w = (Ok (S1 <$> segment_slices sig segsize), w).
Proof.
  intros Hs. unfold segments. simpl.
  destruct (segsize =? 0) eqn:E; [lia|]. munfold. f_equal. f_equal.
  unfold segment_slices. rewrite Z.quot_div_nonneg by lia.
  rewrite <- list_fmap_compose.
  induction (seqZ 0 _) as [|i l IH]; [done|].
  simpl. by f_equal.
Qed.

Lemma length_lt_1 {A} (l : list A) :
  (Z.of_nat (length l) <? 1) = true ↔ l = [].
Proof.
  rewrite Z.ltb_lt. destruct l; simpl; [done|]. split; [lia|done].
Qed.

Lemma kept_S1_contents (i : nat) (ls : list (list Sample)) :
  concat ((λ js, sig_elements js.2) <$> kept i (S1 <$> ls)) = concat ls.
Proof.
  revert i. induction ls as [|l ls IH]; intros i; simpl; [done|].
  destruct (Z.of_nat (length l) <? 1) eqn:E.
  - rewrite IH. by apply length_lt_1 in E as ->.
  - simpl. by rewrite IH.
Qed.

Lemma kept_S1_nonempty (i j : nat) (ls : list (list Sample)) s :
  (j, s) ∈ kept i (S1 <$> ls) → ∃ l, s = S1 l ∧ l ≠ [] ∧ l ∈ ls.
Proof.
  intros (_ & Hl & n & Hn & Hpos)%elem_of_kept.
  apply list_lookup_fmap_Some in Hl as (l & -> & Hl).
  exists l. split; [done|]. split.
  - intros ->. simpl in Hn. simplify_eq. lia.
  - by eapply list_elem_of_lookup_2.
Qed.

(** C10: the slices of [segment_items] on a non-empty one-dimensional
    signal concatenate back to the signal, and [make_cache] writes
    exactly the non-empty ones: every cached segment file is non-empty,
    and in order they still make up the signal. *)
Theorem C10_segmentation_lossless (sig : list Sample) (segsize sr : Z)
    (config : ATC.t) (hash_params : list HashParam) (w : World)
    (files : list Path) :
  sig ≠ [] → 0 < segsize →
  let sigs := S1 <$> segment_slices sig segsize in
  let run := make_cache sigs (Some sr) config "s" hash_params w in
  run.1 = Ok files →
  (segments (S1 sig) segsize w).1 = Ok sigs
  ∧ concat (sig_elements <$> sigs) = sig
  ∧ length files = length (filter (λ l, l ≠ []) (segment_slices sig segsize))
  ∧ ∃ contents,
      Forall2 (λ fn l, l ≠ [] ∧ l ∈ segment_slices sig segsize
                       ∧ fs run.2 !! fn = Some (File (FAudio [l] sr)))
        files contents
      ∧ concat contents = sig.
Proof.
  intros Hsig Hs sigs run Hrun.
  split; [by rewrite segments_S1|]. split.
  { unfold sigs. rewrite <- list_fmap_compose.
    rewrite <- (segment_slices_concat sig segsize Hs) at 2.
    f_equal. clear. induction (segment_slices sig segsize) as [|l ls IH];
      [done|]. csimpl. by rewrite IH. }
  destruct run as [r w'] eqn:Hr. simpl in Hrun. subst r. unfold run in Hr.
  destruct (make_cache_ok _ _ _ _ _ _ _ _ Hr)
    as (cd & Hcd & Hfiles & _ & Hcons).
  assert (sigs ≠ []) as Hne.
  { unfold sigs. rewrite segment_slices_eq by done.
    rewrite fmap_app. by intros [_ ?]%app_eq_nil. }
  destruct (Hcons Hne) as (w1 & _ & Hsave).
  apply save_sigs_ok in Hsave as (_ & _ & Hkept & _ & _).
  split.
  { rewrite Hfiles. unfold kept_files, sigs. rewrite length_fmap.
    clear. generalize 0%nat.
    induction (segment_slices sig segsize) as [|l ls IH]; intros i;
      simpl; [done|].
    destruct (Z.of_nat (length l) <? 1) eqn:E.
    - rewrite IH. apply length_lt_1 in E as ->.
      by rewrite filter_cons_False by (by intros ?).
    - simpl. rewrite IH. rewrite filter_cons_True; [done|].
      intros ->. by rewrite (proj2 (length_lt_1 [])) in E. }
  exists ((λ js, sig_elements js.2) <$> kept 0 sigs). split.
  - rewrite Hfiles. unfold kept_files.
    apply Forall2_fmap, Forall_Forall2_diag, Forall_forall.
    intros [j s] Hjs. simpl.
    destruct (kept_S1_nonempty _ _ _ _ Hjs) as (l & -> & Hl & Hin).
    destruct (Hkept j (S1 l) Hjs) as (r & [= <-] & Hfs). simpl. done.
  - unfold sigs. rewrite kept_S1_contents.
    by apply segment_slices_concat.
Qed.

End Segmentation.

Lemma C10_witness :
  let sig : list Z := [1; 2; 3; 4; 5; 6] in
  let sigs := S1 <$> segment_slices sig 2 in
  let run := make_cache (H := Demo.sorted) sigs (Some 1000) Demo.cfg_seg "s"
               Demo.seg_params Demo.w0 in
  length (segment_slices sig 2) = 4%nat
  ∧ (segments (H := Demo.sorted) (S1 sig) 2 Demo.w0).1 = Ok sigs
  ∧ concat (sig_elements <$> sigs) = sig
  ∧ length demo_segment_files
    = length (filter (λ l, l ≠ []) (segment_slices sig 2))
  ∧ ∃ contents,
      Forall2 (λ fn l, l ≠ [] ∧ l ∈ segment_slices sig 2
                       ∧ fs run.2 !! fn = Some (File (FAudio [l] 1000)))
        demo_segment_files contents
      ∧ concat contents = sig.
Proof.
  intros sig sigs run. split; [reflexivity|].
  apply (C10_segmentation_lossless (H := Demo.sorted) sig 2 1000
           Demo.cfg_seg Demo.seg_params Demo.w0 demo_segment_files).
  - done.
  - lia.
  - vm_compute. reflexivity.
Defined.

(** ** [AudioList.open]: resolution, errors and the cached spectrogram *)

Section Open.
Context `{Externals}.

Lemma open_resolve_eq (self : AudioList.t) (item : PathLike) (w : World) :
  ∃ msg,
    open_resolve self item w
    = (match resolved self item w with
       | Some p => Ok p
       | None => Raise (FileNotFoundError msg)
       end, w).
Proof.
  unfold open_resolve, resolved, exists_. munfold.
  eexists. destruct (path_exists w (as_Path item)); [done|].
  by destruct (path_exists w (path_join _ _)).
Qed.















(** [open], by cases on the path and its extension. *)
Lemma open_cases (self : AudioList.t) (item : PathLike) (w : World) :
  match resolved self item w with
  | None => ∃ msg, open self item w = (Raise (FileNotFoundError msg), w)
  | Some p =>
      if endswith_any (lower (path_str p)) AUDIO_EXTENSIONS
      then open self item w = open_load self item p w
      else open self item w = (Raise (Exception "Invalid audio file"), w)
  end.
Proof.
  unfold open. destruct (open_resolve_eq self item w) as [msg Hr]. munfold.
  rewrite Hr. destruct (resolved self item w) as [p|]; [|by exists msg].
  by destruct (endswith_any _ _).
Qed.


End Open.


Section OpenCached.
Context `{Externals}.

(** C8: with [use_spectro] and [cache] on, [force_cache] off and the
    spectrogram file of the item in the cache, [open] returns an item
    that holds the cached spectrogram (standardized if [standardize] is
    set) and neither signal nor sample rate; the only file it reads is
    the cache file, and nothing is written. *)
Theorem C8_cached_spectrogram (self : AudioList.t) (item : PathLike)
    (w : World) (p ip : Path) (t mel : Tensor) :
  let cfg := AudioList.config self in
  resolved self item w = Some p →
  endswith_any (lower (path_str p)) AUDIO_EXTENSIONS = true →
  ATC.use_spectro cfg = true →
  ATC.cache cfg = true →
  ATC.force_cache cfg = false →
  open_image_path self p = Some ip →
  node_at (fs w) ip = Some (File (FTensor t)) →
  (if ATC.standardize cfg then standardize (tensor_squeeze t)
   else Some (tensor_squeeze t)) = Some mel →
  (open self item w).1
  = Ok (AudioItem.mk _ None None item (Some mel) (ATC.max_to_pad cfg))
  ∧ fs (open self item w).2 = fs w
  ∧ log (open self item w).2 = EvLoadTensor ip :: log w.
Proof.
  intros cfg Hp Hext Hus Hc Hf Hip Ht Hmel.
  pose proof (open_cases self item w) as Hcases.
  rewrite Hp, Hext in Hcases. rewrite Hcases.
  unfold open_load, open_cached. fold cfg. rewrite Hus, Hip, Hc, Hf.
  munfold. unfold exists_, path_exists, torch_load. simpl.
  rewrite bool_decide_true by (rewrite Ht; eauto). simpl. rewrite Ht.
  destruct (ATC.standardize cfg); simpl.
  - rewrite Hmel. done.
  - by simplify_eq.
Qed.

End OpenCached.

Lemma C8_witness :
  let self := AudioList.mk Demo.sorted [] Demo.data Demo.cfg0 in
  (open self (PStr "a.wav") demo_cached_world).1
  = Ok (AudioItem.mk Demo.sorted None None (PStr "a.wav")
          (Some [7; 8; 9]) None)
  ∧ fs (open self (PStr "a.wav") demo_cached_world).2 = fs demo_cached_world
  ∧ log (open self (PStr "a.wav") demo_cached_world).2
    = [EvLoadTensor demo_image_path].
Proof.
  apply (C8_cached_spectrogram (H := Demo.sorted)
           (AudioList.mk _ [] Demo.data Demo.cfg0) (PStr "a.wav") demo_cached_world
           (Path_of_string "data/a.wav") demo_image_path [7; 8; 9] [7; 8; 9]);
    vm_compute; reflexivity.
Defined.

(** ** Decimal numerals *)

Lemma pretty_N_char_digit (x : N) : is_digit (pretty_N_char x).
Proof. unfold pretty_N_char, is_digit. repeat case_match; simpl; eauto. Qed.

Lemma pretty_N_go_digits (x : N) (s : string) :
  ∃ ds, pretty_N_go x s = ds +:+ s ∧ digits ds ∧ ((0 < x)%N → ds ≠ "").
Proof.
  revert s. induction (N.lt_wf_0 x) as [x _ IH]. intros s.
  destruct (decide (0 < x)%N) as [Hx|Hx].
  - rewrite pretty_N_go_step by done.
    destruct (IH (x `div` 10)%N (N.div_lt x 10 Hx eq_refl)
                (String (pretty_N_char (x `mod` 10)) s)) as (ds & -> & Hds & _).
    exists (ds +:+ String (pretty_N_char (x `mod` 10)) "").
    split; [|split].
    + by rewrite string_app_assoc.
    + unfold digits. rewrite list_ascii_of_string_app.
      apply Forall_app. split; [done|]. repeat constructor.
      apply pretty_N_char_digit.
    + intros _ Heq. apply (f_equal list_ascii_of_string) in Heq.
      rewrite list_ascii_of_string_app in Heq.
      by apply app_eq_nil in Heq as [_ ?].
  - assert (x = 0%N) as -> by lia. exists "". split; [done|].
    split; [constructor|lia].
Qed.

Lemma pretty_N_digits (x : N) : digits (pretty x) ∧ pretty x ≠ "".
Proof.
  unfold pretty, pretty_N. destruct (decide (x = 0%N)) as [->|Hx].
  - split; [|done]. repeat constructor. simpl. by eexists.
  - destruct (pretty_N_go_digits x "") as (ds & -> & Hds & Hne).
    rewrite string_app_nil_r. split; [done|]. apply Hne. lia.
Qed.

Lemma pretty_nat_digits (i : nat) : digits (pretty i) ∧ pretty i ≠ "".
Proof. apply pretty_N_digits. Qed.

Lemma wav_name_visible (i : nat) : hidden (pretty i +:+ ".wav") = false.
Proof.
  destruct (pretty_nat_digits i) as [Hd Hne].
  destruct (pretty i) as [|c s]; [done|]. simpl.
  apply bool_decide_eq_false. intros ->.
  unfold digits in Hd. simpl in Hd. apply Forall_cons in Hd as [[n Hn] _].
  done.
Qed.

(** ** Memoization of the pre-processing operations *)

Section Memo.
Context `{Externals}.

Lemma get_cache_cases config ct hp (w : World) cd :
  ATC.cache_dir config = Some cd →
  match node_at (fs w) (mark_path cd ct hp) with
  | None => get_cache config ct hp w = (Ok None, w)
  | Some Dir =>
      ∃ l, get_cache config ct hp w = (Ok (Some l), w) ∧ NoDup l
           ∧ ∀ q, q ∈ l ↔ visible_file (fs w) (mark_path cd ct hp) q
  | Some (File _) => get_cache config ct hp w = (Raise OSError, w)
  end.
Proof.
  intros Hcd. unfold get_cache. rewrite Hcd. munfold.
  unfold exists_, path_exists.
  destruct (node_at (fs w) (mark_path cd ct hp)) as [[|c]|] eqn:Hn.
  - rewrite bool_decide_true by eauto.
    destruct (get_files_ok _ _ Hn) as (l & -> & ? & ?). eauto.
  - rewrite bool_decide_true by eauto. unfold get_files. by rewrite Hn.
  - rewrite bool_decide_false; [done|]. by intros [? ?].
Qed.

Lemma NoDup_kept_files mark i sigs : NoDup (kept_files mark i sigs).
Proof.
  revert i. induction sigs as [|s sigs IH]; intros i; unfold kept_files;
    simpl; [constructor|].
  destruct (sig_len s) as [n|]; [|apply IH].
  destruct (n <? 1); [apply IH|]. simpl. constructor; [|apply IH].
  apply wav_path_not_kept.
Qed.

Lemma wav_path_ne_mark mark j : wav_path mark j ≠ mark.
Proof.
  unfold wav_path, path_child. destruct mark as [a l]. simpl.
  intros [= Hl]. apply (f_equal length) in Hl. rewrite length_app in Hl.
  simpl in Hl. lia.
Qed.

Lemma visible_in_dir (m : gmap Path Node) (mark q : Path) :
  fs_wf m → visible_file m mark q → node_at m mark = Some Dir.
Proof.
  intros Hwf (n & c & -> & _ & Hq).
  specialize (Hwf _ _ Hq). simpl in Hwf. rewrite path_parent_child in Hwf.
  unfold is_dir in Hwf. by destruct (node_at m mark) as [[|?]|].
Qed.

(** After [make_cache] in a directory that held no visible file, the
    visible files of the directory are the files it returns. *)
Lemma make_cache_visible sigs sr config ct hp (w w' : World) files cd :
  ATC.cache_dir config = Some cd →
  make_cache sigs sr config ct hp w = (Ok files, w') →
  (∀ q, ¬ visible_file (fs w) (mark_path cd ct hp) q) →
  ∀ q, visible_file (fs w') (mark_path cd ct hp) q ↔ q ∈ files.
Proof.
  intros Hcd Hm Hnone q.
  destruct (make_cache_frame _ _ _ _ _ _ _ _ Hm) as (_ & Hback & _).
  destruct (make_cache_ok _ _ _ _ _ _ _ _ Hm)
    as (cd' & Hcd' & Hfiles & Hnil & Hcons).
  rewrite Hcd in Hcd'. injection Hcd' as <-. split.
  - intros (n & c & -> & Hv & Hq).
    destruct (decide (path_child (mark_path cd ct hp) n ∈ files)); [done|].
    exfalso. apply (Hnone (path_child (mark_path cd ct hp) n)).
    exists n, c. split; [done|]. split; [done|]. by eapply Hback.
  - intros Hq. rewrite Hfiles in Hq.
    destruct (elem_of_kept_files _ _ _ _ Hq) as (j & s & -> & Hj).
    destruct (decide (sigs = [])) as [->|Hne]; [by apply elem_of_nil in Hj|].
    destruct (Hcons Hne) as (w1 & _ & Hsave).
    apply save_sigs_ok in Hsave as (_ & _ & Hkept & _).
    destruct (Hkept j s Hj) as (r & _ & Hfs).
    exists (pretty j +:+ ".wav"), (FAudio (sig_data s) r).
    split; [done|]. split; [apply wav_name_visible|done].
Qed.

Lemma make_cache_mark sigs sr config ct hp (w w' : World) files cd :
  ATC.cache_dir config = Some cd →
  make_cache sigs sr config ct hp w = (Ok files, w') →
  sigs ≠ [] →
  let mark := mark_path cd ct hp in
  node_at (fs w') mark = Some Dir
  ∧ ∀ k, (0 < k ≤ length (parts mark))%nat →
         fs w' !! mkPath (absolute mark) (take k (parts mark)) = Some Dir.
Proof.
  intros Hcd Hm Hne mark.
  destruct (make_cache_ok _ _ _ _ _ _ _ _ Hm)
    as (cd' & Hcd' & Hfiles & _ & Hcons).
  rewrite Hcd in Hcd'. injection Hcd' as <-.
  destruct (Hcons Hne) as (w1 & Hmk & Hsave).
  apply makedirs_ok in Hmk as (_ & Hdir & _ & _ & Hdirs).
  apply save_sigs_ok in Hsave as (_ & Hframe & _ & Hnd & _).
  assert (∀ q, fs w1 !! q = Some Dir → fs w' !! q = Some Dir) as Hkeep.
  { intros q Hq. destruct (decide (q ∈ files)) as [Hin|Hout].
    - exfalso. apply (Hnd q Hin). rewrite Hfiles in Hin.
      destruct (elem_of_kept_files _ _ _ _ Hin) as (j & s & -> & Hj).
      unfold wav_path. by rewrite node_at_child.
    - by rewrite Hframe. }
  split.
  - unfold mark, mark_path. rewrite node_at_child. apply Hkeep, Hdir.
    apply parts_child_ne.
  - intros k Hk. by apply Hkeep, Hdirs.
Qed.

End Memo.

Section MemoAgain.
Context `{Externals}.

Lemma save_sigs_none mark sr i sigs (w w' : World) :
  save_sigs mark sr i sigs w = (Ok [], w') →
  ∀ w2, save_sigs mark sr i sigs w2 = (Ok [], w2).
Proof.
  revert i w. induction sigs as [|s sigs IH]; intros i w Hs w2; simpl in *.
  - done.
  - destruct (sig_len s) as [n|]; [|done].
    destruct (n <? 1); [by eapply IH|].
    munfold. destruct (torchaudio_save _ s sr w) as [[[]|?] ?]; [|done].
    by destruct (save_sigs mark sr (S i) sigs _) as [[?|?] ?].
Qed.

Lemma make_cache_none_again sigs sr config ct hp (w w' w2 : World) cd :
  ATC.cache_dir config = Some cd →
  make_cache sigs sr config ct hp w = (Ok [], w') →
  (sigs ≠ [] →
   ∀ k, (0 < k ≤ length (parts (mark_path cd ct hp)))%nat →
        fs w2 !! mkPath (absolute (mark_path cd ct hp))
                   (take k (parts (mark_path cd ct hp))) = Some Dir) →
  (make_cache sigs sr config ct hp w2).1 = Ok []
  ∧ fs (make_cache sigs sr config ct hp w2).2 = fs w2.
Proof.
  intros Hcd Hm Hdirs.
  destruct (make_cache_ok _ _ _ _ _ _ _ _ Hm)
    as (cd' & Hcd' & _ & _ & Hcons).
  rewrite Hcd in Hcd'. injection Hcd' as <-.
  unfold make_cache. rewrite Hcd.
  destruct (decide (sigs = [])) as [->|Hne]; [done|].
  destruct (Hcons Hne) as (w1 & _ & Hsave).
  replace (0 <? Z.of_nat (length sigs)) with true
    by (symmetry; apply Z.ltb_lt; destruct sigs; [done|simpl; lia]).
  munfold. unfold makedirs.
  rewrite (makedirs_go_present _ [] _ _ (Hdirs Hne)). simpl.
  by rewrite (save_sigs_none _ _ _ _ _ _ Hsave).
Qed.

(** A successful call is a hit that changes nothing, or a miss in a
    directory without visible files. *)
Lemma cached_files_cases config ct hp compute (w w' : World) files :
  fs_wf (fs w) →
  cached_files config ct hp compute w = (Ok files, w') →
  (files ≠ [] ∧ w' = w ∧ get_cache config ct hp w = (Ok (Some files), w))
  ∨ (∃ cd o sigs sr w1,
       ATC.cache_dir config = Some cd
       ∧ get_cache config ct hp w = (Ok o, w) ∧ not_files o = true
       ∧ compute w = (Ok (sigs, sr), w1)
       ∧ make_cache sigs sr config ct hp w1 = (Ok files, w')
       ∧ ∀ q, ¬ visible_file (fs w) (mark_path cd ct hp) q).
Proof.
  intros Hwf Hc.
  destruct (ATC.cache_dir config) as [cd|] eqn:Hcd; last first.
  { unfold cached_files, get_cache, make_cache in Hc. rewrite Hcd in Hc.
    munfold. simpl in Hc. by destruct (compute w) as [[[??]|?] ?]. }
  pose proof (get_cache_cases config ct hp w cd Hcd) as Hg.
  unfold cached_files in Hc. munfold.
  assert (∀ o, get_cache config ct hp w = (Ok o, w) → not_files o = true →
               (∀ q, ¬ visible_file (fs w) (mark_path cd ct hp) q) →
               ∃ cd0 o sigs sr w1,
                 Some cd = Some cd0
                 ∧ get_cache config ct hp w = (Ok o, w) ∧ not_files o = true
                 ∧ compute w = (Ok (sigs, sr), w1)
                 ∧ make_cache sigs sr config ct hp w1 = (Ok files, w')
                 ∧ ∀ q, ¬ visible_file (fs w) (mark_path cd0 ct hp) q)
    as Hmiss.
  { intros o Hgo Ho Hnone. rewrite Hgo, Ho in Hc.
    destruct (compute w) as [[[sigs sr]|e] w1] eqn:Hcomp; [|done].
    by exists cd, o, sigs, sr, w1. }
  destruct (node_at (fs w) (mark_path cd ct hp)) as [[|c]|] eqn:Hmark.
  - destruct Hg as (l & Hgl & _ & Hl). destruct l as [|f l].
    + right. apply (Hmiss (Some [])); [done..|].
      intros q Hq. apply Hl in Hq. by apply elem_of_nil in Hq.
    + left. rewrite Hgl in Hc. simpl in Hc. by simplify_eq.
  - by rewrite Hg in Hc.
  - right. apply (Hmiss None); [done..|].
    intros q Hq. apply (visible_in_dir _ _ _ Hwf) in Hq. congruence.
Qed.

(** No entry that exists is replaced or removed. *)
Lemma cached_files_keeps config ct hp compute (w w' : World) files :
  fs_wf (fs w) →
  (∀ w0, fs (compute w0).2 = fs w0) →
  cached_files config ct hp compute w = (Ok files, w') →
  ∀ q nd, fs w !! q = Some nd → fs w' !! q = Some nd.
Proof.
  intros Hwf Hro Hc q nd Hq.
  destruct (cached_files_cases _ _ _ _ _ _ _ Hwf Hc)
    as [(_ & -> & _)|(cd & o & sigs & sr & w1 & Hcd & _ & _ & Hcomp & Hm
                      & Hnone)]; [done|].
  pose proof (Hro w) as Hfs1. rewrite Hcomp in Hfs1. simpl in Hfs1.
  destruct (make_cache_frame _ _ _ _ _ _ _ _ Hm) as (Hkeep & _ & Hnd).
  destruct (decide (q ∈ files)) as [Hin|Hout].
  - exfalso. destruct nd as [|c].
    + apply (Hnd q Hin). by rewrite Hfs1.
    + destruct (make_cache_ok _ _ _ _ _ _ _ _ Hm)
        as (cd' & Hcd' & Hfiles & _).
      rewrite Hcd in Hcd'. injection Hcd' as <-. rewrite Hfiles in Hin.
      destruct (elem_of_kept_files _ _ _ _ Hin) as (j & s & -> & _).
      apply (Hnone (wav_path (mark_path cd ct hp) j)).
      exists (pretty j +:+ ".wav"), c.
      split; [done|]. split; [apply wav_name_visible|done].
  - apply Hkeep; [done|]. by rewrite Hfs1.
Qed.

(** A second call, in any world with the files of the first, returns
    the same files up to the order of the listing; it changes no file,
    and when the first call returned files it does nothing at all. *)
Lemma cached_files_again config ct hp compute (w w' w2 : World) files :
  fs_wf (fs w) →
  (∀ w0, fs (compute w0).2 = fs w0) →
  cached_files config ct hp compute w = (Ok files, w') →
  fs w2 = fs w' →
  (files = [] → (compute w2).1 = (compute w).1) →
  ∃ files2 w'',
    cached_files config ct hp compute w2 = (Ok files2, w'')
    ∧ files2 ≡ₚ files
    ∧ fs w'' = fs w2
    ∧ (files ≠ [] → w'' = w2).
Proof.
  intros Hwf Hro Hc Hw2 Hsame.
  destruct (cached_files_cases _ _ _ _ _ _ _ Hwf Hc)
    as [(Hne & -> & Hg)|(cd & o & sigs & sr & w1 & Hcd & Hg0 & Ho & Hcomp
                         & Hm & Hnone)].
  - (* a hit: the listing is the same in [w2] *)
    exists files, w2. split; [|done].
    unfold cached_files. munfold.
    assert (get_cache config ct hp w2 = (Ok (Some files), w2)) as ->.
    { unfold get_cache, exists_, path_exists, get_files in *. munfold.
      destruct (ATC.cache_dir config); [|done]. rewrite Hw2.
      destruct (bool_decide _); [|done]. simpl in *. rewrite Hw2.
      destruct (node_at (fs w) _) as [[|?]|]; by simplify_eq. }
    by destruct files.
  - set (mark := mark_path cd ct hp) in *.
    pose proof (Hro w) as Hfs1. rewrite Hcomp in Hfs1. simpl in Hfs1.
    assert (∀ q, ¬ visible_file (fs w1) mark q) as Hnone1
      by by rewrite Hfs1.
    pose proof (make_cache_visible _ _ _ _ _ _ _ _ _ Hcd Hm Hnone1) as Hvis.
    fold mark in Hvis. rewrite <- Hw2 in Hvis.
    pose proof (get_cache_cases config ct hp w2 cd Hcd) as Hg'.
    fold mark in Hg'.
    destruct (decide (files = [])) as [->|Hne].
    + (* nothing was stored: the second call computes again *)
      assert (∃ o', get_cache config ct hp w2 = (Ok o', w2)
                    ∧ not_files o' = true) as (o' & Hg2 & Ho').
      { destruct (node_at (fs w2) mark) as [[|c]|] eqn:Hmark'.
        - destruct Hg' as (l & Hgl & _ & Hl). exists (Some l).
          split; [done|]. destruct l as [|f l]; [done|].
          exfalso. eapply elem_of_nil, Hvis, Hl. by left.
        - rewrite Hw2 in Hmark'.
          destruct (decide (sigs = [])) as [->|Hsne].
          + destruct (make_cache_ok _ _ _ _ _ _ _ _ Hm)
              as (cd' & _ & _ & Hnil & _).
            rewrite (Hnil eq_refl), Hfs1 in Hmark'.
            pose proof (get_cache_cases config ct hp w cd Hcd) as Hgw.
            fold mark in Hgw. rewrite Hmark' in Hgw. congruence.
          + destruct (make_cache_mark _ _ _ _ _ _ _ _ _ Hcd Hm Hsne)
              as [Hd _]. fold mark in Hd. congruence.
        - by exists None. }
      pose proof (Hsame eq_refl) as Hs. rewrite Hcomp in Hs. simpl in Hs.
      pose proof (Hro w2) as Hfs2.
      destruct (compute w2) as [r2 w3] eqn:Hcomp2. simpl in Hs, Hfs2.
      subst r2.
      destruct (make_cache_none_again sigs sr config ct hp w1 w' w3 cd
                  Hcd Hm) as [Hr Hf].
      { intros Hsne k Hk. rewrite Hfs2, Hw2.
        by apply (make_cache_mark _ _ _ _ _ _ _ _ _ Hcd Hm Hsne). }
      destruct (make_cache sigs sr config ct hp w3) as [r3 w4] eqn:Hm3.
      simpl in Hr, Hf. subst r3.
      exists [], w4. split; [|split; [done|split; [congruence|done]]].
      unfold cached_files. munfold. by rewrite Hg2, Ho', Hcomp2, Hm3.
    + (* files were stored: the second call finds them *)
      assert (sigs ≠ []) as Hsne.
      { intros ->. destruct (make_cache_ok _ _ _ _ _ _ _ _ Hm)
          as (cd' & _ & Hf & _). by rewrite Hf in Hne. }
      destruct (make_cache_mark _ _ _ _ _ _ _ _ _ Hcd Hm Hsne) as [Hd _].
      fold mark in Hd. rewrite <- Hw2 in Hd. rewrite Hd in Hg'.
      destruct Hg' as (l & Hgl & Hnd & Hl).
      assert (l ≡ₚ files) as Hperm.
      { apply NoDup_Permutation; [done| |].
        - destruct (make_cache_ok _ _ _ _ _ _ _ _ Hm)
            as (cd' & _ & -> & _). apply NoDup_kept_files.
        - intros q. by rewrite Hl, Hvis. }
      exists l, w2. split; [|done].
      unfold cached_files. munfold. rewrite Hgl.
      destruct l as [|f l]; [|done].
      by apply Permutation_nil_l in Hperm.
Qed.

End MemoAgain.

Section Operations.
Context `{Externals}.

Lemma resample_item_shape item label config path (w : World) :
  resample_item (item, label) config path w
  = (item_path ← item_path_of item path;
     files ← cached_files config "rs"
               [HPath item_path; HOptInt (ATC.resample_to config)]
               (compute_resample config item_path);
     mret (zip_label files label)) w.
Proof.
  unfold resample_item, cached_files, compute_resample. munfold.
  destruct (item_path_of item path w) as [[ip|e] w1]; [|done].
  destruct (get_cache _ _ _ w1) as [[o|e] w2]; [|done].
  destruct (not_files o); [|done].
  destruct (torchaudio_load _ w2) as [[[sig sr]|e] w3]; [|done].
  by destruct (tfm_resample _ _ _).
Qed.

Lemma remove_silence_shape item label config path (w : World) :
  remove_silence (item, label) config path w
  = (item_path ← item_path_of item path;
     files ← cached_files config "sh"
               [HPath item_path; HInt (ATC.silence_threshold config);
                HInt (ATC.silence_padding config)]
               (compute_silence config item_path);
     mret (zip_label files label)) w.
Proof.
  unfold remove_silence, cached_files, compute_silence. munfold.
  destruct (item_path_of item path w) as [[ip|e] w1]; [|done].
  destruct (get_cache _ _ _ w1) as [[o|e] w2]; [|done].
  destruct (not_files o); [|done].
  destruct (torchaudio_load _ w2) as [[[sig sr]|e] w3]; [|done].
  by destruct (tfm_chop_silence _ _ _ _).
Qed.

Lemma segment_items_shape item label config path (w : World) :
  segment_items (item, label) config path w
  = (item_path ← item_path_of item path;
     '(sig, sr) ← torchaudio_load (as_Path item_path);
     match ATC.segment_size config with
     | None => raise TypeError
     | Some segment_size =>
         let segsize := ms_to_samples segment_size sr in
         files ← cached_files config "s"
                   [HPath item_path; HInt segsize; HLabel label]
                   (compute_segments sig sr segsize);
         mret (zip_label files label)
     end) w.
Proof.
  unfold segment_items, cached_files, compute_segments. munfold.
  destruct (item_path_of item path w) as [[ip|e] w1]; [|done].
  destruct (torchaudio_load _ w1) as [[[sig sr]|e] w2]; [|done].
  destruct (ATC.segment_size config) as [ms|]; [|done].
  destruct (get_cache _ _ _ w2) as [[o|e] w3]; [|done].
  destruct (not_files o); [|done].
  by destruct (segments _ _ w3) as [[sigs|e] w4].
Qed.

Lemma item_path_of_ok item path (w w1 : World) ip :
  item_path_of item path w = (Ok ip, w1) →
  w1 = w
  ∧ ∃ ip0, item = IPathLike ip0
           ∧ ip = if path_exists w (as_Path ip0) then ip0
                  else PPath (path_join path (as_Path ip0)).
Proof.
  unfold item_path_of, exists_. munfold.
  destruct item as [a|ip0|]; [done| |done]. intros [= <- <-]. eauto.
Qed.

Lemma path_exists_mono (w w2 : World) p :
  (∀ q nd, fs w !! q = Some nd → fs w2 !! q = Some nd) →
  path_exists w p = true → path_exists w2 p = true.
Proof.
  unfold path_exists, node_at. intros Hmono.
  destruct (parts p); [done|].
  intros [nd Hnd]%bool_decide_eq_true. apply bool_decide_eq_true.
  exists nd. by apply Hmono.
Qed.

Lemma load_fs p (w : World) : fs (torchaudio_load p w).2 = fs w.
Proof. unfold torchaudio_load. by repeat case_match. Qed.

Lemma load_log p (w : World) :
  log (torchaudio_load p w).2 = EvLoadAudio p :: log w.
Proof. unfold torchaudio_load. by repeat case_match. Qed.

Lemma load_mono p (w w2 : World) x :
  (∀ q nd, fs w !! q = Some nd → fs w2 !! q = Some nd) →
  (torchaudio_load p w).1 = Ok x → (torchaudio_load p w2).1 = Ok x.
Proof.
  unfold torchaudio_load, node_at. intros Hmono.
  destruct (parts p); [done|].
  destruct (fs w !! p) as [[|[m sr|t]]|] eqn:Hp; try done.
  by rewrite (Hmono _ _ Hp).
Qed.

Lemma compute_resample_fs config ip (w : World) :
  fs (compute_resample config ip w).2 = fs w.
Proof.
  unfold compute_resample. munfold.
  pose proof (load_fs (as_Path ip) w) as Hl.
  destruct (torchaudio_load _ w) as [[[sig sr]|e] w1]; [|done].
  by destruct (tfm_resample _ _ _).
Qed.

Lemma compute_silence_fs config ip (w : World) :
  fs (compute_silence config ip w).2 = fs w.
Proof.
  unfold compute_silence. munfold.
  pose proof (load_fs (as_Path ip) w) as Hl.
  destruct (torchaudio_load _ w) as [[[sig sr]|e] w1]; [|done].
  by destruct (tfm_chop_silence _ _ _ _).
Qed.

Lemma compute_segments_pure sig sr segsize (w w2 : World) :
  fs (compute_segments sig sr segsize w).2 = fs w
  ∧ (compute_segments sig sr segsize w2).1
    = (compute_segments sig sr segsize w).1.
Proof.
  unfold compute_segments, segments. munfold.
  destruct (sig_len _); [|done]. by destruct (_ =? 0).
Qed.

Lemma compute_resample_mono config ip (w w2 : World) x :
  (∀ q nd, fs w !! q = Some nd → fs w2 !! q = Some nd) →
  (compute_resample config ip w).1 = Ok x →
  (compute_resample config ip w2).1 = Ok x.
Proof.
  intros Hmono. unfold compute_resample. munfold.
  pose proof (load_mono (as_Path ip) w w2) as Hl.
  destruct (torchaudio_load _ w) as [[[sig sr]|e] w1]; [|done].
  specialize (Hl _ Hmono eq_refl).
  destruct (torchaudio_load _ w2) as [r w3]. simpl in Hl. subst r.
  by destruct (tfm_resample _ _ _).
Qed.

Lemma compute_silence_mono config ip (w w2 : World) x :
  (∀ q nd, fs w !! q = Some nd → fs w2 !! q = Some nd) →
  (compute_silence config ip w).1 = Ok x →
  (compute_silence config ip w2).1 = Ok x.
Proof.
  intros Hmono. unfold compute_silence. munfold.
  pose proof (load_mono (as_Path ip) w w2) as Hl.
  destruct (torchaudio_load _ w) as [[[sig sr]|e] w1]; [|done].
  specialize (Hl _ Hmono eq_refl).
  destruct (torchaudio_load _ w2) as [r w3]. simpl in Hl. subst r.
  by destruct (tfm_chop_silence _ _ _ _).
Qed.

(** A second run of a memoized computation that loads the file at every
    miss. *)
Lemma cached_load_again config ct hp compute (w w' : World) files :
  fs_wf (fs w) →
  (∀ w0, fs (compute w0).2 = fs w0) →
  (∀ w1 w2 x, (∀ q nd, fs w1 !! q = Some nd → fs w2 !! q = Some nd) →
              (compute w1).1 = Ok x → (compute w2).1 = Ok x) →
  cached_files config ct hp compute w = (Ok files, w') →
  ∃ files2 w'',
    cached_files config ct hp compute w' = (Ok files2, w'')
    ∧ files2 ≡ₚ files ∧ fs w'' = fs w' ∧ (files ≠ [] → w'' = w').
Proof.
  intros Hwf Hro Hmono Hc.
  apply (cached_files_again _ _ _ _ w w' w' files); [done..|].
  intros ->.
  destruct (cached_files_cases _ _ _ _ _ _ _ Hwf Hc)
    as [(? & _)|(cd & o & sigs & sr & w1 & _ & _ & _ & Hcomp & _)]; [done|].
  rewrite Hcomp. simpl. apply (Hmono w); [|by rewrite Hcomp].
  by apply (cached_files_keeps _ _ _ _ _ _ _ Hwf Hro Hc).
Qed.

End Operations.

Section MemoizedOperations.
Context `{Externals}.

Lemma item_path_of_again item path (w w' : World) ip :
  item_path_of item path w = (Ok ip, w) →
  (∀ q nd, fs w !! q = Some nd → fs w' !! q = Some nd) →
  (∀ ip0, item = IPathLike ip0 →
          path_exists w' (as_Path ip0) = true →
          path_exists w (as_Path ip0) = true) →
  item_path_of item path w' = (Ok ip, w').
Proof.
  intros (_ & ip0 & -> & ->)%item_path_of_ok Hmono Hst.
  unfold item_path_of, exists_. munfold. do 3 f_equal.
  destruct (path_exists w (as_Path ip0)) eqn:E.
  - by rewrite (path_exists_mono _ _ _ Hmono E).
  - destruct (path_exists w' (as_Path ip0)) eqn:E'; [|done].
    rewrite (Hst ip0 eq_refl E') in E. done.
Qed.

Lemma zip_label_nil files (label : Label) :
  zip_label files label ≠ [] → files ≠ [].
Proof. by intros Hz ->. Qed.

Lemma lookup_then_load_again ct hp compute item label config path
    (w : World) r :
  (∀ ip w0, fs (compute ip w0).2 = fs w0) →
  (∀ ip w1 w2 x,
     (∀ q nd, fs w1 !! q = Some nd → fs w2 !! q = Some nd) →
     (compute ip w1).1 = Ok x → (compute ip w2).1 = Ok x) →
  fs_wf (fs w) →
  let op := lookup_then_load ct hp compute item label config path in
  (op w).1 = Ok r →
  (∀ ip, item = IPathLike ip →
         path_exists (op w).2 (as_Path ip) = true →
         path_exists w (as_Path ip) = true) →
  ∃ r2, (op (op w).2).1 = Ok r2 ∧ r2 ≡ₚ r
        ∧ fs (op (op w).2).2 = fs (op w).2
        ∧ (r ≠ [] → log (op (op w).2).2 = log (op w).2).
Proof.
  intros Hro Hmono Hwf op. unfold op, lookup_then_load. munfold.
  destruct (item_path_of item path w) as [[ip|e] w1] eqn:Hip; [|done].
  destruct (item_path_of_ok _ _ _ _ _ Hip) as (-> & _).
  destruct (cached_files _ _ _ _ w) as [[files|e] w'] eqn:Hc; [|done].
  simpl. intros [= <-] Hst.
  pose proof (cached_files_keeps _ _ _ _ _ _ _ Hwf (Hro ip) Hc) as Hkeep.
  rewrite (item_path_of_again _ _ _ _ _ Hip Hkeep Hst).
  destruct (cached_load_again _ _ _ _ _ _ _ Hwf (Hro ip) (Hmono ip) Hc)
    as (files2 & w'' & -> & Hperm & Hfs & Hsame).
  simpl. exists (zip_label files2 label). split; [done|]. split; [|split].
  - rewrite !zip_label_fmap. by apply fmap_Permutation.
  - done.
  - intros Hne%zip_label_nil. by rewrite (Hsame Hne).
Qed.

(** C5: a second call of a pre-processing operation returns the pairs
    of the first, up to the order in which the cache directory is
    listed, and changes no file; when the first call returned pairs,
    [resample_item] and [remove_silence] then do not load the audio
    file, while [segment_items] loads it once more (the segment size in
    samples comes from its sample rate) and slices nothing. *)
Theorem C5_memoized (o : PreOp) (item : Item) (label : Label)
    (config : ATC.t) (path : Path) (w : World) (r : list (Path * Label)) :
  fs_wf (fs w) →
  let op := pre_op o (item, label) config path in
  (op w).1 = Ok r →
  (∀ ip, item = IPathLike ip →
         path_exists (op w).2 (as_Path ip) = true →
         path_exists w (as_Path ip) = true) →
  ∃ r2, (op (op w).2).1 = Ok r2 ∧ r2 ≡ₚ r
        ∧ fs (op (op w).2).2 = fs (op w).2
        ∧ (r ≠ [] →
           match o with
           | OpSegment =>
               ∃ p, log (op (op w).2).2 = EvLoadAudio p :: log (op w).2
           | _ => log (op (op w).2).2 = log (op w).2
           end).
Proof.
  intros Hwf op. destruct o.
  - assert (∀ w0, op w0
              = lookup_then_load "rs"
                  (λ ip, [HPath ip; HOptInt (ATC.resample_to config)])
                  (compute_resample config) item label config path w0)
      as Hop by apply resample_item_shape.
    rewrite !Hop.
    apply lookup_then_load_again;
      [apply compute_resample_fs|apply compute_resample_mono|done].
  - assert (∀ w0, op w0
              = lookup_then_load "sh"
                  (λ ip, [HPath ip; HInt (ATC.silence_threshold config);
                          HInt (ATC.silence_padding config)])
                  (compute_silence config) item label config path w0)
      as Hop by apply remove_silence_shape.
    rewrite !Hop.
    apply lookup_then_load_again;
      [apply compute_silence_fs|apply compute_silence_mono|done].
  - unfold op, pre_op. rewrite !segment_items_shape. munfold.
    destruct (item_path_of item path w) as [[ip|e] w0] eqn:Hip; [|done].
    destruct (item_path_of_ok _ _ _ _ _ Hip) as (-> & _).
    pose proof (load_fs (as_Path ip) w) as Hlfs.
    pose proof (load_mono (as_Path ip) w) as Hlmono.
    destruct (torchaudio_load _ w) as [[[sig sr]|e] wl] eqn:Hl; [|done].
    simpl in Hlfs. destruct (ATC.segment_size config) as [ms|]; [|done].
    set (segsize := ms_to_samples ms sr).
    set (hp := [HPath ip; HInt segsize; HLabel label]).
    set (compute := compute_segments sig sr segsize).
    assert (fs_wf (fs wl)) as Hwfl by by rewrite Hlfs.
    assert (∀ w0, fs (compute w0).2 = fs w0) as Hro
      by (intros w0; apply (compute_segments_pure sig sr segsize w0 w0)).
    destruct (cached_files config "s" hp compute wl)
      as [[files|e] w'] eqn:Hc; [|done].
    simpl. intros [= <-] Hst.
    pose proof (cached_files_keeps _ _ _ _ _ _ _ Hwfl Hro Hc) as Hkeep.
    rewrite Hlfs in Hkeep.
    rewrite (item_path_of_again _ _ _ _ _ Hip Hkeep Hst).
    specialize (Hlmono w' _ Hkeep eq_refl).
    pose proof (load_fs (as_Path ip) w') as Hlfs'.
    pose proof (load_log (as_Path ip) w') as Hllog'.
    destruct (torchaudio_load _ w') as [rl wl'] eqn:Hl'.
    simpl in Hlmono, Hlfs', Hllog'. subst rl. fold segsize hp compute.
    destruct (cached_files_again config "s" hp compute wl w' wl' files
                Hwfl Hro Hc Hlfs')
      as (files2 & w'' & -> & Hperm & Hfs & Hsame).
    { intros _. apply compute_segments_pure. }
    simpl. exists (zip_label files2 label). split; [done|].
    split; [|split].
    + rewrite !zip_label_fmap. by apply fmap_Permutation.
    + congruence.
    + intros Hne%zip_label_nil. rewrite (Hsame Hne). eauto.
Qed.

End MemoizedOperations.

Lemma Demo_w0_wf : fs_wf (fs Demo.w0).
Proof. apply (bool_decide_unpack _). vm_compute. exact I. Qed.

Lemma C5_witness :
  let op := pre_op (H := Demo.sorted) OpSegment
              (IPathLike (PStr "a.wav"), Demo.lab) Demo.cfg_seg Demo.data in
  ∃ r2, (op (op Demo.w0).2).1 = Ok r2 ∧ r2 ≡ₚ demo_segment_pairs
        ∧ fs (op (op Demo.w0).2).2 = fs (op Demo.w0).2
        ∧ (demo_segment_pairs ≠ [] →
           ∃ p, log (op (op Demo.w0).2).2
                = EvLoadAudio p :: log (op Demo.w0).2).
Proof.
  apply (C5_memoized (H := Demo.sorted) OpSegment (IPathLike (PStr "a.wav"))
           Demo.lab Demo.cfg_seg Demo.data Demo.w0 demo_segment_pairs).
  - exact Demo_w0_wf.
  - vm_compute. reflexivity.
  - intros ip [= <-]. vm_compute. intros [=].
Defined.

Lemma C5_counterexample :
  (let op := segment_items (H := Demo.sorted)
               (IPathLike (PStr "a.wav"), Demo.lab) Demo.cfg_seg Demo.data in
   (op Demo.w0).1 = Ok demo_segment_pairs
   ∧ (get_cache (H := Demo.sorted) Demo.cfg_seg "s" Demo.seg_params
        (op Demo.w0).2).1 = Ok (Some demo_segment_pairs.*1)
   ∧ log (op (op Demo.w0).2).2
     = EvLoadAudio (Path_of_string "data/a.wav") :: log (op Demo.w0).2)
  ∧ (let op := segment_items (H := Demo.reversed)
                 (IPathLike (PStr "a.wav"), Demo.labr) Demo.cfg_seg
                 Demo.data in
     (op Demo.w0r).1 = Ok demo_segment_pairs
     ∧ (op (op Demo.w0r).2).1 = Ok (reverse demo_segment_pairs)
     ∧ reverse demo_segment_pairs ≠ demo_segment_pairs).
Proof.
  split; [|split; [|split]].
  - repeat split; vm_compute; reflexivity.
  - vm_compute. reflexivity.
  - vm_compute. reflexivity.
  - vm_compute. intros [=].
Qed.

(** ** [AudioLabelList.process] *)

Section PreProcess.
Context `{Externals}.

Lemma fold_concat_rows {A} (rows : list (list A)) (acc : list A) :
  fold_left concat_rows rows acc = acc ++ concat rows.
Proof.
  revert acc. induction rows as [|row rows IH]; intros acc; simpl.
  - by rewrite app_nil_r.
  - rewrite IH. unfold concat_rows. destruct row as [|x row]; [done|].
    replace (0 <? Z.of_nat (length (x :: row))) with true
      by (symmetry; apply Z.ltb_lt; simpl; lia).
    by rewrite <- (assoc_L (++)).
Qed.

Lemma run_stage_flat f config path items (w : World) :
  run_stage f config path items w = flat_stage true f config path items w.
Proof.
  unfold run_stage, flat_stage. munfold.
  destruct (mapM (M := M) _ items w) as [[rows|e] w']; [|done].
  rewrite fold_concat_rows. simpl. do 2 f_equal.
Qed.


(** *** When files come out *)

Lemma nonempty_true {A} (l : list A) : nonempty l = true ↔ l ≠ [].
Proof. by destruct l. Qed.















End PreProcess.

(** The items of a list with the one file of [Demo.w0], after
    segmentation. *)
Definition demo_segment_items : list (@Item Demo.sorted * string) :=
  Eval vm_compute in
    match (flat_stage (H := Demo.sorted) true segment_items Demo.cfg_seg
             Demo.data [(IPathLike (PStr "a.wav"), Demo.lab)] Demo.w0).1 with
    | Ok items => items
    | Raise _ => []
    end.







(** ** Where the caches are written *)

Section WritesInside.
Context `{Externals}.

Lemma wav_path_inside cd ct hp j :
  path_inside cd (wav_path (mark_path cd ct hp) j).
Proof.
  unfold path_inside, wav_path, mark_path, path_child. simpl.
  split; [done|]. rewrite <- (assoc_L (++)). by eexists.
Qed.

(** The files that [make_cache] writes lie in [config.cache_dir]; every
    other file is as it was. *)
Lemma make_cache_writes_inside sigs sr config ct hp (w w' : World) files cd :
  ATC.cache_dir config = Some cd →
  make_cache sigs sr config ct hp w = (Ok files, w') →
  Forall (path_inside cd) files
  ∧ ∀ q c, fs w' !! q = Some (File c) →
           fs w !! q = Some (File c) ∨ path_inside cd q.
Proof.
  intros Hcd Hm.
  destruct (make_cache_ok _ _ _ _ _ _ _ _ Hm) as (cd' & Hcd' & Hfiles & _).
  rewrite Hcd in Hcd'. injection Hcd' as <-.
  assert (Forall (path_inside cd) files) as Hin.
  { rewrite Hfiles. apply Forall_forall.
    intros q (j & s & -> & _)%elem_of_kept_files. apply wav_path_inside. }
  split; [done|]. intros q c Hq.
  destruct (decide (q ∈ files)) as [Hqf|Hqf].
  - right. by eapply Forall_forall in Hin.
  - left. by eapply (make_cache_frame _ _ _ _ _ _ _ _ Hm).
Qed.

End WritesInside.

(** C6, at a list rooted at the relative path [data]: [__init__] sets
    [config.cache_dir] to [data/.cache], where [make_cache] writes, but
    [open] joins [self.path] once more and stores the spectrogram under
    [data/data/.cache], outside [config.cache_dir]. *)
Theorem C6_open_writes_outside_cache_dir :
  let self := AudioList.mk Demo.sorted [IPathLike (PStr "a.wav")]
                Demo.data Demo.cfg0 in
  let cache_dir := Path_of_string "data/.cache" in
  AudioList_init (H := Demo.sorted) [IPathLike (PStr "a.wav")] Demo.data
    ATC.default = Ok self
  ∧ ATC.cache_dir (AudioList.config self) = Some cache_dir
  ∧ Forall (path_inside cache_dir) demo_segment_pairs.*1
  ∧ fs Demo.w0 !! demo_image_path = None
  ∧ fs (get self 0 Demo.w0).2 !! demo_image_path
    = Some (File (@FTensor Demo.sorted
                    [1; 2; 3; 4; 5; 1; 2; 3; 4; 5; 1; 2; 3; 4; 5]))
  ∧ path_str demo_image_path
    = "data/data/.cache/15d305a280c261bf9d74fdcc25443630.pt"
  ∧ ¬ path_inside cache_dir demo_image_path.
Proof.
  repeat split; try (vm_compute; reflexivity).
  - apply (bool_decide_unpack _). vm_compute. exact I.
  - by intros [_ [k [=]]].
Qed.

(** ** The cache is found by path, whatever the files contain *)

Section ContentBlind.
Context `{Externals}.






(** [open] when the spectrogram of the item is in the cache. *)
Lemma open_hit (self : AudioList.t) (item : PathLike) (w : World)
    (p ip : Path) (t : Tensor) :
  let cfg := AudioList.config self in
  resolved self item w = Some p →
  endswith_any (lower (path_str p)) AUDIO_EXTENSIONS = true →
  ATC.use_spectro cfg = true →
  ATC.cache cfg = true →
  ATC.force_cache cfg = false →
  open_image_path self p = Some ip →
  node_at (fs w) ip = Some (File (FTensor t)) →
  open self item w
  = (match (if ATC.standardize cfg then standardize (tensor_squeeze t)
            else Some (tensor_squeeze t)) with
     | Some mel =>
         Ok (AudioItem.mk _ None None item (Some mel) (ATC.max_to_pad cfg))
     | None => Raise RuntimeError
     end, record (EvLoadTensor ip) w).
Proof.
  intros cfg Hp Hext Hus Hc Hf Hip Ht.
  pose proof (open_cases self item w) as Hcases.
  rewrite Hp, Hext in Hcases. rewrite Hcases.
  unfold open_load, open_cached. fold cfg. rewrite Hus, Hip, Hc, Hf.
  munfold. unfold exists_, path_exists, torch_load. simpl.
  rewrite bool_decide_true by (rewrite Ht; eauto). simpl. rewrite Ht.
  destruct (ATC.standardize cfg); simpl; [|done].
  by destruct (standardize (tensor_squeeze t)).
Qed.


End ContentBlind.



(** ** The hashed string determines the fields and the path *)










(** ** What [open] reads and writes *)

Section Touches.
Context `{Externals}.

Lemma touches_ret {A} Pev Pfile (a : A) : touches Pev Pfile (mret a).
Proof. intros w r w'. munfold. intros [= <- <-]. by split; [left|]. Qed.

Lemma touches_raise {A} Pev Pfile e : touches Pev Pfile (raise (A := A) e).
Proof. intros w r w'. munfold. intros [= <- <-]. by split; [left|]. Qed.

Lemma touches_lib {A} Pev Pfile (o : option A) : touches Pev Pfile (lib o).
Proof. destruct o; [apply touches_ret|apply touches_raise]. Qed.

Lemma touches_exists Pev Pfile p : touches Pev Pfile (exists_ p).
Proof. intros w r w' [= <- <-]. by split; [left|]. Qed.

Lemma touches_bind_post {A B} Pev Pfile (R : A → Prop) (m : M A)
    (k : A → M B) :
  touches Pev Pfile m →
  (∀ w a w', m w = (Ok a, w') → R a) →
  (∀ a, R a → touches Pev Pfile (k a)) →
  touches Pev Pfile (m ≫= k).
Proof.
  intros Hm HR Hk w r w'. munfold.
  destruct (m w) as [[a|e] w1] eqn:Hmw.
  - intros Hka. destruct (Hm _ _ _ Hmw) as [Hev1 Hf1].
    destruct (Hk a (HR _ _ _ Hmw) _ _ _ Hka) as [Hev2 Hf2]. split.
    + intros ev Hev. destruct (Hev2 ev Hev) as [?|?]; [auto|by right].
    + intros q Hq c. by rewrite (Hf2 q Hq c), (Hf1 q Hq c).
  - intros [= <- <-]. by apply Hm in Hmw.
Qed.

Lemma touches_bind {A B} Pev Pfile (m : M A) (k : A → M B) :
  touches Pev Pfile m → (∀ a, touches Pev Pfile (k a)) →
  touches Pev Pfile (m ≫= k).
Proof.
  intros Hm Hk. by apply (touches_bind_post _ _ (λ _, True)).
Qed.

Lemma touches_torchaudio_load (Pev : Event → Prop) Pfile p :
  Pev (EvLoadAudio p) → touches Pev Pfile (torchaudio_load p).
Proof.
  intros HP w r w' Hl.
  assert (w' = record (EvLoadAudio p) w) as ->
    by (unfold torchaudio_load in Hl; repeat case_match; by simplify_eq).
  split; [|done]. intros ev [->|?]%elem_of_cons; auto.
Qed.

Lemma touches_torch_load (Pev : Event → Prop) Pfile p :
  Pev (EvLoadTensor p) → touches Pev Pfile (torch_load p).
Proof.
  intros HP w r w' Hl.
  assert (w' = record (EvLoadTensor p) w) as ->
    by (unfold torch_load in Hl; repeat case_match; by simplify_eq).
  split; [|done]. intros ev [->|?]%elem_of_cons; auto.
Qed.

Lemma touches_makedirs (Pev : Event → Prop) Pfile p :
  Pev (EvMakedirs p) → touches Pev Pfile (makedirs p).
Proof.
  intros HP w r w'. unfold makedirs.
  destruct (makedirs_go _ _ _ _) as [b m'] eqn:Hgo.
  intros [= <- <-]. simpl. split.
  - intros ev [->|?]%elem_of_cons; auto.
  - intros q _ c. split.
    + intros Hq.
      destruct (makedirs_go_new _ _ _ _ _ _ Hgo q) as [<-|(?&?&?)];
        [done|congruence].
    + by eapply makedirs_go_mono.
Qed.

Lemma touches_torch_save (Pev : Event → Prop) (Pfile : Path → Prop) t p :
  Pev (EvSaveTensor p) → Pfile p → touches Pev Pfile (torch_save t p).
Proof.
  intros HP HQ w r w'. unfold torch_save, write_file. simpl.
  intros Hw.
  assert (log w' = EvSaveTensor p :: log w
          ∧ (fs w' = fs w ∨ fs w' = <[p := File (FTensor t)]> (fs w)))
    as [Hlog Hfs] by (repeat case_match; simplify_eq; auto).
  split.
  - rewrite Hlog. intros ev [->|?]%elem_of_cons; auto.
  - intros q Hq c. destruct Hfs as [->| ->]; [done|].
    rewrite lookup_insert_ne; [done|]. by intros ->.
Qed.

Lemma open_spectro_touches Pev Pfile cfg signal samplerate :
  touches Pev Pfile (open_spectro cfg signal samplerate).
Proof.
  unfold open_spectro.
  repeat first
    [ apply touches_ret | apply touches_lib
    | apply touches_bind; [|intros ?]
    | match goal with
      | |- touches _ _ (if ?b then _ else _) => destruct b
      end ].
Qed.

Lemma open_load_touches self item p ip :
  ATC.use_spectro (AudioList.config self) = true →
  open_image_path self p = Some ip →
  touches (open_event p ip) (λ q, q = ip) (open_load self item p).
Proof.
  intros Hus Hip. unfold open_load. rewrite Hus, Hip.
  apply (touches_bind_post _ _ (λ a, a = Some ip));
    [apply touches_ret|by intros w a w' [= <- _]|].
  intros _ ->.
  assert (open_event p ip (EvLoadAudio p)
          ∧ open_event p ip (EvLoadTensor ip)
          ∧ open_event p ip (EvMakedirs (path_parent ip))
          ∧ open_event p ip (EvSaveTensor ip)) as (? & ? & ? & ?)
    by (unfold open_event; set_solver).
  unfold open_cached, open_compute.
  repeat first
    [ apply touches_ret | apply touches_raise | apply touches_lib
    | apply touches_exists | apply open_spectro_touches
    | by apply touches_torchaudio_load
    | by apply touches_torch_load
    | by apply touches_makedirs
    | by apply touches_torch_save
    | apply touches_bind; [|intros ?]
    | match goal with
      | |- touches _ _ (match ?x with _ => _ end) => destruct x
      end ].
Qed.

End Touches.

Section CacheFile.
Context `{Externals}.

Lemma same_world_ret {A} (a : A) : same_world (mret a).
Proof. done. Qed.

Lemma same_world_lib {A} (o : option A) : same_world (lib o).
Proof. by destruct o. Qed.

Lemma same_world_bind {A B} (m : M A) (k : A → M B) :
  same_world m → (∀ a, same_world (k a)) → same_world (m ≫= k).
Proof.
  intros Hm Hk w. munfold. specialize (Hm w).
  destruct (m w) as [[a|e] w1]; simpl in Hm; subst w1; [apply Hk|done].
Qed.

Lemma open_spectro_world cfg signal samplerate (w : World) :
  (open_spectro cfg signal samplerate w).2 = w.
Proof.
  revert w. unfold open_spectro.
  repeat first
    [ apply same_world_ret | apply same_world_lib
    | apply same_world_bind; [|intros ?]
    | match goal with
      | |- same_world (if ?b then _ else _) => destruct b
      end ].
Qed.

Lemma open_compute_caches cfg item p ip (w w' : World) it :
  ATC.cache cfg = true →
  open_compute cfg item p (Some ip) w = (Ok it, w') →
  ∃ t, fs w' !! ip = Some (File (FTensor t)).
Proof.
  intros Hc. unfold open_compute. rewrite Hc. munfold.
  destruct (torchaudio_load p w) as [[[signal sr]|e] w1]; [|done].
  match goal with
  | |- context [let (_, _) := ?m w1 in _] =>
      destruct (m w1) as [[signal'|e] w2]; [|done]
  end.
  pose proof (open_spectro_world cfg signal' sr w2) as Hw.
  destruct (open_spectro cfg signal' sr w2) as [[mel|e] w3]; [|done].
  simpl in Hw. subst w3.
  destruct (makedirs (path_parent ip) w2) as [[[]|e] w4]; [|done].
  destruct (torch_save mel ip w4) as [[[]|e] w5] eqn:Hsave; [|done].
  intros [= _ <-]. unfold torch_save in Hsave.
  apply write_file_ok in Hsave as (-> & _). simpl.
  exists mel. by rewrite lookup_insert_eq.
Qed.

Lemma open_load_caches self item p ip (w w' : World) it :
  ATC.use_spectro (AudioList.config self) = true →
  ATC.cache (AudioList.config self) = true →
  open_image_path self p = Some ip →
  open_load self item p w = (Ok it, w') →
  ∃ t, fs w' !! ip = Some (File (FTensor t)).
Proof.
  intros Hus Hc Hip. unfold open_load, open_cached. rewrite Hus, Hip, Hc.
  munfold. simpl.
  assert (∀ w0, open_compute (AudioList.config self) item p (Some ip) w0
                = (Ok it, w') →
                ∃ t, fs w' !! ip = Some (File (FTensor t))) as Hmiss
    by (intros w0; by apply open_compute_caches).
  destruct (ATC.force_cache _); simpl; [apply Hmiss|].
  unfold exists_. destruct (path_exists w ip); [|apply Hmiss].
  unfold torch_load.
  destruct (node_at (fs w) ip) as [[|[m sr|t]]|] eqn:Hnode; [done..| |done].
  simpl. apply node_at_lookup in Hnode.
  destruct (ATC.standardize _).
  - destruct (standardize _); [|done]. intros [= _ <-]. eauto.
  - intros [= _ <-]. eauto.
Qed.


End CacheFile.



(** * Further properties *)

(** ** The digest *)

Lemma hex_digit_is_hex (n : Z) : 0 ≤ n < 16 → is_hex (MD5.hex_digit n).
Proof.
  intros Hn. assert (∃ k, n = Z.of_nat k ∧ (k < 16)%nat) as (k & -> & Hk)
    by (exists (Z.to_nat n); lia).
  unfold is_hex.
  do 16 (destruct k as [|k];
         [vm_compute;
          repeat first [by apply list_elem_of_here|apply list_elem_of_further]
         |]).
  lia.
Qed.

Lemma le_bytes_range (n : nat) (x : Z) :
  Forall (λ b, 0 ≤ b < 256) (MD5.le_bytes n x).
Proof.
  revert x. induction n as [|n IH]; intros x; simpl; constructor; [|done].
  apply Z.mod_pos_bound. lia.
Qed.

Lemma hex_of_bytes_hex (bs : list Z) :
  Forall (λ b, 0 ≤ b < 256) bs →
  String.length (MD5.hex_of_bytes bs) = (2 * length bs)%nat
  ∧ Forall is_hex (list_ascii_of_string (MD5.hex_of_bytes bs)).
Proof.
  induction 1 as [|b bs Hb _ [IHl IHh]]; simpl; [done|]. split; [lia|].
  apply Forall_cons. split; [|apply Forall_cons; split; [|done]];
    apply hex_digit_is_hex.
  - split; [apply Z.div_pos; lia|apply Z.div_lt_upper_bound; lia].
  - apply Z.mod_pos_bound. lia.
Qed.

Lemma digest_bytes (msg : list Z) :
  length (MD5.digest msg) = 16%nat
  ∧ Forall (λ b, 0 ≤ b < 256) (MD5.digest msg).
Proof.
  unfold MD5.digest. destruct (fold_left _ _ _) as [[[a b] c] d].
  split; [done|]. rewrite !Forall_app. repeat split; apply le_bytes_range.
Qed.


(** ** The names of the cache entries *)


Lemma split_on_no_slash (s : string) :
  no_slash s → split_on "/" s = [s].
Proof.
  induction s as [|c s IH]; intros Hs; simpl; [done|].
  apply Forall_cons in Hs as [Hc Hs].
  rewrite decide_False by done. by rewrite IH.
Qed.

Lemma Path_of_string_name (s : string) :
  no_slash s → s ≠ "" → s ≠ "." →
  Path_of_string s = mkPath false [s].
Proof.
  intros Hs Hne Hdot. unfold Path_of_string.
  rewrite split_on_no_slash by done. f_equal.
  - destruct s as [|c s]; [done|]. simpl.
    apply Forall_cons in Hs as [Hc _]. by apply bool_decide_eq_false.
  - by rewrite filter_cons_True, filter_nil.
Qed.

Lemma path_join_name (d : Path) (s : string) :
  no_slash s → s ≠ "" → s ≠ "." →
  path_join d (Path_of_string s) = path_child d s.
Proof. intros. by rewrite Path_of_string_name. Qed.

Lemma no_slash_app (s t : string) :
  no_slash s → no_slash t → no_slash (s +:+ t).
Proof.
  unfold no_slash. rewrite list_ascii_of_string_app, Forall_app. done.
Qed.

Lemma hex_no_slash (s : string) :
  Forall is_hex (list_ascii_of_string s) → no_slash s.
Proof.
  intros Hs. eapply Forall_impl; [exact Hs|]. intros c Hc ->.
  unfold is_hex in Hc. simpl in Hc.
  repeat (apply elem_of_cons in Hc as [Hc|Hc]; [discriminate|]).
  by apply elem_of_nil in Hc.
Qed.

Lemma digits_no_slash (s : string) : digits s → no_slash s.
Proof.
  intros Hs. eapply Forall_impl; [exact Hs|]. intros c [n Hn] ->. done.
Qed.

Lemma string_app_length (s t : string) :
  String.length (s +:+ t) = (String.length s + String.length t)%nat.
Proof. induction s as [|c s IH]; simpl; [done|]. by rewrite IH. Qed.

Lemma long_name (s : string) :
  (2 ≤ String.length s)%nat → s ≠ "" ∧ s ≠ ".".
Proof. intros Hl. split; intros ->; simpl in Hl; lia. Qed.

(** X2: the names under which the caches are written hold no path
    separator: the spectrogram file [<md5>.pt], the directories
    [rs_<md5>], [sh_<md5>] and [s_<md5>] and the wav files [<i>.wav],
    joined to a directory, are direct children of it. *)
Theorem X2_cache_names_are_components (d : Path) (s : string) (i : nat) :
  path_join d (Path_of_string (md5 s +:+ ".pt"))
  = path_child d (md5 s +:+ ".pt")
  ∧ Forall (λ ct, path_join d (Path_of_string (ct +:+ "_" +:+ md5 s))
                  = path_child d (ct +:+ "_" +:+ md5 s))
      ["rs"; "sh"; "s"]
  ∧ path_join d (Path_of_string (pretty i +:+ ".wav"))
    = path_child d (pretty i +:+ ".wav").
Proof.
  destruct (digest_bytes (MD5.bytes_of_string s)) as [Hl16 Hr].
  destruct (hex_of_bytes_hex _ Hr) as [Hlen Hhex].
  change (MD5.hex_of_bytes (MD5.digest (MD5.bytes_of_string s)))
    with (md5 s) in Hlen, Hhex.
  rewrite Hl16 in Hlen.
  pose proof (hex_no_slash _ Hhex) as Hmd5.
  assert (∀ n, no_slash n → (2 ≤ String.length n)%nat →
               path_join d (Path_of_string n) = path_child d n) as Hname.
  { intros n Hn [??]%long_name. by apply path_join_name. }
  assert (∀ ct, no_slash ct →
                path_join d (Path_of_string (ct +:+ "_" +:+ md5 s))
                = path_child d (ct +:+ "_" +:+ md5 s)) as Hmark.
  { intros ct Hct. apply Hname.
    - apply no_slash_app;
        [done|apply no_slash_app; [by repeat constructor|done]].
    - rewrite !string_app_length. lia. }
  split; [|split].
  - apply Hname.
    + apply no_slash_app; [done|]. by repeat constructor.
    + rewrite string_app_length. lia.
  - repeat (apply Forall_cons; split; [apply Hmark; by repeat constructor|]).
    constructor.
  - apply Hname.
    + apply no_slash_app; [|by repeat constructor].
      apply digits_no_slash, pretty_nat_digits.
    + rewrite string_app_length. simpl. lia.
Qed.

(** ** The lookup of a wav cache *)

Section GetCache.
Context `{Externals}.

Lemma get_cache_world (config : ATC.t) (ct : string) (hp : list HashParam)
    (w : World) :
  (get_cache config ct hp w).2 = w.
Proof.
  destruct (ATC.cache_dir config) as [cd|] eqn:Hcd.
  - pose proof (get_cache_cases config ct hp w cd Hcd) as Hg.
    destruct (node_at (fs w) (mark_path cd ct hp)) as [[|c]|].
    + by destruct Hg as (l & -> & _).
    + by rewrite Hg.
    + by rewrite Hg.
  - unfold get_cache. by rewrite Hcd.
Qed.


End GetCache.

(** ** What [make_cache] stores *)

Section KeepsEntries.
Context `{Externals}.


Lemma keeps_ret {A} (a : A) : keeps_entries (mret a).
Proof. intros w r w'. munfold. by intros [= <- <-]. Qed.

Lemma keeps_raise {A} e : keeps_entries (raise (A := A) e).
Proof. intros w r w'. munfold. by intros [= <- <-]. Qed.

Lemma keeps_lib {A} (o : option A) : keeps_entries (lib o).
Proof. destruct o; [apply keeps_ret|apply keeps_raise]. Qed.

Lemma keeps_exists p : keeps_entries (exists_ p).
Proof. by intros w r w' [= <- <-]. Qed.

Lemma keeps_bind {A B} (m : M A) (k : A → M B) :
  keeps_entries m → (∀ a, keeps_entries (k a)) → keeps_entries (m ≫= k).
Proof.
  intros Hm Hk w r w'. munfold.
  destruct (m w) as [[a|e] w1] eqn:Hmw.
  - intros Hka q Hq. eapply Hk; [done|]. by eapply Hm.
  - intros [= <- <-]. by eapply Hm.
Qed.

Lemma keeps_torchaudio_load p : keeps_entries (torchaudio_load p).
Proof.
  intros w r w' Hl q Hq. pose proof (load_fs p w) as Hfs.
  rewrite Hl in Hfs. simpl in Hfs. by rewrite Hfs.
Qed.

Lemma keeps_torch_load p : keeps_entries (torch_load p).
Proof.
  intros w r w' Hl q Hq.
  assert (w' = record (EvLoadTensor p) w) as ->
    by (unfold torch_load in Hl; repeat case_match; by simplify_eq).
  done.
Qed.

Lemma keeps_makedirs p : keeps_entries (makedirs p).
Proof.
  intros w r w'. unfold makedirs.
  destruct (makedirs_go _ _ _ _) as [b m'] eqn:Hgo.
  intros [= <- <-] q [nd Hq]. simpl. exists nd.
  by eapply makedirs_go_mono.
Qed.

Lemma keeps_write_file p d : keeps_entries (write_file p d).
Proof.
  intros w r w'. unfold write_file. intros Hw q Hq.
  assert (fs w' = fs w ∨ fs w' = <[p := File d]> (fs w)) as [->| ->]
    by (repeat case_match; simplify_eq; auto); [done|].
  destruct (decide (q = p)) as [->|Hne].
  - rewrite lookup_insert_eq. eauto.
  - by rewrite lookup_insert_ne.
Qed.

Lemma keeps_torch_save t p : keeps_entries (torch_save t p).
Proof.
  intros w r w' Hs. unfold torch_save in Hs.
  by apply (keeps_write_file _ _ _ _ _ Hs).
Qed.

Lemma keeps_torchaudio_save fn s sr : keeps_entries (torchaudio_save fn s sr).
Proof.
  intros w r w'. unfold torchaudio_save.
  destruct sr as [r0|]; [|by intros [= <- <-]].
  destruct s as [x|l|m]; [by intros [= <- <-]| |];
    intros Hs; by apply (keeps_write_file _ _ _ _ _ Hs).
Qed.

Lemma keeps_save_sigs mark sr i sigs : keeps_entries (save_sigs mark sr i sigs).
Proof.
  revert i. induction sigs as [|s sigs IH]; intros i; simpl.
  - apply keeps_ret.
  - destruct (sig_len s) as [n|]; [|apply keeps_raise].
    destruct (n <? 1); [apply IH|].
    apply keeps_bind; [apply keeps_torchaudio_save|intros _].
    apply keeps_bind; [apply IH|intros ?; apply keeps_ret].
Qed.

Lemma keeps_make_cache sigs sr config ct hp :
  keeps_entries (make_cache sigs sr config ct hp).
Proof.
  unfold make_cache. destruct (ATC.cache_dir config); [|apply keeps_raise].
  destruct (0 <? _); [|apply keeps_ret].
  apply keeps_bind; [apply keeps_makedirs|intros _; apply keeps_save_sigs].
Qed.

Lemma touches_write_file (Pev : Event → Prop) (Pfile : Path → Prop) p d :
  Pfile p → touches Pev Pfile (write_file p d).
Proof.
  intros HQ w r w'. unfold write_file. intros Hw.
  assert (log w' = log w
          ∧ (fs w' = fs w ∨ fs w' = <[p := File d]> (fs w)))
    as [Hlog Hfs] by (repeat case_match; simplify_eq; auto).
  split; [rewrite Hlog; auto|].
  intros q Hq c. destruct Hfs as [->| ->]; [done|].
  rewrite lookup_insert_ne; [done|]. by intros ->.
Qed.

Lemma touches_torchaudio_save (Pev : Event → Prop) (Pfile : Path → Prop)
    fn s sr :
  Pev (EvSaveAudio fn) → Pfile fn → touches Pev Pfile (torchaudio_save fn s sr).
Proof.
  intros HP HQ w r w'. unfold torchaudio_save.
  assert (∀ ev, ev ∈ log (record (EvSaveAudio fn) w) → ev ∈ log w ∨ Pev ev)
    as Hrec by (intros ev [->|?]%elem_of_cons; auto).
  destruct sr as [r0|]; [|by intros [= <- <-]].
  destruct s as [x|l|m]; [by intros [= <- <-]| |]; intros Hs;
    destruct (touches_write_file Pev Pfile _ _ HQ _ _ _ Hs) as [Hev Hf];
    (split; [|done]); intros ev Hin;
    (destruct (Hev ev Hin) as [?|?]; [by apply Hrec|by right]).
Qed.

Lemma touches_save_sigs (Pev : Event → Prop) (Pfile : Path → Prop)
    mark sr i sigs :
  (∀ j, Pev (EvSaveAudio (wav_path mark j))) →
  (∀ j, Pfile (wav_path mark j)) →
  touches Pev Pfile (save_sigs mark sr i sigs).
Proof.
  intros HP HQ. revert i. induction sigs as [|s sigs IH]; intros i; simpl.
  - apply touches_ret.
  - destruct (sig_len s) as [n|]; [|apply touches_raise].
    destruct (n <? 1); [apply IH|].
    apply touches_bind;
      [apply touches_torchaudio_save; [apply HP|apply HQ]|intros _].
    apply touches_bind; [apply IH|intros ?; apply touches_ret].
Qed.

End KeepsEntries.

Section MakeCacheMore.
Context `{Externals}.

Lemma kept_nothing (i : nat) (sigs : list (Sig Sample)) :
  Forall (λ s, sig_len s = Some 0) sigs → kept i sigs = [].
Proof.
  intros Hs. revert i. induction Hs as [|s sigs Hs _ IH]; intros i; simpl;
    [done|]. rewrite Hs. simpl. apply IH.
Qed.

Lemma kept_indices (i : nat) (sigs : list (Sig Sample)) :
  StronglySorted lt (kept i sigs).*1
  ∧ ∀ j, j ∈ (kept i sigs).*1
         ↔ (i ≤ j)%nat
           ∧ ∃ s n, sigs !! (j - i)%nat = Some s ∧ sig_len s = Some n ∧ 1 ≤ n.
Proof.
  revert i. induction sigs as [|s sigs IH]; intros i.
  - simpl. split; [constructor|]. intros j. split.
    + by intros ?%elem_of_nil.
    + by intros (_ & s & n & ? & _).
  - destruct (IH (S i)) as [Hsort Hin].
    assert (∀ j, (S i ≤ j)%nat →
              (s :: sigs) !! (j - i)%nat = sigs !! (j - S i)%nat) as Hshift.
    { intros j Hj. by replace (j - i)%nat with (S (j - S i)) by lia. }
    assert (∀ j, j ∈ (kept (S i) sigs).*1 →
              (i ≤ j)%nat
              ∧ ∃ s0 n, (s :: sigs) !! (j - i)%nat = Some s0
                        ∧ sig_len s0 = Some n ∧ 1 ≤ n) as Hold.
    { intros j (Hj & s0 & n & Hl & Hn)%Hin. split; [lia|].
      exists s0, n. by rewrite Hshift. }
    assert (∀ j s0 n, (i ≤ j)%nat → j ≠ i →
              (s :: sigs) !! (j - i)%nat = Some s0 →
              sig_len s0 = Some n → 1 ≤ n →
              j ∈ (kept (S i) sigs).*1) as Hnew.
    { intros j s0 n Hj Hne Hl Hn Hpos. apply Hin. split; [lia|].
      exists s0, n. rewrite <- Hshift by lia. done. }
    simpl. destruct (sig_len s) as [n|] eqn:Hn.
    + destruct (n <? 1) eqn:Hlt.
      * split; [done|]. intros j. split; [apply Hold|].
        intros (Hj & s0 & n0 & Hl & Hn0 & Hpos).
        destruct (decide (j = i)) as [->|Hne]; [|by eapply Hnew].
        rewrite Nat.sub_diag in Hl. simpl in Hl. simplify_eq. lia.
      * csimpl. split.
        { constructor; [done|]. apply Forall_forall.
          intros j [Hj _]%Hin. lia. }
        intros j. rewrite elem_of_cons. split.
        { intros [->|Hj]; [|by apply Hold]. split; [done|].
          rewrite Nat.sub_diag. exists s, n. simpl. split; [done|].
          split; [done|lia]. }
        intros (Hj & s0 & n0 & Hl & Hn0 & Hpos).
        destruct (decide (j = i)) as [->|Hne]; [by left|right].
        by eapply Hnew.
    + split; [done|]. intros j. split; [apply Hold|].
      intros (Hj & s0 & n0 & Hl & Hn0 & Hpos).
      destruct (decide (j = i)) as [->|Hne]; [|by eapply Hnew].
      rewrite Nat.sub_diag in Hl. simpl in Hl. simplify_eq.
Qed.

Lemma kept_lookup (sigs : list (Sig Sample)) (j : nat) s n :
  sigs !! j = Some s → sig_len s = Some n → 1 ≤ n → (j, s) ∈ kept 0 sigs.
Proof.
  intros Hl Hn Hpos.
  assert (j ∈ (kept 0 sigs).*1) as Hj.
  { apply kept_indices. split; [lia|]. exists s, n.
    by rewrite Nat.sub_0_r. }
  apply list_elem_of_fmap in Hj as ([j' s'] & -> & Hin).
  destruct (elem_of_kept _ _ _ _ Hin) as (_ & Hl' & _).
  rewrite Nat.sub_0_r in Hl'. simpl in *. by simplify_eq.
Qed.
(** X4: nothing to store.  With no signal [make_cache] returns at once
    and leaves the world as it is; with signals that are all empty it
    creates the directory, stores nothing and returns no file, and the
    directory, if it held no file, is then listed as empty by
    [get_cache]. *)
Theorem X4_make_cache_nothing_to_store (sigs : list (Sig Sample))
    (sr : option Z) (config : ATC.t) (ct : string) (hp : list HashParam)
    (w : World) (cd : Path) :
  ATC.cache_dir config = Some cd →
  Forall (λ s, sig_len s = Some 0) sigs →
  let mark := mark_path cd ct hp in
  let run := make_cache sigs sr config ct hp w in
  (sigs = [] → run = (Ok [], w))
  ∧ (sigs ≠ [] → ∀ files, run.1 = Ok files →
       files = []
       ∧ node_at (fs run.2) mark = Some Dir
       ∧ (∀ q c, fs run.2 !! q = Some (File c) ↔ fs w !! q = Some (File c))
       ∧ ((∀ q, ¬ visible_file (fs w) mark q) →
          get_cache config ct hp run.2 = (Ok (Some []), run.2))).
Proof.
  intros Hcd Hempty mark run. split.
  - intros ->. unfold run, make_cache. by rewrite Hcd.
  - intros Hne files Hrun. destruct run as [r w'] eqn:Hr. simpl in *.
    subst r.
    destruct (make_cache_ok _ _ _ _ _ _ _ _ Hr)
      as (cd' & Hcd' & Hfiles & _ & _).
    rewrite Hcd in Hcd'. injection Hcd' as <-.
    assert (files = []) as ->.
    { rewrite Hfiles. unfold kept_files. by rewrite kept_nothing. }
    destruct (make_cache_mark _ _ _ _ _ _ _ _ _ Hcd Hr Hne) as [Hd _].
    destruct (make_cache_frame _ _ _ _ _ _ _ _ Hr) as (Hkeep & Hback & _).
    split; [done|]. split; [done|]. split.
    + intros q c. split.
      * apply Hback. apply not_elem_of_nil.
      * apply Hkeep. apply not_elem_of_nil.
    + intros Hnone.
      pose proof (get_cache_cases config ct hp w' cd Hcd) as Hg.
      fold mark in Hg, Hd. rewrite Hd in Hg.
      destruct Hg as (l & -> & _ & Hl).
      destruct l as [|q l]; [done|]. exfalso.
      pose proof (make_cache_visible _ _ _ _ _ _ _ _ _ Hcd Hr Hnone q) as Hv.
      eapply elem_of_nil, Hv, Hl. by left.
Qed.

(** X5: the files of [make_cache] are named after the positions of the
    signals in its input: [<i>.wav] for every position [i] that holds a
    signal of length at least one, in increasing order of [i]. *)
Theorem X5_make_cache_file_names (sigs : list (Sig Sample)) (sr : option Z)
    (config : ATC.t) (ct : string) (hp : list HashParam) (w : World)
    (cd : Path) (files : list Path) :
  ATC.cache_dir config = Some cd →
  (make_cache sigs sr config ct hp w).1 = Ok files →
  ∃ js, files = wav_path (mark_path cd ct hp) <$> js
        ∧ StronglySorted lt js
        ∧ ∀ i, i ∈ js
               ↔ ∃ s n, sigs !! i = Some s ∧ sig_len s = Some n ∧ 1 ≤ n.
Proof.
  intros Hcd Hrun.
  destruct (make_cache sigs sr config ct hp w) as [r w'] eqn:Hr.
  simpl in Hrun. subst r.
  destruct (make_cache_ok _ _ _ _ _ _ _ _ Hr) as (cd' & Hcd' & Hfiles & _).
  rewrite Hcd in Hcd'. injection Hcd' as <-.
  destruct (kept_indices 0 sigs) as [Hsort Hin].
  exists (kept 0 sigs).*1. split; [|split; [done|]].
  - rewrite Hfiles. unfold kept_files. by rewrite <- list_fmap_compose.
  - intros i. rewrite Hin, Nat.sub_0_r. split; [by intros [_ ?]|].
    intros ?. split; [lia|done].
Qed.

(** X6: [make_cache] writes the [i]-th signal, when it has samples, to
    the file [<i>.wav] of its directory: the file is among those
    returned, and it is the one that [torchaudio.save] was given that
    signal and the sample rate for. *)
Theorem X6_make_cache_file_contents (sigs : list (Sig Sample))
    (sr : option Z) (config : ATC.t) (ct : string) (hp : list HashParam)
    (w : World) (cd : Path) (files : list Path) (i : nat) (s : Sig Sample)
    (n : Z) :
  ATC.cache_dir config = Some cd →
  let run := make_cache sigs sr config ct hp w in
  run.1 = Ok files →
  sigs !! i = Some s → sig_len s = Some n → 1 ≤ n →
  let fn := wav_path (mark_path cd ct hp) i in
  fn ∈ files
  ∧ ∃ r, sr = Some r
         ∧ fs run.2 !! fn = Some (File (FAudio (sig_data s) r)).
Proof.
  intros Hcd run Hrun Hi Hn Hpos fn.
  destruct run as [r0 w'] eqn:Hr. simpl in *. subst r0.
  destruct (make_cache_ok _ _ _ _ _ _ _ _ Hr)
    as (cd' & Hcd' & Hfiles & _ & Hcons).
  rewrite Hcd in Hcd'. injection Hcd' as <-.
  pose proof (kept_lookup _ _ _ _ Hi Hn Hpos) as Hk.
  split.
  { rewrite Hfiles. unfold kept_files. apply list_elem_of_fmap.
    by exists (i, s). }
  assert (sigs ≠ []) as Hne by (by intros ->).
  destruct (Hcons Hne) as (w1 & _ & Hsave).
  apply save_sigs_ok in Hsave as (_ & _ & Hkept & _).
  destruct (Hkept i s Hk) as (r & -> & Hfs). by exists r.
Qed.

(** X7: whatever its outcome, [make_cache] removes nothing, changes no
    file but wav files of its own directory, which lies in
    [config.cache_dir], and logs nothing but the creation of that
    directory and the saving of these files. *)
Theorem X7_make_cache_footprint (sigs : list (Sig Sample)) (sr : option Z)
    (config : ATC.t) (ct : string) (hp : list HashParam) (w : World)
    (cd : Path) :
  ATC.cache_dir config = Some cd →
  let mark := mark_path cd ct hp in
  let run := make_cache sigs sr config ct hp w in
  (∀ q, is_Some (fs w !! q) → is_Some (fs run.2 !! q))
  ∧ (∀ q c, (∀ i, q ≠ wav_path mark i) →
       fs run.2 !! q = Some (File c) ↔ fs w !! q = Some (File c))
  ∧ (∀ i, path_inside cd (wav_path mark i))
  ∧ (∀ ev, ev ∈ log run.2 →
       ev ∈ log w ∨ ev = EvMakedirs mark
       ∨ ∃ i, ev = EvSaveAudio (wav_path mark i)).
Proof.
  intros Hcd mark run. destruct run as [r w'] eqn:Hr. simpl.
  split; [by apply (keeps_make_cache _ _ _ _ _ _ _ _ Hr)|].
  assert (touches (λ ev, ev = EvMakedirs mark
                         ∨ ∃ i, ev = EvSaveAudio (wav_path mark i))
            (λ q, ∃ i, q = wav_path mark i)
            (make_cache sigs sr config ct hp)) as Ht.
  { unfold make_cache. rewrite Hcd. fold mark.
    destruct (0 <? _); [|apply touches_ret].
    apply touches_bind; [apply touches_makedirs; by left|intros _].
    apply touches_save_sigs; eauto. }
  destruct (Ht _ _ _ Hr) as [Hev Hf]. split; [|split; [|done]].
  - intros q c Hq. apply Hf. intros [i ->]. by apply (Hq i).
  - intros i. apply wav_path_inside.
Qed.

Lemma get_after_make (sigs : list (Sig Sample)) (sr : option Z)
    (config : ATC.t) (ct : string) (hp : list HashParam)
    (w w' : World) (cd : Path) (files : list Path) :
  ATC.cache_dir config = Some cd →
  (∀ q, ¬ visible_file (fs w) (mark_path cd ct hp) q) →
  make_cache sigs sr config ct hp w = (Ok files, w') → files ≠ [] →
  ∃ l, get_cache config ct hp w' = (Ok (Some l), w') ∧ l ≡ₚ files.
Proof.
  intros Hcd Hnone Hr Hne.
  assert (sigs ≠ []) as Hsne.
  { intros ->. destruct (make_cache_ok _ _ _ _ _ _ _ _ Hr)
      as (cd' & _ & Hf & _). by rewrite Hf in Hne. }
  destruct (make_cache_mark _ _ _ _ _ _ _ _ _ Hcd Hr Hsne) as [Hd _].
  pose proof (get_cache_cases config ct hp w' cd Hcd) as Hg.
  rewrite Hd in Hg. destruct Hg as (l & Hgl & Hnd & Hl).
  exists l. split; [done|].
  apply NoDup_Permutation; [done| |].
  - destruct (make_cache_ok _ _ _ _ _ _ _ _ Hr) as (cd' & _ & -> & _).
    apply NoDup_kept_files.
  - intros q. rewrite Hl.
    apply (make_cache_visible _ _ _ _ _ _ _ _ _ Hcd Hr Hnone).
Qed.

(** X8: the files that [make_cache] stores in a directory without
    visible file are the files that [get_cache] then lists. *)
Theorem X8_get_cache_after_make_cache (sigs : list (Sig Sample))
    (sr : option Z) (config : ATC.t) (ct : string) (hp : list HashParam)
    (w : World) (cd : Path) (files : list Path) :
  ATC.cache_dir config = Some cd →
  (∀ q, ¬ visible_file (fs w) (mark_path cd ct hp) q) →
  let run := make_cache sigs sr config ct hp w in
  run.1 = Ok files → files ≠ [] →
  ∃ l, get_cache config ct hp run.2 = (Ok (Some l), run.2) ∧ l ≡ₚ files.
Proof.
  intros Hcd Hnone run Hrun Hne. destruct run as [r w'] eqn:Hr.
  simpl in *. subst r. by eapply get_after_make.
Qed.

(** X9: the key of a wav cache is the text of the parameters, one after
    the other with nothing between them: parameter lists with the same
    text share one cache directory, and [get_cache] under one of them
    finds what [make_cache] stored under the other. *)
Theorem X9_cache_key_is_concatenation (sigs : list (Sig Sample))
    (sr : option Z) (config : ATC.t) (ct : string)
    (hp hp' : list HashParam) (w : World) (cd : Path)
    (files : list Path) :
  String.concat "" (map str_param hp) = String.concat "" (map str_param hp') →
  ATC.cache_dir config = Some cd →
  (∀ q, ¬ visible_file (fs w) (mark_path cd ct hp) q) →
  let run := make_cache sigs sr config ct hp w in
  run.1 = Ok files → files ≠ [] →
  mark_path cd ct hp' = mark_path cd ct hp
  ∧ ∃ l, get_cache config ct hp' run.2 = (Ok (Some l), run.2) ∧ l ≡ₚ files.
Proof.
  intros Hkey Hcd Hnone run Hrun Hne. destruct run as [r w'] eqn:Hr.
  simpl in *. subst r.
  assert (mark_path cd ct hp' = mark_path cd ct hp) as Hmark
    by (unfold mark_path; by rewrite Hkey).
  split; [done|].
  destruct (get_after_make _ _ _ _ _ _ _ _ _ Hcd Hnone Hr Hne)
    as (l & Hl & Hperm).
  exists l. split; [|done]. rewrite <- Hl. unfold get_cache.
  rewrite Hcd. by rewrite Hmark.
Qed.

End MakeCacheMore.

(** ** The operations on a miss *)

Section OperationsMore.
Context `{Externals}.

Lemma get_cache_fs config ct hp (w1 w2 : World) :
  fs w1 = fs w2 →
  (get_cache config ct hp w1).1 = (get_cache config ct hp w2).1.
Proof.
  intros Hfs. unfold get_cache.
  destruct (ATC.cache_dir config) as [cd|]; [|done]. munfold.
  unfold exists_, path_exists, get_files. cbn beta. rewrite !Hfs.
  destruct (bool_decide _); [|done]. cbn beta iota. rewrite ?Hfs.
  by destruct (node_at (fs w2) _) as [[|?]|].
Qed.


Lemma item_path_of_eq ip0 path (w : World) :
  item_path_of (IPathLike ip0) path w = (Ok (item_path_in w path ip0), w).
Proof. done. Qed.

(** X10: on a miss [resample_item] loads the file, resamples it and
    stores the result as the one file [0.wav] at the new rate; it
    returns that file with the label, or nothing when the resampled
    signal is empty. *)
Theorem X10_resample_item_miss (ip0 : PathLike) (label : Label)
    (config : ATC.t) (path : Path) (w : World) (cd : Path)
    (r : list (Path * Label)) :
  ATC.cache_dir config = Some cd →
  let item_path := item_path_in w path ip0 in
  let sr_new := ATC.resample_to config in
  let mark := mark_path cd "rs" [HPath item_path; HOptInt sr_new] in
  node_at (fs w) mark = None →
  let run := resample_item (IPathLike ip0, label) config path w in
  run.1 = Ok r →
  ∃ m sr sig',
    node_at (fs w) (as_Path item_path) = Some (File (FAudio m sr))
    ∧ tfm_resample (S2 m) sr sr_new = Some sig'
    ∧ ((r = [] ∧ sig_len sig' = Some 0)
       ∨ (∃ rate, sr_new = Some rate
                  ∧ r = [(wav_path mark 0, label)]
                  ∧ fs run.2 !! wav_path mark 0
                    = Some (File (FAudio (sig_data sig') rate)))).
Proof.
  intros Hcd item_path sr_new mark Hmiss run. unfold run.
  rewrite resample_item_shape. munfold. rewrite item_path_of_eq.
  fold item_path. unfold cached_files. munfold.
  pose proof (get_cache_cases config "rs"
                [HPath item_path; HOptInt sr_new] w cd Hcd) as Hg.
  fold mark in Hg. rewrite Hmiss in Hg. fold sr_new. rewrite Hg. simpl.
  unfold compute_resample. munfold. unfold torchaudio_load.
  destruct (node_at (fs w) (as_Path item_path)) as [[|[m sr|t]]|] eqn:Hnode;
    [done| |done..].
  fold sr_new. destruct (tfm_resample (S2 m) sr sr_new) as [sig'|] eqn:Hrs;
    [|done].
  munfold. cbn beta iota.
  match goal with
  | |- context [make_cache ?a ?b ?c ?d ?e ?f] =>
      destruct (make_cache a b c d e f) as [[files|e0] w'] eqn:Hm; [|done]
  end.
  simpl. intros [= <-]. exists m, sr, sig'. split; [done|]. split; [done|].
  destruct (make_cache_ok _ _ _ _ _ _ _ _ Hm)
    as (cd' & Hcd' & Hfiles & _ & Hcons).
  rewrite Hcd in Hcd'. injection Hcd' as <-. fold mark in Hfiles, Hcons.
  destruct (Hcons ltac:(done)) as (w1 & _ & Hsave).
  apply save_sigs_ok in Hsave as (_ & _ & Hkept & _).
  unfold kept_files in Hfiles. simpl in Hfiles, Hkept.
  destruct (sig_len sig') as [n|] eqn:Hn.
  - destruct (n <? 1) eqn:Hlt.
    + left. subst files. split; [done|].
      pose proof (Z.ltb_lt n 1) as Hn1. destruct sig'; simpl in Hn;
        simplify_eq; f_equal; lia.
    + right. destruct (Hkept 0%nat sig' ltac:(by left)) as (rate & -> & Hfs).
      exists rate. subst files. done.
  - unfold make_cache in Hm. rewrite Hcd in Hm. simpl in Hm. munfold.
    destruct (makedirs _ _) as [[[]|?] ?]; [|done]. simpl in Hm.
    by rewrite Hn in Hm.
Qed.

(** X11: on a miss [remove_silence] stores the chunks of the signal, one
    file for every chunk that is not empty, at the rate of the input. *)
Theorem X11_remove_silence_miss (ip0 : PathLike) (label : Label)
    (config : ATC.t) (path : Path) (w : World) (cd : Path)
    (r : list (Path * Label)) :
  ATC.cache_dir config = Some cd →
  let item_path := item_path_in w path ip0 in
  let st := ATC.silence_threshold config in
  let sp := ATC.silence_padding config in
  let mark := mark_path cd "sh" [HPath item_path; HInt st; HInt sp] in
  node_at (fs w) mark = None →
  let run := remove_silence (IPathLike ip0, label) config path w in
  run.1 = Ok r →
  ∃ m sr sigs js,
    node_at (fs w) (as_Path item_path) = Some (File (FAudio m sr))
    ∧ tfm_chop_silence (S2 m) sr st sp = Some sigs
    ∧ r = (λ j, (wav_path mark j, label)) <$> js
    ∧ StronglySorted lt js
    ∧ (∀ i, i ∈ js
            ↔ ∃ s n, sigs !! i = Some s ∧ sig_len s = Some n ∧ 1 ≤ n)
    ∧ (∀ i s, i ∈ js → sigs !! i = Some s →
         fs run.2 !! wav_path mark i = Some (File (FAudio (sig_data s) sr))).
Proof.
  intros Hcd item_path st sp mark Hmiss run. unfold run.
  rewrite remove_silence_shape. munfold. rewrite item_path_of_eq.
  fold item_path. unfold cached_files. munfold.
  pose proof (get_cache_cases config "sh"
                [HPath item_path; HInt st; HInt sp] w cd Hcd) as Hg.
  fold mark in Hg. rewrite Hmiss in Hg. fold st sp. rewrite Hg. simpl.
  unfold compute_silence. munfold. unfold torchaudio_load.
  destruct (node_at (fs w) (as_Path item_path)) as [[|[m sr|t]]|] eqn:Hnode;
    [done| |done..].
  fold st sp. destruct (tfm_chop_silence (S2 m) sr st sp) as [sigs|] eqn:Hch;
    [|done].
  munfold. cbn beta iota.
  match goal with
  | |- context [make_cache ?a ?b ?c ?d ?e ?f] =>
      destruct (make_cache a b c d e f) as [[files|e0] w'] eqn:Hm; [|done]
  end.
  simpl. intros [= <-].
  destruct (make_cache_ok _ _ _ _ _ _ _ _ Hm)
    as (cd' & Hcd' & Hfiles & _ & Hcons).
  rewrite Hcd in Hcd'. injection Hcd' as <-. fold mark in Hfiles, Hcons.
  destruct (kept_indices 0 sigs) as [Hsort Hin].
  exists m, sr, sigs, (kept 0 sigs).*1.
  split; [done|]. split; [done|]. split; [|split; [done|split]].
  - rewrite zip_label_fmap, Hfiles. unfold kept_files.
    by rewrite <- !list_fmap_compose.
  - intros i. rewrite Hin, Nat.sub_0_r. split; [by intros [_ ?]|].
    intros ?. split; [lia|done].
  - intros i s Hi Hs. apply Hin in Hi as (_ & s' & n & Hs' & Hn & Hpos).
    rewrite Nat.sub_0_r in Hs'. assert (s' = s) as -> by congruence.
    assert (sigs ≠ []) as Hne by (by intros ->).
    destruct (Hcons Hne) as (w1 & _ & Hsave).
    apply save_sigs_ok in Hsave as (_ & _ & Hkept & _).
    destruct (Hkept i s (kept_lookup _ _ _ _ Hs Hn Hpos))
      as (r0 & [= <-] & Hfs). done.
Qed.

(** X12: a segment size that comes to zero samples makes
    [segment_items] raise [ZeroDivisionError] on a miss, after it has
    loaded the file; no file is written. *)
Theorem X12_segment_items_zero_size (ip0 : PathLike) (label : Label)
    (config : ATC.t) (path : Path) (w : World) (ms sr n : Z)
    (m : list (list Sample)) (o : option (list Path)) :
  ATC.segment_size config = Some ms →
  let item_path := item_path_in w path ip0 in
  node_at (fs w) (as_Path item_path) = Some (File (FAudio m sr)) →
  ms_to_samples ms sr = 0 →
  sig_len (sig_squeeze (S2 m)) = Some n →
  (get_cache config "s" [HPath item_path; HInt 0; HLabel label] w).1 = Ok o →
  not_files o = true →
  let run := segment_items (IPathLike ip0, label) config path w in
  run.1 = Raise ZeroDivisionError
  ∧ fs run.2 = fs w
  ∧ log run.2 = EvLoadAudio (as_Path item_path) :: log w.
Proof.
  intros Hms item_path Hnode Hzero Hlen Hget Ho run. unfold run, segment_items.
  munfold. rewrite item_path_of_eq. fold item_path.
  unfold torchaudio_load. rewrite Hnode, Hms, Hzero.
  set (w1 := record (EvLoadAudio (as_Path item_path)) w).
  pose proof (get_cache_fs config "s"
                [HPath item_path; HInt 0; HLabel label] w1 w eq_refl) as Hfs.
  rewrite Hget in Hfs.
  pose proof (get_cache_world config "s"
                [HPath item_path; HInt 0; HLabel label] w1) as Hw.
  destruct (get_cache config "s" _ w1) as [r1 w2]. simpl in Hfs, Hw.
  subst r1 w2. rewrite Ho. unfold segments. rewrite Hlen. done.
Qed.

End OperationsMore.

Section SegmentsMore.
Context `{Externals}.

Lemma kept_app (i : nat) (l1 l2 : list (Sig Sample)) :
  kept i (l1 ++ l2) = kept i l1 ++ kept (i + length l1) l2.
Proof.
  revert i. induction l1 as [|s l1 IH]; intros i; simpl.
  - by rewrite Nat.add_0_r.
  - rewrite IH. replace (S i + length l1)%nat with (i + S (length l1))%nat
      by lia.
    destruct (sig_len s) as [n|]; [|done]. by destruct (n <? 1).
Qed.

Lemma kept_all (i : nat) (ls : list (list Sample)) :
  Forall (λ l, l ≠ []) ls →
  kept i (S1 <$> ls) = zip (seq i (length ls)) (S1 <$> ls).
Proof.
  intros Hls. revert i. induction Hls as [|l ls Hl _ IH]; intros i; [done|].
  csimpl. rewrite IH.
  destruct (Z.of_nat (length l) <? 1) eqn:E; [|done].
  by apply length_lt_1 in E.
Qed.

(** X13: the number and the sizes of the segment files.  A signal of
    [n] samples cut by a positive segment size gives [ceil(n / segsize)]
    files, numbered from 0 without gap; each holds between 1 and
    [segsize] samples, and all but the last hold exactly [segsize]. *)
Theorem X13_segment_file_count (sig : list Sample) (segsize sr : Z)
    (config : ATC.t) (hp : list HashParam) (w : World) (cd : Path)
    (sigs : list (Sig Sample)) (files : list Path) :
  sig ≠ [] → 0 < segsize →
  ATC.cache_dir config = Some cd →
  (segments (S1 sig) segsize w).1 = Ok sigs →
  let run := make_cache sigs (Some sr) config "s" hp w in
  run.1 = Ok files →
  let n := Z.of_nat (length sig) in
  Z.of_nat (length files) = (n + segsize - 1) `div` segsize
  ∧ ∀ i fn, files !! i = Some fn →
      fn = wav_path (mark_path cd "s" hp) i
      ∧ ∃ l, fs run.2 !! fn = Some (File (FAudio [l] sr))
             ∧ 1 ≤ Z.of_nat (length l) ≤ segsize
             ∧ (Z.of_nat i + 1 < Z.of_nat (length files) →
                Z.of_nat (length l) = segsize).
Proof.
  intros Hsig Hs Hcd Hseg run Hrun n.
  rewrite segments_S1 in Hseg by done. simpl in Hseg. injection Hseg as <-.
  subst run. rewrite segment_slices_eq in Hrun |- * by done.
  set (sz := Z.to_nat segsize) in *.
  set (k := (length sig / sz)%nat) in *.
  set (full := (λ i, take sz (drop (i * sz) sig)) <$> seq 0 k) in *.
  set (rest := drop (k * sz) sig) in *.
  assert (sz ≠ 0)%nat as Hsz by (unfold sz; lia).
  assert (k * sz ≤ length sig)%nat as Hle.
  { unfold k. rewrite Nat.mul_comm. by apply Nat.Div0.mul_div_le. }
  assert (length sig < (k + 1) * sz)%nat as Hlt.
  { unfold k. pose proof (Nat.div_mod_eq (length sig) sz).
    pose proof (Nat.mod_upper_bound (length sig) sz Hsz). lia. }
  assert (length full = k) as Hfull
    by (unfold full; by rewrite length_fmap, length_seq).
  assert (Forall (λ l, length l = sz) full) as Hsizes.
  { unfold full. apply Forall_fmap, Forall_forall. intros i Hi.
    apply elem_of_seq in Hi. simpl. rewrite length_take, length_drop. nia. }
  assert (length rest = (length sig - k * sz)%nat) as Hrest
    by (unfold rest; by rewrite length_drop).
  assert (Forall (λ l, l ≠ []) full) as Hne.
  { eapply Forall_impl; [exact Hsizes|]. intros l Hl ->. simpl in Hl. lia. }
  destruct (make_cache _ _ _ _ _ _) as [r0 w'] eqn:Hr. simpl in Hrun.
  subst r0. simpl.
  destruct (make_cache_ok _ _ _ _ _ _ _ _ Hr)
    as (cd' & Hcd' & Hfiles & _ & Hcons).
  rewrite Hcd in Hcd'. injection Hcd' as <-.
  destruct (Hcons ltac:(rewrite fmap_app; by intros [_ ?]%app_eq_nil))
    as (w1 & _ & Hsave).
  apply save_sigs_ok in Hsave as (_ & _ & Hkept & _).
  set (mark := mark_path cd "s" hp) in *.
  assert (kept 0 (S1 <$> full ++ [rest])
          = zip (seq 0 k) (S1 <$> full)
            ++ (if decide (rest = []) then [] else [(k, S1 rest)])) as Hk.
  { rewrite fmap_app, kept_app, kept_all by done.
    rewrite length_fmap, Hfull. f_equal. simpl.
    destruct (decide (rest = [])) as [->|Hr0]; [done|].
    destruct (Z.of_nat (length rest) <? 1) eqn:E; [|done].
    by apply length_lt_1 in E. }
  assert (length (zip (seq 0 k) (S1 <$> full)) = k) as Hzip.
  { rewrite length_zip, length_seq, length_fmap, Hfull. lia. }
  assert (length files
          = (k + if decide (rest = []) then 0 else 1)%nat) as Hcount.
  { rewrite Hfiles. unfold kept_files. rewrite length_fmap, Hk, length_app.
    rewrite Hzip. by destruct (decide (rest = [])). }
  split.
  - rewrite Hcount. unfold n.
    assert (rest = [] ↔ length sig = (k * sz)%nat) as Hiff.
    { rewrite <- length_zero_iff_nil, Hrest. lia. }
    assert (segsize = Z.of_nat sz) as Hsegsz by (unfold sz; lia).
    destruct (decide (rest = [])) as [He|He].
    + apply Hiff in He. apply Z.div_unique with (r := segsize - 1); nia.
    + assert (length sig ≠ (k * sz)%nat) by (by rewrite <- Hiff).
      apply Z.div_unique
        with (r := Z.of_nat (length sig) - Z.of_nat k * segsize - 1); nia.
  - intros i fn Hi. rewrite Hfiles in Hi. unfold kept_files in Hi.
    apply list_lookup_fmap_Some in Hi as ([j s] & -> & Hjs). simpl.
    pose proof (Hkept j s ltac:(by eapply list_elem_of_lookup_2))
      as (r & [= <-] & Hfs).
    rewrite Hk in Hjs. apply lookup_app_Some in Hjs as [Hjs|[Hge Hjs]].
    + apply lookup_zip_with_Some in Hjs as (j' & s' & [= <- <-] & Hj & Hl).
      apply lookup_seq in Hj as [-> Hik]. simpl in *.
      apply list_lookup_fmap_Some in Hl as (l & -> & Hl).
      split; [done|]. exists l. split; [done|].
      pose proof (proj1 (Forall_lookup _ _) Hsizes _ _ Hl) as Hlen.
      simpl in Hlen. unfold sz in *. lia.
    + rewrite Hzip in Hge, Hjs.
      destruct (decide (rest = [])) as [He|He]; [done|].
      destruct (i - k)%nat as [|?] eqn:Hik; [|done].
      simpl in Hjs. injection Hjs as <- <-.
      assert (i = k) as -> by lia. split; [done|]. exists rest.
      split; [done|].
      assert (length rest ≠ 0)%nat by (by rewrite length_zero_iff_nil).
      rewrite Hcount. unfold sz in *. lia.
Qed.

Lemma segments_S2_whole (m : list (list Sample)) (segsize : Z) (w : World) :
  Z.of_nat (length m) < segsize →
  segments (S2 m) segsize w = (Ok [S2 m], w).
Proof.
  intros Hlt. unfold segments. cbn [sig_len].
  destruct (segsize =? 0) eqn:E; [lia|]. munfold.
  rewrite Z.quot_small by lia. change (seqZ 0 (0 + 1)) with [0].
  cbn [omap list_omap sig_slice]. do 3 f_equal.
  rewrite Z.min_r by lia. rewrite py_slice_in_range by lia.
  change (Z.to_nat (0 * segsize)) with 0%nat.
  rewrite drop_0, Nat.sub_0_r, Nat2Z.id. f_equal. by apply take_ge.
Qed.

(** X14: a signal of several channels is not cut in time.  [squeeze]
    leaves it two-dimensional, its length is the number of channels,
    and with a segment size above that number [segment_items] stores
    the whole signal as the one file [0.wav]. *)
Theorem X14_segment_items_multichannel (ip0 : PathLike) (label : Label)
    (config : ATC.t) (path : Path) (w : World) (cd : Path) (ms sr : Z)
    (m : list (list Sample)) (r : list (Path * Label)) :
  ATC.cache_dir config = Some cd →
  ATC.segment_size config = Some ms →
  let item_path := item_path_in w path ip0 in
  let segsize := ms_to_samples ms sr in
  let mark := mark_path cd "s" [HPath item_path; HInt segsize; HLabel label] in
  node_at (fs w) (as_Path item_path) = Some (File (FAudio m sr)) →
  sig_squeeze (S2 m) = S2 m → m ≠ [] →
  Z.of_nat (length m) < segsize →
  node_at (fs w) mark = None →
  let run := segment_items (IPathLike ip0, label) config path w in
  run.1 = Ok r →
  r = [(wav_path mark 0, label)]
  ∧ fs run.2 !! wav_path mark 0 = Some (File (FAudio m sr)).
Proof.
  intros Hcd Hms item_path segsize mark Hnode Hsq Hm Hlt Hmiss run.
  unfold run, segment_items. munfold. rewrite item_path_of_eq.
  fold item_path. unfold torchaudio_load. rewrite Hnode, Hms. fold segsize.
  set (w1 := record (EvLoadAudio (as_Path item_path)) w).
  pose proof (get_cache_cases config "s"
                [HPath item_path; HInt segsize; HLabel label] w1 cd Hcd)
    as Hg.
  fold mark in Hg. change (fs w1) with (fs w) in Hg. rewrite Hmiss in Hg.
  rewrite Hg. cbn [not_files]. cbn beta iota. rewrite Hsq.
  rewrite segments_S2_whole by lia.
  match goal with
  | |- context [make_cache ?a ?b ?c ?d ?e ?f] =>
      destruct (make_cache a b c d e f) as [[files|e0] w'] eqn:Hmc; [|done]
  end.
  simpl. intros [= <-].
  destruct (make_cache_ok _ _ _ _ _ _ _ _ Hmc)
    as (cd' & Hcd' & Hfiles & _ & Hcons).
  rewrite Hcd in Hcd'. injection Hcd' as <-. fold mark in Hfiles, Hcons.
  destruct (Hcons ltac:(done)) as (w2 & _ & Hsave).
  apply save_sigs_ok in Hsave as (_ & _ & Hkept & _).
  unfold kept_files in Hfiles. simpl in Hfiles, Hkept.
  destruct (Z.of_nat (length m) <? 1) eqn:E1.
  { apply Z.ltb_lt in E1. destruct m; [done|simpl in E1; lia]. }
  destruct (Hkept 0%nat (S2 m) ltac:(by left)) as (r0 & [= <-] & Hfs).
  subst files. done.
Qed.

End SegmentsMore.

(** ** The items after pre-processing *)

Section PipelineMore.
Context `{Externals}.

Lemma mapM_ok {A B} (f : A → M B) (items : list A) (w w' : World)
    (rows : list B) :
  mapM f items w = (Ok rows, w') →
  Forall2 (λ i row, ∃ w1 w2, f i w1 = (Ok row, w2)) items rows.
Proof.
  revert w w' rows.
  induction items as [|i items IH]; intros w w' rows; simpl.
  - munfold. intros [= <- _]. constructor.
  - munfold. destruct (f i w) as [[row|e] w1] eqn:Hf; [|done].
    destruct (mapM f items w1) as [[rows'|e] w2] eqn:Hm; [|done].
    intros [= <- _]. constructor; eauto.
Qed.

Lemma get_cache_inside config ct hp (w w' : World) l cd :
  ATC.cache_dir config = Some cd →
  get_cache config ct hp w = (Ok (Some l), w') →
  Forall (path_inside cd) l.
Proof.
  intros Hcd Hg. pose proof (get_cache_cases config ct hp w cd Hcd) as Hc.
  destruct (node_at (fs w) (mark_path cd ct hp)) as [[|c]|];
    [|congruence..].
  destruct Hc as (l' & Hgl & _ & Hl). rewrite Hg in Hgl.
  injection Hgl as <-. apply Forall_forall.
  intros q (n & c & -> & _)%Hl. unfold path_inside, mark_path, path_child.
  simpl. split; [done|]. rewrite <- (assoc_L (++)). by eexists.
Qed.

Lemma cached_files_inside config ct hp compute (w w' : World) files cd :
  ATC.cache_dir config = Some cd →
  cached_files config ct hp compute w = (Ok files, w') →
  Forall (path_inside cd) files.
Proof.
  intros Hcd. unfold cached_files. munfold.
  destruct (get_cache config ct hp w) as [[o|e] w1] eqn:Hg; [|done].
  destruct (not_files o) eqn:Ho.
  - destruct (compute w1) as [[[sigs sr]|e] w2]; [|done]. intros Hm.
    by destruct (make_cache_writes_inside _ _ _ _ _ _ _ _ _ Hcd Hm).
  - destruct o as [l|]; [|done]. intros [= <- _]. simpl.
    by eapply get_cache_inside.
Qed.

Lemma pre_op_inside (o : PreOp) (item : Item) (label : Label)
    (config : ATC.t) (path : Path) (w w' : World) (r : list (Path * Label))
    (cd : Path) :
  ATC.cache_dir config = Some cd →
  pre_op o (item, label) config path w = (Ok r, w') →
  Forall (λ fl, path_inside cd fl.1 ∧ fl.2 = label) r.
Proof.
  intros Hcd.
  assert (∀ files, Forall (path_inside cd) files →
            Forall (λ fl, path_inside cd fl.1 ∧ fl.2 = label)
              (zip_label files label)) as Hzip.
  { intros files Hf. rewrite zip_label_fmap. apply Forall_fmap.
    eapply Forall_impl; [exact Hf|]. done. }
  destruct o; cbn [pre_op].
  - rewrite resample_item_shape. munfold.
    destruct (item_path_of item path w) as [[ip|e] w1]; [|done].
    destruct (cached_files _ _ _ _ w1) as [[files|e] w2] eqn:Hc; [|done].
    intros [= <- _]. eapply Hzip, cached_files_inside; eauto.
  - rewrite remove_silence_shape. munfold.
    destruct (item_path_of item path w) as [[ip|e] w1]; [|done].
    destruct (cached_files _ _ _ _ w1) as [[files|e] w2] eqn:Hc; [|done].
    intros [= <- _]. eapply Hzip, cached_files_inside; eauto.
  - rewrite segment_items_shape. munfold.
    destruct (item_path_of item path w) as [[ip|e] w1]; [|done].
    destruct (torchaudio_load _ w1) as [[[sig sr]|e] w2]; [|done].
    destruct (ATC.segment_size config) as [ms|]; [|done].
    destruct (cached_files _ _ _ _ w2) as [[files|e] w3] eqn:Hc; [|done].
    intros [= <- _]. eapply Hzip, cached_files_inside; eauto.
Qed.


Lemma flat_stage_out (b : bool) (o : PreOp) (config : ATC.t) (path : Path)
    (items out : list (Item * Label)) (w w' : World) (cd : Path) :
  ATC.cache_dir config = Some cd →
  flat_stage b (pre_op o) config path items w = (Ok out, w') →
  (if b then Forall (cache_item cd) out.*1 else out = items)
  ∧ out.*2 ⊆ items.*2.
Proof.
  intros Hcd. unfold flat_stage. destruct b; [|by intros [= <- _]].
  munfold.
  destruct (mapM (M := M) _ items w) as [[rows|e] w1] eqn:Hm; [|done].
  intros [= <- _]. apply mapM_ok in Hm.
  assert (Forall (λ fl, path_inside cd fl.1 ∧ fl.2 ∈ items.*2)
            (concat rows)) as Hall.
  { apply Forall_concat. clear -Hm Hcd.
    induction Hm as [|[it lab] row items rows (w1 & w2 & Hf) _ IH];
      [constructor|].
    constructor.
    - pose proof (pre_op_inside _ _ _ _ _ _ _ _ _ Hcd Hf) as Hrow.
      eapply Forall_impl; [exact Hrow|]. intros fl [? ->].
      split; [done|]. simpl. by left.
    - eapply Forall_impl; [exact IH|]. intros row' Hrow'.
      eapply Forall_impl; [exact Hrow'|]. intros fl [? ?].
      split; [done|]. simpl. by right. }
  split.
  - rewrite <- list_fmap_compose. apply Forall_fmap.
    eapply Forall_impl; [exact Hall|]. intros fl [? _]. simpl.
    by exists fl.1.
  - rewrite <- list_fmap_compose. intros l Hl.
    apply list_elem_of_fmap in Hl as (fl & -> & Hfl).
    by apply (proj1 (Forall_forall _ _) Hall fl Hfl).
Qed.

Lemma stage_eq (b : bool)
    (f : Item * Label → ATC.t → Path → M (list (Path * Label)))
    (config : ATC.t) (path : Path) (items : list (Item * Label))
    (w : World) :
  (if b then run_stage f config path items else mret items) w
  = flat_stage b f config path items w.
Proof. destruct b; [apply run_stage_flat|done]. Qed.

(** X15: after pre-processing every input is a file of the cache
    directory, and every label is one of the labels there were. *)
Theorem X15_pre_process_items_in_cache (self self' : AudioLabelList.t)
    (w : World) (cd : Path) :
  let x := AudioLabelList.x self in
  let cfg := AudioList.config x in
  ATC.cache_dir cfg = Some cd →
  AudioList.items x ≠ [] →
  ATC.remove_silence cfg || truthy (ATC.segment_size cfg)
  || truthy (ATC.resample_to cfg) = true →
  (_pre_process self w).1 = Ok self' →
  let x' := AudioLabelList.x self' in
  AudioList.items x' ≠ []
  ∧ Forall (cache_item cd) (AudioList.items x')
  ∧ length (AudioList.items x') = length (AudioLabelList.y_items self')
  ∧ AudioLabelList.y_items self' ⊆ AudioLabelList.y_items self
  ∧ AudioList.path x' = AudioList.path x
  ∧ AudioList.config x' = cfg.
Proof.
  intros x cfg Hcd Hne Hen. unfold _pre_process. fold x. fold cfg.
  rewrite Hen, andb_true_r.
  replace (0 <? Z.of_nat (length (AudioList.items x))) with true
    by (symmetry; apply Z.ltb_lt; destruct (AudioList.items x);
        [done|simpl; lia]).
  set (items0 := zip (AudioList.items x) (AudioLabelList.y_items self)).
  set (path := AudioList.path x).
  assert (items0.*2 ⊆ AudioLabelList.y_items self) as H0.
  { unfold items0. intros l Hl. apply list_elem_of_fmap in Hl as ([i l'] & -> & Hin).
    apply elem_of_zip_r in Hin. done. }
  unfold mbind, M_bind, bind.
  rewrite stage_eq.
  destruct (flat_stage _ resample_item cfg path items0 w)
    as [[i1|e1] w1] eqn:H1; [|done].
  rewrite stage_eq.
  destruct (flat_stage _ remove_silence cfg path i1 w1)
    as [[i2|e2] w2] eqn:H2; [|done].
  rewrite stage_eq.
  destruct (flat_stage _ segment_items cfg path i2 w2)
    as [[i3|e3] w3] eqn:H3; [|done].
  destruct (flat_stage_out _ OpResample _ _ _ _ _ _ _ Hcd H1) as [Hc1 Hl1].
  destruct (flat_stage_out _ OpSilence _ _ _ _ _ _ _ Hcd H2) as [Hc2 Hl2].
  destruct (flat_stage_out _ OpSegment _ _ _ _ _ _ _ Hcd H3) as [Hc3 Hl3].
  assert (Forall (cache_item cd) i3.*1) as Hin.
  { destruct (truthy (ATC.segment_size cfg)); [done|]. subst i3.
    destruct (ATC.remove_silence cfg); [done|]. subst i2.
    destruct (truthy (ATC.resample_to cfg)); [done|]. done. }
  destruct i3 as [|fl i3]; [done|]. simpl. intros [= <-]. simpl.
  split; [done|]. split; [done|]. split; [by rewrite !length_fmap|].
  split; [|done]. etrans; [exact Hl3|]. etrans; [exact Hl2|].
  etrans; [exact Hl1|]. done.
Qed.

End PipelineMore.

(** ** [AudioList]: construction, [open] and [get] *)

Section InitMore.
Context `{Externals}.

(** X16: a configuration that goes through [__init__] twice, under the
    same path, has its [cache_dir] prefixed twice; the second prefix
    changes nothing exactly when the path or the cache directory is
    absolute or the path is empty.  The dataclass fields stay as they
    were. *)
Theorem X16_init_again (items items' : list Item) (path : Path)
    (config : ATC.t) (l1 l2 : AudioList.t) :
  AudioList_init items path config = Ok l1 →
  AudioList_init items' path (AudioList.config l1) = Ok l2 →
  ∃ cd0 cd1 cd2,
    ATC.cache_dir config = Some cd0
    ∧ ATC.cache_dir (AudioList.config l1) = Some cd1
    ∧ ATC.cache_dir (AudioList.config l2) = Some cd2
    ∧ cd1 = path_join path cd0
    ∧ cd2 = path_join path cd1
    ∧ (cd2 = cd1
       ↔ absolute path = true ∨ absolute cd0 = true ∨ parts path = [])
    ∧ ATC.asdict (AudioList.config l2) = ATC.asdict config.
Proof.
  unfold AudioList_init.
  destruct (ATC.cache_dir config) as [cd0|] eqn:Hcd0; [|done].
  intros [= <-]. simpl. intros [= <-]. simpl.
  exists cd0, (path_join path cd0), (path_join path (path_join path cd0)).
  repeat split; try done.
  - unfold path_join. destruct cd0 as [a0 l0], path as [a l]. simpl.
    destruct a0; simpl; [auto|]. destruct a; simpl; [auto|].
    intros [= Heq]. right. right.
    apply (f_equal length) in Heq. rewrite !length_app in Heq.
    destruct l; [done|simpl in Heq; lia].
  - unfold path_join. destruct cd0 as [a0 l0], path as [a l]. simpl.
    intros [->|[->| ->]]; simpl; [by destruct a0|done|by destruct a0, a].
Qed.

End InitMore.

Section OpenMore.
Context `{Externals}.


Lemma only_loads_ret {A} (a : A) : only_loads (mret a).
Proof. intros w. split; [done|]. by left. Qed.

Lemma only_loads_raise {A} e : only_loads (raise (A := A) e).
Proof. intros w. split; [done|]. by left. Qed.

Lemma only_loads_lib {A} (o : option A) : only_loads (lib o).
Proof. destruct o; [apply only_loads_ret|apply only_loads_raise]. Qed.

Lemma only_loads_bind {A B} (m : M A) (k : A → M B) :
  only_loads m → (∀ a, only_loads (k a)) → only_loads (m ≫= k).
Proof.
  intros Hm Hk w. munfold. destruct (Hm w) as [Hfs Hlog].
  destruct (m w) as [[a|e] w1]; [|done]. simpl in *.
  destruct (Hk a w1) as [Hfs' Hlog']. split; [congruence|].
  intros ev Hev. destruct (Hlog' ev Hev) as [?|?]; auto.
Qed.

Lemma only_loads_torchaudio_load p : only_loads (torchaudio_load p).
Proof.
  intros w. rewrite load_fs, load_log. split; [done|].
  intros ev [->|?]%elem_of_cons; eauto.
Qed.

Lemma only_loads_open_spectro cfg signal samplerate :
  only_loads (open_spectro cfg signal samplerate).
Proof.
  intros w. rewrite open_spectro_world. split; [done|]. by left.
Qed.

Lemma only_loads_open_resolve self item : only_loads (open_resolve self item).
Proof.
  intros w. destruct (open_resolve_eq self item w) as [msg ->].
  split; [done|]. by left.
Qed.

Lemma only_loads_open (self : AudioList.t) (item : PathLike) :
  ATC.use_spectro (AudioList.config self) = false
  ∨ ATC.cache (AudioList.config self) = false →
  only_loads (open self item).
Proof.
  intros Hoff. set (cfg := AudioList.config self) in *. unfold open.
  apply only_loads_bind; [apply only_loads_open_resolve|intros p].
  destruct (negb _); [apply only_loads_raise|].
  unfold open_load, open_cached, open_compute. fold cfg.
  destruct Hoff as [Hus | Hc].
  - intros w0. rewrite Hus. munfold. cbn beta iota.
    revert w0. change (only_loads (open_compute cfg item p None)).
    unfold open_compute.
    repeat first
      [ apply only_loads_ret | apply only_loads_raise | apply only_loads_lib
      | apply only_loads_torchaudio_load
      | apply only_loads_bind; [|intros ?]
      | match goal with
        | |- only_loads (match ?x with _ => _ end) => destruct x
        end ].
  - rewrite Hc. simpl.
    repeat first
      [ apply only_loads_ret | apply only_loads_raise | apply only_loads_lib
      | apply only_loads_torchaudio_load | apply only_loads_open_spectro
      | apply only_loads_bind; [|intros ?]
      | match goal with
        | |- only_loads (match ?x with _ => _ end) => destruct x
        end ].
Qed.

(** X17: without [use_spectro], or without [cache], [open] neither reads
    nor writes the cache. *)
Theorem X17_open_without_cache (self : AudioList.t) (item : PathLike)
    (w : World) :
  let cfg := AudioList.config self in
  ATC.use_spectro cfg = false ∨ ATC.cache cfg = false →
  let run := open self item w in
  fs run.2 = fs w
  ∧ ∀ ev, ev ∈ log run.2 → ev ∈ log w ∨ ∃ p, ev = EvLoadAudio p.
Proof. intros cfg Hoff. by apply only_loads_open. Qed.

Lemma keeps_open_spectro cfg signal samplerate :
  keeps_entries (open_spectro cfg signal samplerate).
Proof.
  intros w r w' Ho. pose proof (open_spectro_world cfg signal samplerate w)
    as Hw. rewrite Ho in Hw. simpl in Hw. by subst w'.
Qed.

Lemma keeps_open (self : AudioList.t) (item : PathLike) :
  keeps_entries (open self item).
Proof.
  unfold open, open_resolve, open_load, open_cached, open_compute.
  repeat first
    [ apply keeps_ret | apply keeps_raise | apply keeps_lib
    | apply keeps_exists | apply keeps_torchaudio_load
    | apply keeps_torch_load | apply keeps_makedirs | apply keeps_torch_save
    | apply keeps_open_spectro
    | apply keeps_bind; [|intros ?]
    | match goal with
      | |- keeps_entries (match ?x with _ => _ end) => destruct x
      end ].
Qed.

(** The files that [open] leaves as they are: all but the item's
    spectrogram file. *)
Lemma open_footprint (self : AudioList.t) (item : PathLike) (w : World)
    (q : Path) :
  (∀ p ip, resolved self item w = Some p →
           ATC.use_spectro (AudioList.config self) = true →
           open_image_path self p = Some ip → q ≠ ip) →
  ∀ c, fs (open self item w).2 !! q = Some (File c)
       ↔ fs w !! q = Some (File c).
Proof.
  intros Hq c. pose proof (open_cases self item w) as Hc.
  destruct (resolved self item w) as [p|]; [|by destruct Hc as [msg ->]].
  destruct (endswith_any _ _); [|by rewrite Hc].
  destruct (ATC.use_spectro (AudioList.config self)) eqn:Hus; last first.
  { destruct (only_loads_open self item (or_introl Hus) w) as [-> _]. done. }
  rewrite Hc.
  destruct (open_image_path self p) as [ip|] eqn:Hip.
  - destruct (open_load self item p w) as [r w'] eqn:Hl.
    destruct (open_load_touches self item p ip Hus Hip _ _ _ Hl) as [_ Hf].
    apply Hf. by apply (Hq p ip).
  - unfold open_load. rewrite Hus, Hip. done.
Qed.

(** X18: under an absolute cache directory, [open] stores the spectrogram
    directly in [config.cache_dir] and leaves every file outside of it
    as it was. *)
Theorem X18_open_absolute_inside (self : AudioList.t) (item : PathLike)
    (w : World) (cd : Path) :
  let cfg := AudioList.config self in
  ATC.cache_dir cfg = Some cd →
  absolute cd = true →
  let run := open self item w in
  (∀ p, ∃ ip, open_image_path self p = Some ip ∧ path_parent ip = cd
              ∧ path_inside cd ip)
  ∧ (∀ q c, ¬ path_inside cd q →
       fs run.2 !! q = Some (File c) ↔ fs w !! q = Some (File c))
  ∧ (∀ q, is_Some (fs w !! q) → is_Some (fs run.2 !! q)).
Proof.
  intros cfg Hcd Habs run.
  assert (∀ p, open_image_path self p
               = Some (path_child cd (open_key cfg p +:+ ".pt"))) as Hip.
  { intros p. unfold open_image_path. fold cfg. rewrite Hcd. simpl.
    unfold path_join. by rewrite Habs. }
  assert (∀ n, path_inside cd (path_child cd n)) as Hin.
  { intros n. split; [done|]. simpl. by eexists. }
  split; [|split].
  - intros p. eexists. split; [apply Hip|]. split; [|apply Hin].
    apply path_parent_child.
  - intros q c Hq. apply open_footprint. intros p ip _ _ Hp.
    rewrite Hip in Hp. injection Hp as <-. intros ->. apply Hq, Hin.
  - destruct run as [r w'] eqn:Hr. by apply (keeps_open _ _ _ _ _ Hr).
Qed.

Lemma open_compute_result cfg item p ip (w w' : World) it :
  ATC.cache cfg = true →
  open_compute cfg item p (Some ip) w = (Ok it, w') →
  ∃ m sr signal mel w0,
    node_at (fs w) p = Some (File (FAudio m sr))
    ∧ match ATC.max_to_pad cfg with
      | Some ms => if ms =? 0 then signal = S2 m
                   else PadTrim (ms_to_samples ms sr) (S2 m) = Some signal
      | None => signal = S2 m
      end
    ∧ (open_spectro cfg signal sr w0).1 = Ok mel
    ∧ it = AudioItem.mk _ (Some (sig_squeeze signal)) (Some sr) item
             (Some mel) None
    ∧ fs w' !! ip = Some (File (FTensor mel))
    ∧ EvLoadAudio p ∈ log w'.
Proof.
  intros Hc. unfold open_compute. rewrite Hc. munfold.
  unfold torchaudio_load.
  destruct (node_at (fs w) p) as [[|[m sr|t]]|] eqn:Hnode; [done| |done..].
  set (w1 := record (EvLoadAudio p) w).
  match goal with
  | |- context [let (_, _) := ?pad w1 in _] =>
      destruct (pad w1) as [[signal|e] w2] eqn:Hp; [|done]
  end.
  assert (w2 = w1
          ∧ match ATC.max_to_pad cfg with
            | Some ms => if ms =? 0 then signal = S2 m
                         else PadTrim (ms_to_samples ms sr) (S2 m)
                              = Some signal
            | None => signal = S2 m
            end) as [-> Hsig].
  { destruct (ATC.max_to_pad cfg) as [ms|]; [|by simplify_eq].
    destruct (ms =? 0); simpl in Hp; [by simplify_eq|].
    destruct (PadTrim _ _); munfold; by simplify_eq. }
  pose proof (open_spectro_world cfg signal sr w1) as Hw.
  destruct (open_spectro cfg signal sr w1) as [[mel|e] w3] eqn:Hs; [|done].
  simpl in Hw. subst w3.
  destruct (makedirs (path_parent ip) w1) as [[[]|e] w4] eqn:Hmk; [|done].
  destruct (torch_save mel ip w4) as [[[]|e] w5] eqn:Hsave; [|done].
  intros [= <- <-]. exists m, sr, signal, mel, w1.
  split; [done|]. split; [done|]. split; [by rewrite Hs|]. split; [done|].
  unfold torch_save in Hsave.
  apply write_file_ok in Hsave as (-> & _). simpl.
  split; [by rewrite lookup_insert_eq|].
  apply makedirs_ok in Hmk as (-> & _). set_solver.
Qed.

(** X19: when [open] computes the spectrogram, the tensor it stores is the
    spectrogram it returns. *)
Theorem X19_open_miss_stores_result (self : AudioList.t) (item : PathLike)
    (w : World) (p ip : Path) (it : AudioItem.t) :
  let cfg := AudioList.config self in
  resolved self item w = Some p →
  endswith_any (lower (path_str p)) AUDIO_EXTENSIONS = true →
  ATC.use_spectro cfg = true →
  ATC.cache cfg = true →
  open_image_path self p = Some ip →
  ATC.force_cache cfg = true ∨ path_exists w ip = false →
  let run := open self item w in
  run.1 = Ok it →
  ∃ m sr signal mel w0,
    node_at (fs w) p = Some (File (FAudio m sr))
    ∧ match ATC.max_to_pad cfg with
      | Some ms => if ms =? 0 then signal = S2 m
                   else PadTrim (ms_to_samples ms sr) (S2 m) = Some signal
      | None => signal = S2 m
      end
    ∧ (open_spectro cfg signal sr w0).1 = Ok mel
    ∧ it = AudioItem.mk _ (Some (sig_squeeze signal)) (Some sr) item
             (Some mel) None
    ∧ fs run.2 !! ip = Some (File (FTensor mel))
    ∧ EvLoadAudio p ∈ log run.2.
Proof.
  intros cfg Hp Hext Hus Hc Hip Hmiss run. unfold run.
  pose proof (open_cases self item w) as Hcases.
  rewrite Hp, Hext in Hcases. rewrite Hcases.
  destruct (open_load self item p w) as [r w'] eqn:Hl. simpl.
  intros ->. apply (open_compute_result cfg item p ip w w' it Hc).
  rewrite <- Hl. unfold open_load, open_cached. fold cfg.
  rewrite Hus, Hip, Hc. munfold. simpl.
  destruct Hmiss as [-> | Hex]; [done|].
  destruct (ATC.force_cache cfg); simpl; [done|].
  unfold exists_. by rewrite Hex.
Qed.

Lemma path_exists_keeps (w w' : World) (p : Path) :
  (∀ q, is_Some (fs w !! q) → is_Some (fs w' !! q)) →
  path_exists w p = true → path_exists w' p = true.
Proof.
  unfold path_exists, node_at. intros Hk. destruct (parts p); [done|].
  rewrite !bool_decide_eq_true. apply Hk.
Qed.

(** X20: an [open] finds the spectrogram that an earlier one left in the
    cache under the same key, whatever else its configuration says, and
    does not load the audio file. *)
Theorem X20_open_twice (self self2 : AudioList.t) (item : PathLike) (w : World)
    (p ip : Path) (it : AudioItem.t) :
  let cfg := AudioList.config self in
  let cfg2 := AudioList.config self2 in
  resolved self item w = Some p →
  endswith_any (lower (path_str p)) AUDIO_EXTENSIONS = true →
  ATC.use_spectro cfg = true →
  ATC.cache cfg = true →
  open_image_path self p = Some ip →
  let run := open self item w in
  run.1 = Ok it →
  (path_exists run.2 (as_Path item) = true →
   path_exists w (as_Path item) = true) →
  AudioList.path self2 = AudioList.path self →
  ATC.use_spectro cfg2 = true →
  ATC.cache cfg2 = true →
  ATC.force_cache cfg2 = false →
  open_image_path self2 p = Some ip →
  ∃ t, fs run.2 !! ip = Some (File (FTensor t))
       ∧ (AudioItem.sr it ≠ None → AudioItem.spectro it = Some t)
       ∧ open self2 item run.2
         = (match (if ATC.standardize cfg2
                   then standardize (tensor_squeeze t)
                   else Some (tensor_squeeze t)) with
            | Some mel =>
                Ok (AudioItem.mk _ None None item (Some mel)
                      (ATC.max_to_pad cfg2))
            | None => Raise RuntimeError
            end, record (EvLoadTensor ip) run.2).
Proof.
  intros cfg cfg2 Hp Hext Hus Hc Hip run Hrun Hst Hpath Hus2 Hc2 Hf2 Hip2.
  pose proof (open_cases self item w) as Hcases.
  rewrite Hp, Hext in Hcases. fold run in Hcases.
  destruct run as [r w'] eqn:Hr. simpl in *. subst r.
  pose proof (keeps_open _ _ _ _ _ Hr) as Hkeep.
  symmetry in Hcases.
  destruct (open_load_caches self item p ip w w' it Hus Hc Hip Hcases)
    as [t Ht].
  assert (parts ip ≠ []) as Hparts.
  { unfold open_image_path in Hip. destruct (ATC.cache_dir _); [|done].
    simpl in Hip. injection Hip as <-. apply parts_child_ne. }
  assert (node_at (fs w') ip = Some (File (FTensor t))) as Hnode.
  { unfold node_at. by destruct (parts ip). }
  assert (resolved self2 item w' = Some p) as Hp'.
  { unfold resolved in *. rewrite Hpath.
    destruct (path_exists w (as_Path item)) eqn:E1.
    - by rewrite (path_exists_keeps _ _ _ Hkeep E1).
    - destruct (path_exists w' (as_Path item)) eqn:E1';
        [by specialize (Hst eq_refl)|].
      destruct (path_exists w (path_join _ _)) eqn:E2; [|done].
      by rewrite (path_exists_keeps _ _ _ Hkeep E2). }
  exists t. split; [done|].
  split; [|by apply (open_hit self2 item w' p ip t)].
  (* the first call: a hit returns no rate, a miss returns what it stored *)
  intros Hsr. unfold open_load, open_cached in Hcases. fold cfg in Hcases.
  rewrite Hus, Hip, Hc in Hcases. munfold. simpl in Hcases.
  assert (open_compute cfg item p (Some ip) w = (Ok it, w') →
          AudioItem.spectro it = Some t) as Hmiss.
  { intros Hcomp.
    destruct (open_compute_result cfg item p ip w w' it Hc Hcomp)
      as (m & sr & signal & mel & w0 & _ & _ & _ & -> & Hfs & _).
    simpl. congruence. }
  destruct (ATC.force_cache cfg); simpl in Hcases; [by apply Hmiss|].
  unfold exists_ in Hcases.
  destruct (path_exists w ip) eqn:Hex; [|by apply Hmiss].
  exfalso. unfold torch_load in Hcases.
  destruct (node_at (fs w) ip) as [[|[m sr|t0]]|]; [done..| |done].
  cbn beta iota in Hcases.
  destruct (ATC.standardize cfg).
  - destruct (standardize _); simpl in Hcases; [|done].
    by injection Hcases as <- _.
  - simpl in Hcases. by injection Hcases as <- _.
Qed.



Lemma returns_raise {A} (P : A → Prop) e : returns P (raise (A := A) e).
Proof. by intros w r w'. Qed.





End OpenMore.

(** ** The further properties on concrete cases *)

Lemma X4_witness :
  let run := make_cache (H := Demo.sorted) [S1 []] (Some 1000) Demo.cfg_seg
               "s" Demo.seg_params Demo.w0 in
  run.1 = Ok []
  ∧ node_at (fs run.2) (mark_path Cases.cache "s" Demo.seg_params) = Some Dir
  ∧ get_cache Demo.cfg_seg "s" Demo.seg_params run.2 = (Ok (Some []), run.2).
Proof.
  intros run.
  destruct (X4_make_cache_nothing_to_store (H := Demo.sorted) [S1 []]
              (Some 1000) Demo.cfg_seg "s" Demo.seg_params Demo.w0
              Cases.cache) as [_ Hne].
  - reflexivity.
  - repeat constructor.
  - destruct (Hne ltac:(done) []) as (_ & Hd & _ & Hg).
    + vm_compute. reflexivity.
    + split; [vm_compute; reflexivity|]. split; [exact Hd|]. apply Hg.
      intros q Hq.
      pose proof (visible_in_dir _ _ _ Demo_w0_wf Hq) as Hdir.
      vm_compute in Hdir. discriminate.
Defined.

Lemma X5_witness :
  length demo_gap_files = 2%nat
  ∧ ∃ js, demo_gap_files
          = wav_path (mark_path Cases.cache "s" Demo.seg_params) <$> js
          ∧ StronglySorted lt js
          ∧ ∀ i, i ∈ js
                 ↔ ∃ s n, Cases.gap_sigs !! i = Some s
                          ∧ sig_len s = Some n ∧ 1 ≤ n.
Proof.
  split; [reflexivity|].
  apply (X5_make_cache_file_names (H := Demo.sorted) Cases.gap_sigs (Some 1000)
           Demo.cfg_seg "s" Demo.seg_params Demo.w0 Cases.cache
           demo_gap_files).
  - reflexivity.
  - vm_compute. reflexivity.
Defined.

Lemma X6_witness :
  let run := make_cache (H := Demo.sorted) Cases.gap_sigs (Some 1000)
               Demo.cfg_seg "s" Demo.seg_params Demo.w0 in
  let fn := wav_path (mark_path (H := Demo.sorted) Cases.cache "s"
                        Demo.seg_params) 2 in
  fn ∈ demo_gap_files
  ∧ ∃ r, Some 1000 = Some r
         ∧ fs run.2 !! fn = Some (File (@FAudio Demo.sorted [[3]] r)).
Proof.
  apply (X6_make_cache_file_contents (H := Demo.sorted) Cases.gap_sigs
           (Some 1000) Demo.cfg_seg "s" Demo.seg_params Demo.w0 Cases.cache
           demo_gap_files 2 (S1 [3]) 1).
  - reflexivity.
  - vm_compute. reflexivity.
  - reflexivity.
  - reflexivity.
  - lia.
Defined.

Lemma X7_witness :
  let mark := mark_path (H := Demo.sorted) Cases.cache "s" Demo.seg_params in
  let run := make_cache (H := Demo.sorted) Cases.gap_sigs (Some 1000)
               Demo.cfg_seg "s" Demo.seg_params Demo.w0 in
  is_Some (fs run.2 !! Path_of_string "data/a.wav")
  ∧ (∀ q c, (∀ i, q ≠ wav_path mark i) →
       fs run.2 !! q = Some (File c) ↔ fs Demo.w0 !! q = Some (File c))
  ∧ (∀ i, path_inside Cases.cache (wav_path mark i)).
Proof.
  intros mark run.
  destruct (X7_make_cache_footprint (H := Demo.sorted) Cases.gap_sigs
              (Some 1000) Demo.cfg_seg "s" Demo.seg_params Demo.w0
              Cases.cache) as (Hkeep & Hfiles & Hin & _).
  - reflexivity.
  - split; [|split; [exact Hfiles|exact Hin]].
    apply Hkeep. vm_compute. eauto.
Defined.

Lemma X8_witness :
  let run := make_cache (H := Demo.sorted) Cases.gap_sigs (Some 1000)
               Demo.cfg_seg "s" Demo.seg_params Demo.w0 in
  ∃ l, get_cache Demo.cfg_seg "s" Demo.seg_params run.2
       = (Ok (Some l), run.2)
       ∧ l ≡ₚ demo_gap_files.
Proof.
  apply (X8_get_cache_after_make_cache (H := Demo.sorted) Cases.gap_sigs
           (Some 1000) Demo.cfg_seg "s" Demo.seg_params Demo.w0 Cases.cache
           demo_gap_files).
  - reflexivity.
  - intros q Hq. pose proof (visible_in_dir _ _ _ Demo_w0_wf Hq) as Hdir.
    vm_compute in Hdir. discriminate.
  - vm_compute. reflexivity.
  - vm_compute. discriminate.
Defined.

Lemma X9_witness :
  let run := make_cache (H := Demo.sorted) [S1 [1; 2]] (Some 1000)
               Demo.cfg_seg "sh" Cases.params_1_11 Demo.w0 in
  Cases.params_11_1 ≠ Cases.params_1_11
  ∧ mark_path Cases.cache "sh" Cases.params_11_1
    = mark_path Cases.cache "sh" Cases.params_1_11
  ∧ ∃ l, get_cache Demo.cfg_seg "sh" Cases.params_11_1 run.2
         = (Ok (Some l), run.2)
         ∧ l ≡ₚ demo_key_files.
Proof.
  intros run. split; [discriminate|].
  apply (X9_cache_key_is_concatenation (H := Demo.sorted) [S1 [1; 2]]
           (Some 1000) Demo.cfg_seg "sh" Cases.params_1_11
           Cases.params_11_1 Demo.w0 Cases.cache demo_key_files).
  - reflexivity.
  - reflexivity.
  - intros q Hq. pose proof (visible_in_dir _ _ _ Demo_w0_wf Hq) as Hdir.
    vm_compute in Hdir. discriminate.
  - vm_compute. reflexivity.
  - vm_compute. discriminate.
Defined.

Lemma X10_witness :
  let mark := mark_path (H := Demo.sorted) Cases.cache "rs"
                [HPath Cases.file_a; HOptInt (Some 8000)] in
  let run := resample_item (H := Demo.sorted)
               (IPathLike Cases.item_a, Demo.lab) Cases.cfg_rs Demo.data
               Demo.w0 in
  demo_resample_pairs = [(wav_path mark 0, Demo.lab)]
  ∧ ∃ m sr sig',
      node_at (fs Demo.w0) (Path_of_string "data/a.wav")
      = Some (File (FAudio m sr))
      ∧ tfm_resample (S2 m) sr (Some 8000) = Some sig'
      ∧ ((demo_resample_pairs = [] ∧ sig_len sig' = Some 0)
         ∨ (∃ rate, Some 8000 = Some rate
                    ∧ demo_resample_pairs = [(wav_path mark 0, Demo.lab)]
                    ∧ fs run.2 !! wav_path mark 0
                      = Some (File (FAudio (sig_data sig') rate)))).
Proof.
  intros mark run. split; [vm_compute; reflexivity|].
  apply (X10_resample_item_miss (H := Demo.sorted) Cases.item_a Demo.lab
           Cases.cfg_rs Demo.data Demo.w0 Cases.cache demo_resample_pairs).
  - reflexivity.
  - vm_compute. reflexivity.
  - vm_compute. reflexivity.
Defined.

Lemma X11_witness :
  let mark := mark_path (H := Demo.sorted) Cases.cache "sh"
                [HPath Cases.file_a; HInt 20; HInt 200] in
  let run := remove_silence (H := Demo.sorted)
               (IPathLike Cases.item_a, Demo.lab) Cases.cfg_sh Demo.data
               Demo.w0 in
  demo_silence_pairs = [(wav_path mark 0, Demo.lab)]
  ∧ ∃ m sr sigs js,
      node_at (fs Demo.w0) (Path_of_string "data/a.wav")
      = Some (File (FAudio m sr))
      ∧ tfm_chop_silence (S2 m) sr 20 200 = Some sigs
      ∧ demo_silence_pairs = (λ j, (wav_path mark j, Demo.lab)) <$> js
      ∧ StronglySorted lt js
      ∧ (∀ i, i ∈ js
              ↔ ∃ s n, sigs !! i = Some s ∧ sig_len s = Some n ∧ 1 ≤ n)
      ∧ (∀ i s, i ∈ js → sigs !! i = Some s →
           fs run.2 !! wav_path mark i
           = Some (File (FAudio (sig_data s) sr))).
Proof.
  intros mark run. split; [vm_compute; reflexivity|].
  apply (X11_remove_silence_miss (H := Demo.sorted) Cases.item_a Demo.lab
           Cases.cfg_sh Demo.data Demo.w0 Cases.cache demo_silence_pairs).
  - reflexivity.
  - vm_compute. reflexivity.
  - vm_compute. reflexivity.
Defined.

Lemma X12_witness :
  let run := segment_items (H := Demo.sorted)
               (IPathLike Cases.item_a, Demo.lab) Demo.cfg_seg Demo.data
               Cases.w_slow in
  run.1 = Raise ZeroDivisionError
  ∧ fs run.2 = fs Cases.w_slow
  ∧ log run.2 = [EvLoadAudio (Path_of_string "data/a.wav")].
Proof.
  apply (X12_segment_items_zero_size (H := Demo.sorted) Cases.item_a Demo.lab
           Demo.cfg_seg Demo.data Cases.w_slow 2 100 3 [[1; 2; 3]] None).
  - reflexivity.
  - vm_compute. reflexivity.
  - reflexivity.
  - reflexivity.
  - vm_compute. reflexivity.
  - reflexivity.
Defined.

Lemma X13_witness :
  let sigs := S1 <$> segment_slices [1; 2; 3; 4; 5] 2 in
  let run := make_cache (H := Demo.sorted) sigs (Some 1000) Demo.cfg_seg "s"
               Demo.seg_params Demo.w0 in
  Z.of_nat (length demo_segment_pairs.*1) = (5 + 2 - 1) `div` 2
  ∧ ∀ i fn, demo_segment_pairs.*1 !! i = Some fn →
      fn = wav_path (mark_path Cases.cache "s" Demo.seg_params) i
      ∧ ∃ l, fs run.2 !! fn = Some (File (FAudio [l] 1000))
             ∧ 1 ≤ Z.of_nat (length l) ≤ 2
             ∧ (Z.of_nat i + 1 < Z.of_nat (length demo_segment_pairs.*1) →
                Z.of_nat (length l) = 2).
Proof.
  apply (X13_segment_file_count (H := Demo.sorted) [1; 2; 3; 4; 5] 2 1000
           Demo.cfg_seg Demo.seg_params Demo.w0 Cases.cache
           (S1 <$> segment_slices [1; 2; 3; 4; 5] 2) demo_segment_pairs.*1).
  - done.
  - lia.
  - reflexivity.
  - vm_compute. reflexivity.
  - vm_compute. reflexivity.
Defined.

Lemma X14_witness :
  let mark := mark_path (H := Demo.sorted) Cases.cache "s"
                [HPath Cases.file_a; HInt 3; HLabel Demo.lab] in
  let run := segment_items (H := Demo.sorted)
               (IPathLike Cases.item_a, Demo.lab) Cases.cfg_seg3 Demo.data
               Cases.w_stereo in
  demo_stereo_pairs = [(wav_path mark 0, Demo.lab)]
  ∧ fs run.2 !! wav_path mark 0
    = Some (File (@FAudio Demo.sorted Cases.stereo 1000)).
Proof.
  apply (X14_segment_items_multichannel (H := Demo.sorted) Cases.item_a Demo.lab
           Cases.cfg_seg3 Demo.data Cases.w_stereo Cases.cache 3 1000
           Cases.stereo demo_stereo_pairs).
  - reflexivity.
  - reflexivity.
  - vm_compute. reflexivity.
  - reflexivity.
  - done.
  - vm_compute. reflexivity.
  - vm_compute. reflexivity.
  - vm_compute. reflexivity.
Defined.

Lemma X15_witness :
  let self := AudioLabelList.mk Demo.sorted
                (AudioList.mk Demo.sorted [IPathLike Cases.item_a]
                   Demo.data Demo.cfg_seg) [Demo.lab] in
  length demo_segment_items = 3%nat
  ∧ Forall (cache_item Cases.cache) demo_segment_items.*1
  ∧ demo_segment_items.*2 ⊆ [Demo.lab].
Proof.
  intros self. split; [reflexivity|].
  destruct (X15_pre_process_items_in_cache (H := Demo.sorted) self
              (AudioLabelList.mk _
                 (AudioList.mk _ demo_segment_items.*1 Demo.data
                    Demo.cfg_seg)
                 demo_segment_items.*2)
              Demo.w0 Cases.cache) as (_ & Hin & _ & Hlab & _).
  - reflexivity.
  - done.
  - reflexivity.
  - vm_compute. reflexivity.
  - split; [exact Hin|exact Hlab].
Defined.

Lemma X16_witness :
  ∃ l1 l2,
    AudioList_init (H := Demo.sorted) [] Demo.data ATC.default = Ok l1
    ∧ AudioList_init (H := Demo.sorted) [] Demo.data (AudioList.config l1)
      = Ok l2
    ∧ ATC.cache_dir (AudioList.config l1)
      = Some (Path_of_string "data/.cache")
    ∧ ATC.cache_dir (AudioList.config l2)
      = Some (Path_of_string "data/data/.cache")
    ∧ ∃ cd0 cd1 cd2,
        ATC.cache_dir ATC.default = Some cd0
        ∧ ATC.cache_dir (AudioList.config l1) = Some cd1
        ∧ ATC.cache_dir (AudioList.config l2) = Some cd2
        ∧ cd1 = path_join Demo.data cd0
        ∧ cd2 = path_join Demo.data cd1
        ∧ (cd2 = cd1
           ↔ absolute Demo.data = true ∨ absolute cd0 = true
             ∨ parts Demo.data = [])
        ∧ ATC.asdict (AudioList.config l2) = ATC.asdict ATC.default.
Proof.
  eexists _, _. split; [reflexivity|]. split; [reflexivity|].
  split; [reflexivity|]. split; [reflexivity|].
  apply (X16_init_again (H := Demo.sorted) [] [] Demo.data ATC.default);
    reflexivity.
Defined.

Lemma X18_witness :
  let self := AudioList.mk Demo.sorted [] (Path_of_string "/data")
                Cases.cfg_abs in
  let cd := Path_of_string "/data/.cache" in
  let run := open self Cases.item_a Demo.w0 in
  (∃ ip, open_image_path self (Path_of_string "/data/a.wav") = Some ip
         ∧ path_parent ip = cd ∧ path_inside cd ip)
  ∧ (∀ q c, ¬ path_inside cd q →
       fs run.2 !! q = Some (File c) ↔ fs Demo.w0 !! q = Some (File c)).
Proof.
  intros self cd run.
  destruct (X18_open_absolute_inside (H := Demo.sorted) self Cases.item_a
              Demo.w0 cd) as (Hip & Hout & _).
  - reflexivity.
  - reflexivity.
  - split; [apply Hip|exact Hout].
Defined.

Lemma X17_witness :
  let self := AudioList.mk Demo.sorted [] Demo.data Cases.cfg_nocache in
  let run := open self Cases.item_a Demo.w0 in
  fs run.2 = fs Demo.w0
  ∧ ∀ ev, ev ∈ log run.2 → ev ∈ log Demo.w0 ∨ ∃ p, ev = EvLoadAudio p.
Proof.
  apply (X17_open_without_cache (H := Demo.sorted)
           (AudioList.mk Demo.sorted [] Demo.data Cases.cfg_nocache)
           Cases.item_a Demo.w0).
  right. reflexivity.
Defined.

Lemma X19_witness :
  let self := AudioList.mk Demo.sorted [] Demo.data Demo.cfg0 in
  let run := open self Cases.item_a Demo.w0 in
  ∃ m sr signal mel (w0 : @World Demo.sorted),
    node_at (fs Demo.w0) (Path_of_string "data/a.wav")
    = Some (File (FAudio m sr))
    ∧ signal = S2 m
    ∧ (open_spectro Demo.cfg0 signal sr w0).1 = Ok mel
    ∧ demo_opened_item
      = AudioItem.mk _ (Some (sig_squeeze signal)) (Some sr) Cases.item_a
          (Some mel) None
    ∧ fs run.2 !! demo_image_path = Some (File (FTensor mel))
    ∧ EvLoadAudio (Path_of_string "data/a.wav") ∈ log run.2.
Proof.
  apply (X19_open_miss_stores_result (H := Demo.sorted)
           (AudioList.mk Demo.sorted [] Demo.data Demo.cfg0) Cases.item_a
           Demo.w0 (Path_of_string "data/a.wav") demo_image_path
           demo_opened_item).
  - vm_compute. reflexivity.
  - vm_compute. reflexivity.
  - reflexivity.
  - reflexivity.
  - vm_compute. reflexivity.
  - right. vm_compute. reflexivity.
  - vm_compute. reflexivity.
Defined.

Lemma X20_witness :
  let self := AudioList.mk Demo.sorted [] Demo.data Demo.cfg0 in
  let self2 := AudioList.mk Demo.sorted [] Demo.data Cases.cfg_linear in
  let run := open self Cases.item_a Demo.w0 in
  Cases.cfg_linear ≠ Demo.cfg0
  ∧ ∃ t, fs run.2 !! demo_image_path = Some (File (@FTensor Demo.sorted t))
         ∧ (AudioItem.sr demo_opened_item ≠ None →
            AudioItem.spectro demo_opened_item = Some t)
         ∧ open self2 Cases.item_a run.2
           = (Ok (AudioItem.mk Demo.sorted None None Cases.item_a (Some t)
                    None),
              record (EvLoadTensor demo_image_path) run.2).
Proof.
  intros self self2 run. split; [discriminate|].
  apply (X20_open_twice (H := Demo.sorted) self self2 Cases.item_a Demo.w0
           (Path_of_string "data/a.wav") demo_image_path demo_opened_item).
  - vm_compute. reflexivity.
  - vm_compute. reflexivity.
  - reflexivity.
  - reflexivity.
  - vm_compute. reflexivity.
  - vm_compute. reflexivity.
  - vm_compute. intros [=].
  - reflexivity.
  - reflexivity.
  - reflexivity.
  - reflexivity.
  - vm_compute. reflexivity.
Defined.

